(** * Field tree normalizer of the mappings editor

    A shallow embedding of [lib/utils.ts] of the mappings editor
    (normalize, deNormalize, the alias passes, the rename propagation,
    the traversal helpers and the two registry lookups), followed by the
    properties of the specification that are settled on it.  The other
    helpers of the file (getMaxNestedDepth, buildFieldTreeFromIds, the
    type filters, shouldDeleteChildFieldsAfterTypeChange,
    canUseMappingsEditor, stripUndefinedValues and the runtime fields)
    are embedded after them, and the last part proves properties that
    the code itself shows. *)

From Stdlib Require Import String Ascii List ZArith Lia.
From stdpp Require Import base tactics option list strings pretty sorting.

Open Scope string_scope.
Open Scope list_scope.
Local Set Warnings "-register-all".

(** ** JavaScript objects as insertion-ordered association lists

    [Object.entries] lists the own string keys in insertion order, a write
    to an existing key keeps its position, a write to a new key appends.
    (Integer-like keys would come first, in numeric order: the generated
    ids are not integer-like, and the entries of an input object are
    sorted before they are read.) *)

Definition Obj (A : Type) : Type := list (string * A).

Fixpoint obj_get {A} (o : Obj A) (k : string) : option A :=
  match o with
  | [] => None
  | (k', v) :: o' => if decide (k' = k) then Some v else obj_get o' k
  end.

Fixpoint obj_set {A} (o : Obj A) (k : string) (v : A) : Obj A :=
  match o with
  | [] => [(k, v)]
  | (k', v') :: o' =>
      if decide (k' = k) then (k, v) :: o' else (k', v') :: obj_set o' k v
  end.

Definition Object_keys {A} (o : Obj A) : list string := map fst o.
Definition Object_values {A} (o : Obj A) : list A := map snd o.
Definition Object_entries {A} (o : Obj A) : list (string * A) := o.

(** ** Errors *)

Inductive JsError : Type :=
  | TypeError                       (* property read on [undefined] *)
  | Error (message : string).       (* [throw new Error(message)] *)

Inductive Result (A : Type) : Type :=
  | Ok (a : A)
  | Throw (e : JsError).
Arguments Ok {A} a.
Arguments Throw {A} e.

(** Recursion through the id store is not structural: such functions take
    fuel, [None] meaning that the fuel ran out. *)
Definition bindF {A B} (r : option (Result A)) (k : A -> option (Result B))
  : option (Result B) :=
  match r with
  | Some (Ok a) => k a
  | Some (Throw e) => Some (Throw e)
  | None => None
  end.

(** ** Data model *)

(** A field as authored: [type], the alias [path], the two child
    containers, and the remaining parameters ([name] is excluded from the
    input by [Omit<Field, 'name'>]).  A remaining parameter is an opaque
    atom or an object of fields. *)
Inductive Field : Type :=
  | MkField (type : option string) (path : option string)
            (properties : option (list (string * Field)))
            (fields : option (list (string * Field)))
            (others : list (string * Value))
with Value : Type :=
  | VAtom (s : string)
  | VFields (o : list (string * Field)).

Definition Fields : Type := Obj Field.

Definition field_type (f : Field) : option string :=
  match f with MkField t _ _ _ _ => t end.
Definition field_path (f : Field) : option string :=
  match f with MkField _ p _ _ _ => p end.
Definition field_properties (f : Field) : option Fields :=
  match f with MkField _ _ ps _ _ => ps end.
Definition field_fields (f : Field) : option Fields :=
  match f with MkField _ _ _ fs _ => fs end.
Definition field_others (f : Field) : Obj Value :=
  match f with MkField _ _ _ _ o => o end.

Inductive ChildFieldName : Type := Properties | FieldsKey.

Global Instance ChildFieldName_eq_dec : EqDecision ChildFieldName.
Proof. solve_decision. Defined.

(** [field[childFieldsName]] *)
Definition field_container (f : Field) (c : option ChildFieldName)
  : option Fields :=
  match c with
  | Some Properties => field_properties f
  | Some FieldsKey => field_fields f
  | None =>
      match obj_get (field_others f) "undefined" with
      | Some (VFields o) => Some o
      | _ => None
      end
  end.

(** [field[childFieldsName] = c] *)
Definition set_container (f : Field) (c : option ChildFieldName)
  (o : Fields) : Field :=
  match f with
  | MkField t p ps fs ot =>
      match c with
      | Some Properties => MkField t p (Some o) fs ot
      | Some FieldsKey => MkField t p ps (Some o) ot
      | None => MkField t p ps fs (obj_set ot "undefined" (VFields o))
      end
  end.

(** The [source] of a normalized field: the field without its child
    containers, plus its [name]. *)
Record Source : Type := MkSource {
  src_name : string;
  src_type : option string;
  src_path : option string;
  src_others : Obj Value;
}.

Record FieldMeta : Type := MkMeta {
  childFieldsName : option ChildFieldName;
  canHaveChildFields : bool;
  hasChildFields : bool;
  canHaveMultiFields : bool;
  hasMultiFields : bool;
  isExpanded : bool;
  childFields : option (list string);
}.

Record NormalizedField : Type := MkNormalizedField {
  nf_id : string;
  parentId : option string;
  nestedDepth : nat;
  isMultiField : bool;
  nf_path : list string;
  source : Source;
  meta : FieldMeta;
}.

Definition ById : Type := Obj NormalizedField.
Definition Aliases : Type := Obj (list string).

Record NormalizedFields : Type := MkNormalizedFields {
  byId : ById;
  aliases : Aliases;
  rootLevelFields : list string;
  maxNestedDepth : nat;
}.

Definition set_childFields (m : FieldMeta) (c : option (list string))
  : FieldMeta :=
  MkMeta (childFieldsName m) (canHaveChildFields m) (hasChildFields m)
         (canHaveMultiFields m) (hasMultiFields m) (isExpanded m) c.

Definition set_src_path (s : Source) (p : option string) : Source :=
  MkSource (src_name s) (src_type s) p (src_others s).

Definition set_source (f : NormalizedField) (s : Source) : NormalizedField :=
  MkNormalizedField (nf_id f) (parentId f) (nestedDepth f) (isMultiField f)
                    (nf_path f) s (meta f).

Definition set_path (f : NormalizedField) (p : list string)
  : NormalizedField :=
  MkNormalizedField (nf_id f) (parentId f) (nestedDepth f) (isMultiField f)
                    p (source f) (meta f).

(** ** getChildFieldsName, getFieldMeta *)

Definition fieldsWithoutMultiFields : list string :=
  [ "aggregate_metric_double"; "constant_keyword"; "flattened"; "geo_shape";
    "join"; "percolator"; "point"; "shape" ].

(** [arr.includes(x)] for a possibly undefined [x] *)
Definition includes (l : list string) (x : option string) : bool :=
  match x with
  | Some s => bool_decide (s ∈ l)
  | None => false
  end.

Definition getChildFieldsName (dataType : option string)
  : option ChildFieldName :=
  if includes fieldsWithoutMultiFields dataType then None
  else if bool_decide (dataType = Some "object")
          || bool_decide (dataType = Some "nested")
       then Some Properties
       else Some FieldsKey.

(** [Boolean(c) && Object.keys(c).length > 0] *)
Definition nonEmptyContainer (c : option Fields) : bool :=
  match c with
  | Some o => bool_decide (0 < length (Object_keys o))
  | None => false
  end.

Definition getFieldMeta (field : Field) (isMultiField : bool) : FieldMeta :=
  let childFieldsName := getChildFieldsName (field_type field) in
  let canHaveChildFields :=
    if isMultiField then false
    else bool_decide (childFieldsName = Some Properties) in
  let hasChildFields :=
    if isMultiField then false
    else canHaveChildFields
         && nonEmptyContainer (field_container field childFieldsName) in
  let canHaveMultiFields :=
    if isMultiField then false
    else bool_decide (childFieldsName = Some FieldsKey) in
  let hasMultiFields :=
    if isMultiField then false
    else canHaveMultiFields
         && nonEmptyContainer (field_container field childFieldsName) in
  MkMeta childFieldsName canHaveChildFields hasChildFields
         canHaveMultiFields hasMultiFields false None.

(** ** Sorting the entries of an object by key

    [entries.sort(([a], [b]) => (a > b ? 1 : a < b ? -1 : 0))]; the sort of
    an array is stable, and strings compare unit by unit
    ([String.compare], on the characters of the model). *)

Definition compareKeys (a b : string) : Z :=
  if String.ltb b a then 1%Z else if String.ltb a b then (-1)%Z else 0%Z.

Fixpoint insertEntry {A} (x : string * A) (l : list (string * A))
  : list (string * A) :=
  match l with
  | [] => [x]
  | y :: l' =>
      if decide (compareKeys x.1 y.1 <= 0)%Z then x :: y :: l'
      else y :: insertEntry x l'
  end.

Definition sortEntries {A} (l : list (string * A)) : list (string * A) :=
  foldr insertEntry [] l.

(** ** normalize *)

(** The state the walk of [normalize] threads: the ids handed out so far
    (the [n]-th call of [getUniqueId] returns [uuidv4 n]), the running
    [maxNestedDepth] and the accumulator [to]. *)
Record Walk : Type := MkWalk {
  fresh : nat;
  maxDepth : nat;
  to : ById;
}.

(** What the reducer of [normalizeFields] does with one entry, given where
    the entry sits. *)
Definition Visit : Type :=
  list string -> nat -> bool -> option string -> Walk -> Walk * string.

(** The [reduce] over the sorted entries; the ids pushed to
    [arrayToKeepRef] are returned in the order of the pushes. *)
Definition reduceEntries (entries : list (string * Visit))
  (paths : list string) (nestedDepth : nat) (isMultiField : bool)
  (parentId : option string) (st : Walk) : Walk * list string :=
  fold_left
    (fun (acc : Walk * list string) (e : string * Visit) =>
       let '(st', id) := e.2 paths nestedDepth isMultiField parentId acc.1 in
       (st', acc.2 ++ [id]))
    (sortEntries entries) (st, []).

Section Normalize.

(** [getUniqueId = () => uuidv4()]: the [n]-th identifier of the run. *)
Variable uuidv4 : nat -> string.

(** The reducer of [normalizeFields] on the entry [[propName, value]]. The
    recursive call [normalizeFields(field[childFieldsName], ...)] sorts the
    entries of the container before it visits them: the visits of the
    children are built here, on the subterms of [value], and
    [reduceEntries] sorts them by key before it runs them. *)
Fixpoint normalizeField (propName : string) (value : Field) {struct value}
  : Visit :=
  match value with
  | MkField type path properties fields others =>
      let visits (c : option (list (string * Field))) :=
        match c with
        | Some props =>
            map (fun '(k, v) => (k, normalizeField k v)) props
        | None => []
        end in
      let visitProperties := visits properties in
      let visitFields := visits fields in
      fun paths nestedDepth isMultiField parentId st =>
        let id := uuidv4 (fresh st) in
        let st := MkWalk (S (fresh st)) (maxDepth st) (to st) in
        let type :=
          match type, properties with
          | None, Some _ => Some "object"
          | _, _ => type
          end in
        let field := MkField type path properties fields others in
        let meta := getFieldMeta field isMultiField in
        let '(st, meta) :=
          if hasChildFields meta || hasMultiFields meta then
            let nextDepth :=
              if canHaveChildFields meta || canHaveMultiFields meta
              then S nestedDepth else nestedDepth in
            let st :=
              MkWalk (fresh st) (Nat.max (maxDepth st) nextDepth) (to st) in
            (* [field[childFieldsName]]; a field that has children has a
               [childFieldsName] *)
            let children :=
              match childFieldsName meta with
              | Some Properties => visitProperties
              | Some FieldsKey => visitFields
              | None => []
              end in
            let '(st, ids) :=
              reduceEntries children (paths ++ [propName]) nextDepth
                (canHaveMultiFields meta) (Some id) st in
            (st, set_childFields meta (Some ids))
          else (st, meta) in
        let normalizedField :=
          MkNormalizedField id parentId nestedDepth isMultiField
            (paths ++ [propName])
            (MkSource propName type path others) meta in
        (MkWalk (fresh st) (maxDepth st) (obj_set (to st) id normalizedField),
         id)
  end.

Definition normalizeFields (props : Fields) : list string -> nat -> bool ->
  option string -> Walk -> Walk * list string :=
  reduceEntries (map (fun '(k, v) => (k, normalizeField k v)) props).

(** [_field.path.join('.') === field.source.path] *)
Definition isAliasTarget (field _field : NormalizedField) : bool :=
  bool_decide (Some (String.concat "." (nf_path _field))
               = src_path (source field)).

Definition replaceAliasPathByAliasId (byId : ById) : Aliases * ById :=
  fold_left
    (fun (acc : Aliases * ById) (e : string * NormalizedField) =>
       let '(aliases, byId) := acc in
       let '(id, field) := e in
       if bool_decide (src_type (source field) = Some "alias") then
         match find (isAliasTarget field) (Object_values byId) with
         | Some aliasTargetField =>
             let field' :=
               set_source field
                 (set_src_path (source field)
                               (Some (nf_id aliasTargetField))) in
             let ids := default [] (obj_get aliases (nf_id aliasTargetField)) in
             (obj_set aliases (nf_id aliasTargetField) (ids ++ [id]),
              obj_set byId id field')
         | None => (aliases, byId)
         end
       else (aliases, byId))
    (Object_entries byId) ([], byId).

Definition normalize (fieldsToNormalize : Fields) : NormalizedFields :=
  let '(st, rootLevelFields) :=
    normalizeFields fieldsToNormalize [] 0 false None (MkWalk 0 0 []) in
  let '(aliases, byId) := replaceAliasPathByAliasId (to st) in
  MkNormalizedFields byId aliases rootLevelFields (maxDepth st).

End Normalize.

(** ** deNormalize *)

Definition joinPath (path : list string) : string := String.concat "." path.

Definition replaceAliasIdByAliasPath (aliases : Aliases) (byId : ById)
  : ById :=
  fold_left
    (fun (updatedById : ById) (e : string * list string) =>
       let '(targetId, aliasesIds) := e in
       let path :=
         match obj_get updatedById targetId with
         | Some target => joinPath (nf_path target)
         | None => EmptyString
         end in
       fold_left
         (fun (updatedById : ById) (id : string) =>
            match obj_get updatedById id with
            | None => updatedById
            | Some aliasField =>
                obj_set updatedById id
                  (set_source aliasField
                     (set_src_path (source aliasField) (Some path)))
            end)
         aliasesIds updatedById)
    (Object_entries aliases) byId.

(** [const { name, ...normalizedField } = source] *)
Definition fieldOfSource (s : Source) : Field :=
  MkField (src_type s) (src_path s) None None (src_others s).

Fixpoint deNormalizePaths (fuel : nat) (serializedFieldsById : ById)
  (ids : list string) (to : Fields) : option (Result Fields) :=
  match fuel with
  | 0 => None
  | S fuel =>
      fold_left
        (fun (acc : option (Result Fields)) (id : string) =>
           bindF acc (fun to =>
             match obj_get serializedFieldsById id with
             | None => Some (Throw TypeError)
             | Some nf =>
                 let field := fieldOfSource (source nf) in
                 match childFields (meta nf) with
                 | Some children =>
                     bindF (deNormalizePaths fuel serializedFieldsById
                              children [])
                       (fun sub =>
                          Some (Ok (obj_set to (src_name (source nf))
                                      (set_container field
                                         (childFieldsName (meta nf)) sub))))
                 | None =>
                     Some (Ok (obj_set to (src_name (source nf)) field))
                 end
             end))
        ids (Some (Ok to))
  end.

Definition deNormalize (fuel : nat) (nf : NormalizedFields)
  : option (Result Fields) :=
  let serializedFieldsById :=
    replaceAliasIdByAliasPath (aliases nf) (byId nf) in
  deNormalizePaths fuel serializedFieldsById (rootLevelFields nf) [].

(** ** updateFieldsPathAfterFieldNameChange *)

(** The two maps the call can reach: the caller's [byId] and the copy
    [updatedById = { ...byId }] the writes go to. *)
Record RenameMaps : Type := MkRenameMaps {
  callerById : ById;
  updatedById : ById;
}.

(** [hasChildFields || hasMultiFields] *)
Definition hasChildren (f : NormalizedField) : bool :=
  hasChildFields (meta f) || hasMultiFields (meta f).

Fixpoint updateFieldPath (fuel : nat) (_field : NormalizedField)
  (_paths : list string) (h : RenameMaps) : option (Result RenameMaps) :=
  match fuel with
  | 0 => None
  | S fuel =>
      let name := src_name (source _field) in
      let path := _paths ++ [name] in
      let h :=
        MkRenameMaps (callerById h)
          (obj_set (updatedById h) (nf_id _field) (set_path _field path)) in
      if hasChildren _field then
        match childFields (meta _field) with
        | None => Some (Throw TypeError)
        | Some ids =>
            fold_left
              (fun (acc : option (Result RenameMaps))
                   (childField : option NormalizedField) =>
                 bindF acc (fun h =>
                   match childField with
                   | None => Some (Throw TypeError)
                   | Some childField =>
                       updateFieldPath fuel childField (_paths ++ [name]) h
                   end))
              (map (obj_get (callerById h)) ids) (Some (Ok h))
        end
      else Some (Ok h)
  end.

(** [field.parentId ? ... : ...]: the empty string is falsy too. *)
Definition truthyId (i : option string) : option string :=
  match i with
  | Some s => if decide (s = EmptyString) then None else Some s
  | None => None
  end.

Definition updateFieldsPathAfterFieldNameChange_maps (fuel : nat)
  (field : NormalizedField) (byId : ById) : option (Result RenameMaps) :=
  let h := MkRenameMaps byId byId in
  match truthyId (parentId field) with
  | Some p =>
      match obj_get byId p with
      | Some parent => updateFieldPath fuel field (nf_path parent) h
      | None => Some (Throw TypeError)
      end
  | None => updateFieldPath fuel field [] h
  end.

Definition updateFieldsPathAfterFieldNameChange (fuel : nat)
  (field : NormalizedField) (byId : ById)
  : option (Result (list string * ById)) :=
  bindF (updateFieldsPathAfterFieldNameChange_maps fuel field byId)
    (fun h =>
       match obj_get (updatedById h) (nf_id field) with
       | Some f => Some (Ok (nf_path f, updatedById h))
       | None => Some (Throw TypeError)
       end).

(** ** Traversal helpers *)

Fixpoint getChildFields (fuel : nat) (byId : ById) (_field : NormalizedField)
  (to : list NormalizedField) : option (Result (list NormalizedField)) :=
  match fuel with
  | 0 => None
  | S fuel =>
      if hasChildren _field then
        match childFields (meta _field) with
        | None => Some (Throw TypeError)
        | Some ids =>
            fold_left
              (fun (acc : option (Result (list NormalizedField)))
                   (childField : option NormalizedField) =>
                 bindF acc (fun to =>
                   match childField with
                   | None => Some (Throw TypeError)
                   | Some childField =>
                       getChildFields fuel byId childField (to ++ [childField])
                   end))
              (map (obj_get byId) ids) (Some (Ok to))
        end
      else Some (Ok to)
  end.

Definition getAllChildFields (fuel : nat) (field : NormalizedField)
  (byId : ById) : option (Result (list NormalizedField)) :=
  getChildFields fuel byId field [].

Fixpoint getAllDescendantAliases (fuel : nat) (field : NormalizedField)
  (fields : NormalizedFields) (aliasesIds : list string)
  : option (list string) :=
  match fuel with
  | 0 => None
  | S fuel =>
      let own := obj_get (aliases fields) (nf_id field) in
      let hasAliases :=
        match own with
        | Some ids => bool_decide (0 < length ids)
        | None => false
        end in
      if negb hasAliases && negb (hasChildFields (meta field))
         && negb (hasMultiFields (meta field))
      then Some aliasesIds
      else
        let aliasesIds :=
          if hasAliases then aliasesIds ++ default [] own else aliasesIds in
        match childFields (meta field) with
        | Some ids =>
            fold_left
              (fun (acc : option (list string)) (id : string) =>
                 match acc with
                 | None => None
                 | Some aliasesIds =>
                     match obj_get (byId fields) id with
                     | None => Some aliasesIds
                     | Some child =>
                         getAllDescendantAliases fuel child fields aliasesIds
                     end
                 end)
              ids (Some aliasesIds)
        | None => Some aliasesIds
        end
  end.

(** The [while (parent)] loop of [getFieldAncestors]. *)
Fixpoint ancestorsLoop (fuel : nat) (byId : ById)
  (parent : option NormalizedField) (ancestors : Obj bool)
  : option (Obj bool) :=
  match parent with
  | None => Some ancestors
  | Some p =>
      match fuel with
      | 0 => None
      | S fuel =>
          ancestorsLoop fuel byId
            (match parentId p with
             | None => None
             | Some pid => obj_get byId pid
             end)
            (obj_set ancestors (nf_id p) true)
      end
  end.

Definition getFieldAncestors (fuel : nat) (fieldId : string) (byId : ById)
  : option (Result (Obj bool)) :=
  match obj_get byId fieldId with
  | None => Some (Throw TypeError)
  | Some currentField =>
      let parent :=
        match parentId currentField with
        | None => None
        | Some pid => obj_get byId pid
        end in
      match ancestorsLoop fuel byId parent [] with
      | Some a => Some (Ok a)
      | None => None
      end
  end.

(** ** The registries: getTypeMetaFromSource, getFieldConfig

    [MAIN_DATA_TYPE_DEFINITION], [SUB_TYPE_MAP_TO_MAIN] and
    [PARAMETERS_DEFINITION] live in [../constants]; they are taken as
    parameters, each as what a property read on it yields. *)

Definition dquote : string := String (ascii_of_nat 34) EmptyString.

Record TypeMeta : Type := MkTypeMeta {
  mainType : string;
  subType : option string;
}.

Section Registries.

Variable DataTypeDefinition : Type.
Variable MAIN_DATA_TYPE_DEFINITION : string -> option DataTypeDefinition.
Variable SUB_TYPE_MAP_TO_MAIN : string -> option string.

Definition getMainTypeFromSubType (subType : string) : string :=
  default "other" (SUB_TYPE_MAP_TO_MAIN subType).

Definition notRecognized (sourceType : string) : string :=
  String.append "Property type "
    (String.append dquote
       (String.append sourceType
          (String.append dquote
             " not recognized and no subType was found for it."))).

Definition getTypeMetaFromSource (sourceType : string) : Result TypeMeta :=
  match MAIN_DATA_TYPE_DEFINITION sourceType with
  | None =>
      let mainType := getMainTypeFromSubType sourceType in
      if decide (mainType = EmptyString) then
        Throw (Error (notRecognized sourceType))
      else Ok (MkTypeMeta mainType (Some sourceType))
  | Some _ => Ok (MkTypeMeta sourceType None)
  end.

Variable FieldConfig : Type.
(** the literal [{}] *)
Variable emptyFieldConfig : FieldConfig.

Record PropDefinition : Type := MkPropDefinition {
  prop_fieldConfig : option FieldConfig;
}.

Record ParameterDefinition : Type := MkParameterDefinition {
  fieldConfig : option FieldConfig;
  props : option (string -> option PropDefinition);
}.

Variable PARAMETERS_DEFINITION : string -> option ParameterDefinition.

Definition noFieldConfig (prop param : string) : string :=
  String.append "No field config found for prop "
    (String.append dquote
       (String.append prop
          (String.append dquote
             (String.append " on param "
                (String.append dquote
                   (String.append param (String.append dquote " "))))))).

Definition getFieldConfig (param : string) (prop : option string)
  : Result FieldConfig :=
  match prop with
  | Some prop =>
      match PARAMETERS_DEFINITION param with
      | None => Throw TypeError
      | Some def =>
          match props def with
          | None => Throw (Error (noFieldConfig prop param))
          | Some ps =>
              match ps prop with
              | None => Throw (Error (noFieldConfig prop param))
              | Some p => Ok (default emptyFieldConfig (prop_fieldConfig p))
              end
          end
      end
  | None =>
      match PARAMETERS_DEFINITION param with
      | None => Ok emptyFieldConfig
      | Some def => Ok (default emptyFieldConfig (fieldConfig def))
      end
  end.

End Registries.

(** ** Sample inputs *)

(** An injective id source standing for one run of [uuidv4]. *)
Definition sampleUuid (n : nat) : string := String.append "id-" (pretty n).

Definition leaf (type : string) : Field :=
  MkField (Some type) None None None [].

Definition object (properties : Fields) : Field :=
  MkField (Some "object") None (Some properties) None [].

Definition withMultiFields (type : string) (fields : Fields) : Field :=
  MkField (Some type) None None (Some fields) [].

Definition alias (path : string) : Field :=
  MkField (Some "alias") (Some path) None None [].

(** A slice of the registries of [../constants]. *)
Definition sampleMainTypes (s : string) : option unit :=
  if bool_decide (s ∈ ["text"; "keyword"; "numeric"; "range"; "object";
                       "nested"; "alias"; "other"])
  then Some tt else None.

Definition sampleSubTypes (s : string) : option string :=
  if bool_decide (s ∈ ["byte"; "double"; "float"; "integer"; "long"; "short"])
  then Some "numeric"
  else if bool_decide (s ∈ ["date_range"; "ip_range"; "long_range"])
  then Some "range"
  else None.

Definition sampleParameters (param : string)
  : option (ParameterDefinition string) :=
  if decide (param = "boost") then
    Some (MkParameterDefinition string (Some "boostConfig") None)
  else if decide (param = "fielddata_frequency_filter") then
    Some (MkParameterDefinition string (Some "filterConfig")
            (Some (fun prop =>
                     if decide (prop = "min_segment_size")
                     then Some (MkPropDefinition string (Some "minSegmentConfig"))
                     else None)))
  else None.

(** A field that lists a child id which is no longer in the map. *)
Definition staleParent : NormalizedField :=
  MkNormalizedField "p" None 0 false ["p"]
    (MkSource "p" (Some "object") None [])
    (MkMeta (Some Properties) true true false false false (Some ["gone"])).

Definition staleFields : NormalizedFields :=
  MkNormalizedFields [("p", staleParent)] [] ["p"] 1.

(** ** The walk of [normalize], one step at a time

    [normalizeField] written with [normalizeFields] for the recursive call,
    and the [reduce] written as a recursion over the sorted entries; both
    are shown equal to the definitions above before they are used. *)

Definition inferType (type : option string) (properties : option Fields)
  : option string :=
  match type, properties with
  | None, Some _ => Some "object"
  | _, _ => type
  end.

Definition childrenOf (field : Field) (c : option ChildFieldName) : Fields :=
  match c with
  | Some Properties => default [] (field_properties field)
  | Some FieldsKey => default [] (field_fields field)
  | None => []
  end.

Definition typedField (value : Field) : Field :=
  MkField (inferType (field_type value) (field_properties value))
    (field_path value) (field_properties value) (field_fields value)
    (field_others value).

Definition sourceOf (propName : string) (field : Field) : Source :=
  MkSource propName (field_type field) (field_path field)
    (field_others field).

Definition nextDepthOf (meta : FieldMeta) (nestedDepth : nat) : nat :=
  if canHaveChildFields meta || canHaveMultiFields meta
  then S nestedDepth else nestedDepth.

Section NormalizeSteps.

Variable uuidv4 : nat -> string.

Definition visitField (propName : string) (value : Field) : Visit :=
  fun paths nestedDepth isMultiField parentId st =>
    let id := uuidv4 (fresh st) in
    let field := typedField value in
    let meta := getFieldMeta field isMultiField in
    let st := MkWalk (S (fresh st)) (maxDepth st) (to st) in
    let '(st, meta) :=
      if hasChildFields meta || hasMultiFields meta then
        let nextDepth := nextDepthOf meta nestedDepth in
        let '(st, ids) :=
          normalizeFields uuidv4 (childrenOf field (childFieldsName meta))
            (paths ++ [propName]) nextDepth (canHaveMultiFields meta)
            (Some id)
            (MkWalk (fresh st) (Nat.max (maxDepth st) nextDepth) (to st)) in
        (st, set_childFields meta (Some ids))
      else (st, meta) in
    (MkWalk (fresh st) (maxDepth st)
       (obj_set (to st) id
          (MkNormalizedField id parentId nestedDepth isMultiField
             (paths ++ [propName]) (sourceOf propName field) meta)),
     id).

Fixpoint visitEntries (entries : list (string * Field))
  (paths : list string) (nestedDepth : nat) (isMultiField : bool)
  (parentId : option string) (st : Walk) : Walk * list string :=
  match entries with
  | [] => (st, [])
  | (propName, value) :: entries =>
      let '(st, id) :=
        normalizeField uuidv4 propName value paths nestedDepth isMultiField
          parentId st in
      let '(st, ids) :=
        visitEntries entries paths nestedDepth isMultiField parentId st in
      (st, id :: ids)
  end.

End NormalizeSteps.


(** ** Walks from an empty accumulator

    With distinct ids, a walk only appends to the accumulator it is given:
    it is the walk from the empty accumulator, put after what was there. *)

Definition startAt (n : nat) : Walk := MkWalk n 0 [].

Definition rebase (o : ById) (md : nat) (w : Walk) : Walk :=
  MkWalk (fresh w) (Nat.max md (maxDepth w)) (o ++ to w).

Section Runs.

Variable uuidv4 : nat -> string.

Definition idsWithin (lo hi : nat) (o : ById) : Prop :=
  Forall (fun k => exists i, lo <= i < hi /\ k = uuidv4 i) (Object_keys o).

Definition fieldRun (propName : string) (value : Field)
  (paths : list string) (nestedDepth : nat) (isMultiField : bool)
  (parentId : option string) (n : nat) : Walk * string :=
  normalizeField uuidv4 propName value paths nestedDepth isMultiField
    parentId (startAt n).

Definition entriesRun (entries : list (string * Field))
  (paths : list string) (nestedDepth : nat) (isMultiField : bool)
  (parentId : option string) (n : nat) : Walk * list string :=
  visitEntries uuidv4 entries paths nestedDepth isMultiField parentId
    (startAt n).

(** The entry that [normalizeFields] writes for a field. *)
Definition entryOf (propName : string) (value : Field)
  (paths : list string) (nestedDepth : nat) (isMultiField : bool)
  (parentId : option string) (n : nat) (ids : option (list string))
  : NormalizedField :=
  let field := typedField value in
  let m := getFieldMeta field isMultiField in
  MkNormalizedField (uuidv4 n) parentId nestedDepth isMultiField
    (paths ++ [propName]) (sourceOf propName field)
    (match ids with Some l => set_childFields m (Some l) | None => m end).

(** What a run from the empty accumulator yields, and how a walk from
    any accumulator with older ids relates to it. *)
Definition FieldAppends (k : string) (v : Field) : Prop :=
  forall paths d im pid n,
    let r := fieldRun k v paths d im pid n in
    (r.2 = uuidv4 n /\ n < fresh r.1 /\ idsWithin n (fresh r.1) (to r.1)) /\
    forall md o, idsWithin 0 n o ->
      normalizeField uuidv4 k v paths d im pid (MkWalk n md o)
      = (rebase o md r.1, r.2).

Definition EntriesAppend (entries : list (string * Field)) : Prop :=
  forall paths d im pid n,
    let r := entriesRun entries paths d im pid n in
    (n <= fresh r.1 /\ idsWithin n (fresh r.1) (to r.1)) /\
    forall md o, idsWithin 0 n o ->
      visitEntries uuidv4 entries paths d im pid (MkWalk n md o)
      = (rebase o md r.1, r.2).

End Runs.


(** ** The alias passes, entry by entry *)

(** The id that the alias pass of [normalize] resolves a field to. *)
Definition aliasTargetId (byId : ById) (field : NormalizedField)
  : option string :=
  if bool_decide (src_type (source field) = Some "alias") then
    nf_id <$> find (isAliasTarget field) (Object_values byId)
  else None.

Definition setAliasPath (path : string) (aliasField : NormalizedField)
  : NormalizedField :=
  set_source aliasField (set_src_path (source aliasField) (Some path)).

Definition resolveField (byId : ById) (f : NormalizedField)
  : NormalizedField :=
  match aliasTargetId byId f with
  | Some target => setAliasPath target f
  | None => f
  end.

Definition resolveEntry (byId : ById) (e : string * NormalizedField)
  : string * NormalizedField :=
  (e.1, resolveField byId e.2).

Definition registerAlias (aliases : Aliases) (target id : string) : Aliases :=
  obj_set aliases target (default [] (obj_get aliases target) ++ [id]).

Definition aliasesOf (byId : ById) : Aliases :=
  fold_left
    (fun (aliases : Aliases) (e : string * NormalizedField) =>
       match aliasTargetId byId e.2 with
       | Some target => registerAlias aliases target e.1
       | None => aliases
       end)
    byId [].

(** [id] is listed under [target]. *)
Definition inAliases (aliases : Aliases) (target id : string) : Prop :=
  exists ids, obj_get aliases target = Some ids /\ id ∈ ids.

(** The dotted path [replaceAliasIdByAliasPath] computes for a target. *)
Definition targetPath (byId : ById) (targetId : string) : string :=
  match obj_get byId targetId with
  | Some target => joinPath (nf_path target)
  | None => EmptyString
  end.

(** The inner loop of [replaceAliasIdByAliasPath], for one target. *)
Definition restoreIds (path : string) (ids : list string) (o : ById) : ById :=
  fold_left
    (fun (updatedById : ById) (id : string) =>
       match obj_get updatedById id with
       | None => updatedById
       | Some aliasField =>
           obj_set updatedById id
             (set_source aliasField
                (set_src_path (source aliasField) (Some path)))
       end)
    ids o.

(** What [replaceAliasIdByAliasPath] makes of the field stored at [k]. *)
Definition restoredField (aliases : Aliases) (byId : ById) (k : string)
  (f : NormalizedField) : NormalizedField :=
  fold_left
    (fun (f : NormalizedField) (e : string * list string) =>
       if bool_decide (k ∈ e.2) then setAliasPath (targetPath byId e.1) f
       else f)
    aliases f.


(** The accumulator of [normalize] before the alias pass. *)
Definition walked (uuidv4 : nat -> string) (fieldsToNormalize : Fields)
  : ById :=
  to (normalizeFields uuidv4 fieldsToNormalize [] 0 false None
        (MkWalk 0 0 [])).1.

(** Further sample inputs. *)
Definition sampleNested : Fields :=
  [("a", object [("b", object [("c", leaf "text")])])].

Definition sampleNestedMulti : Fields :=
  [("a", object [("b", object
      [("c", withMultiFields "text" [("raw", leaf "keyword")])])])].

Definition sampleAlias : Fields :=
  [("target", leaf "keyword"); ("link", alias "target")].

Definition sampleUnresolved : Fields := [("link", alias "missing")].


(** Every entry of [o] either hangs below [pid] at depth [d], or has its
    parent in [o], one level up. *)
Definition depthLinked (pid : option string) (d : nat) (o : ById) : Prop :=
  Forall (fun e : string * NormalizedField =>
            (parentId e.2 = pid /\ nestedDepth e.2 = d) \/
            exists p, p ∈ o /\ parentId e.2 = Some p.1
                      /\ nestedDepth e.2 = S (nestedDepth p.2))
         o.


(** ** Mapping trees up to the order of sibling keys *)

(** The tree with the siblings of every level in the order of the sort of
    [normalizeFields]. *)
Fixpoint sortField (v : Field) : Field :=
  match v with
  | MkField type path properties fields others =>
      let sortAll (c : option (list (string * Field))) :=
        match c with
        | Some l => Some (sortEntries (map (fun '(k, x) => (k, sortField x)) l))
        | None => None
        end in
      MkField type path (sortAll properties) (sortAll fields) others
  end.

Definition sortFields (m : Fields) : Fields :=
  sortEntries (map (fun '(k, x) => (k, sortField x)) m).

(** Sibling names are unique at every level. *)
Fixpoint uniqueNames (v : Field) : Prop :=
  match v with
  | MkField _ _ properties fields _ =>
      let all (c : option (list (string * Field))) :=
        match c with
        | Some l =>
            NoDup (map fst l) /\
            (fix go (l : list (string * Field)) : Prop :=
               match l with
               | [] => True
               | (_, x) :: l' => uniqueNames x /\ go l'
               end) l
        | None => True
        end in
      all properties /\ all fields
  end.

Definition uniqueNamesFields (m : Fields) : Prop :=
  NoDup (Object_keys m) /\ Forall (fun e => uniqueNames e.2) m.

(** Every child container of the tree is one that [getFieldMeta] reports:
    [properties] only where [hasChildFields] holds, [fields] only where
    [hasMultiFields] holds (so: non-empty, under the key that the declared
    type supports, and not on a multi-field). *)
Fixpoint canonical (isMultiField : bool) (v : Field) : Prop :=
  match v with
  | MkField type path properties fields others =>
      let m :=
        getFieldMeta (MkField type path properties fields others)
          isMultiField in
      match properties with
      | Some l =>
          hasChildFields m = true /\
          (fix go (l : list (string * Field)) : Prop :=
             match l with
             | [] => True
             | (_, x) :: l' => canonical false x /\ go l'
             end) l
      | None => True
      end /\
      match fields with
      | Some l =>
          hasMultiFields m = true /\
          (fix go (l : list (string * Field)) : Prop :=
             match l with
             | [] => True
             | (_, x) :: l' => canonical true x /\ go l'
             end) l
      | None => True
      end
  end.

Definition canonicalFields (m : Fields) : Prop :=
  Forall (fun e => canonical false e.2) m.

(** Levels of containers below a field, and of a tree: the fuel that
    [deNormalize] needs. *)
Fixpoint fieldHeight (v : Field) : nat :=
  match v with
  | MkField _ _ properties fields _ =>
      let h (c : option (list (string * Field))) :=
        match c with
        | Some l =>
            S (fold_right Nat.max 0 (map (fun '(_, x) => fieldHeight x) l))
        | None => 0
        end in
      Nat.max (h properties) (h fields)
  end.

Definition fieldsHeight (m : Fields) : nat :=
  S (fold_right Nat.max 0 (map (fun '(_, x) => fieldHeight x) m)).

(** Sample trees on which the round trip is not the identity. *)
Definition sampleUntyped : Fields :=
  [("a", MkField None None (Some [("b", leaf "text")]) None [])].

Definition sampleEmptyObject : Fields := [("a", object [])].


(** Two trees that are equal as key-value maps: the same fields under the
    same names at every level, whatever the order of the keys. *)
Fixpoint sameField (v1 v2 : Field) {struct v1} : Prop :=
  match v1, v2 with
  | MkField t1 p1 ps1 fs1 o1, MkField t2 p2 ps2 fs2 o2 =>
      let sameContainer (c1 c2 : option (list (string * Field))) : Prop :=
        match c1, c2 with
        | None, None => True
        | Some l1, Some l2 =>
            length l1 = length l2 /\
            (fix go (l : list (string * Field)) : Prop :=
               match l with
               | [] => True
               | (k, x) :: l' =>
                   (exists y, (k, y) ∈ l2 /\ sameField x y) /\ go l'
               end) l1
        | _, _ => False
        end in
      t1 = t2 /\ p1 = p2 /\ o1 = o2 /\
      sameContainer ps1 ps2 /\ sameContainer fs1 fs2
  end.

Definition sameFields (m1 m2 : Fields) : Prop :=
  length m1 = length m2 /\
  Forall (fun e => exists y, (e.1, y) ∈ m2 /\ sameField e.2 y) m1.


(** ** The subtree of a field in the id map *)

(** [d] is a descendant of [f]: reached through [childFields] and
    lookups in [byId]. *)
Inductive Reachable (byId : ById) : NormalizedField -> NormalizedField -> Prop :=
  | Reachable_child (f : NormalizedField) (ids : list string) (id : string)
      (c : NormalizedField) :
      hasChildren f = true -> childFields (meta f) = Some ids ->
      id ∈ ids -> obj_get byId id = Some c -> Reachable byId f c
  | Reachable_below (f : NormalizedField) (ids : list string) (id : string)
      (c d : NormalizedField) :
      hasChildren f = true -> childFields (meta f) = Some ids ->
      id ∈ ids -> obj_get byId id = Some c -> Reachable byId c d ->
      Reachable byId f d.

(** Every child id below [f] resolves in [byId], and the subtree has at
    most [n] levels. *)
Fixpoint resolvesWithin (n : nat) (byId : ById) (f : NormalizedField) : Prop :=
  match n with
  | 0 => False
  | S n =>
      if hasChildren f then
        match childFields (meta f) with
        | Some ids =>
            Forall (fun id => exists c, obj_get byId id = Some c
                                        /\ resolvesWithin n byId c) ids
        | None => False
        end
      else True
  end.

(** [field.parentId ? byId[field.parentId].path : []], when it is defined *)
Definition parentPathOf (byId : ById) (field : NormalizedField)
  : option (list string) :=
  match truthyId (parentId field) with
  | Some p => nf_path <$> obj_get byId p
  | None => Some []
  end.

(** A map with a parent and a child, and the parent renamed. *)
Definition sampleParentChild : ById :=
  byId (normalize sampleUuid [("a", object [("b", leaf "text")])]).

Definition sampleRenamed : NormalizedField :=
  MkNormalizedField "id-0" None 0 false ["a"]
    (MkSource "z" (Some "object") None [])
    (MkMeta (Some Properties) true true false false false (Some ["id-1"])).


(** [x] is [f] or a descendant of [f]. *)
Definition visited (byId : ById) (f x : NormalizedField) : Prop :=
  x = f \/ Reachable byId f x.

(** From [upd] to [upd'], only entries of nodes visited from [f] were
    written, each with a path that starts with [pre], and each visited
    node has been written. *)
Definition writtenFrom (byId : ById) (f : NormalizedField)
  (pre : list string) (upd upd' : ById) : Prop :=
  (forall k,
      obj_get upd' k = obj_get upd k \/
      exists x p, visited byId f x /\ nf_id x = k /\
                  obj_get upd' k = Some (set_path x p) /\ pre `prefix_of` p) /\
  (forall x, visited byId f x ->
             exists p, obj_get upd' (nf_id x) = Some (set_path x p)
                       /\ pre `prefix_of` p).

(** [d] is reached from [f] through [childFields] that the code reads
    (those of a field with [hasChildFields] or [hasMultiFields] set),
    and [names] are the names of the fields passed on the way, from the
    child of [f] down to [d] itself. *)
Inductive ReachableBy (byId : ById)
  : NormalizedField -> list string -> NormalizedField -> Prop :=
  | ReachableBy_child (f : NormalizedField) (ids : list string) (id : string)
      (c : NormalizedField) :
      hasChildFields (meta f) = true \/ hasMultiFields (meta f) = true ->
      childFields (meta f) = Some ids ->
      id ∈ ids -> obj_get byId id = Some c ->
      ReachableBy byId f [src_name (source c)] c
  | ReachableBy_below (f : NormalizedField) (ids : list string) (id : string)
      (c d : NormalizedField) (names : list string) :
      hasChildFields (meta f) = true \/ hasMultiFields (meta f) = true ->
      childFields (meta f) = Some ids ->
      id ∈ ids -> obj_get byId id = Some c -> ReachableBy byId c names d ->
      ReachableBy byId f (src_name (source c) :: names) d.

(** [x] is [f] (no name passed) or reached from [f] by [names]. *)
Definition visitedBy (byId : ById) (f : NormalizedField)
  (names : list string) (x : NormalizedField) : Prop :=
  (names = [] /\ x = f) \/ ReachableBy byId f names x.

(** From [upd] to [upd'], only entries of nodes visited from [f] were
    written, each with [pre] followed by the names on a way from [f] to
    the node, and each visited node has been written so. *)
Definition writtenAlong (byId : ById) (f : NormalizedField)
  (pre : list string) (upd upd' : ById) : Prop :=
  (forall k,
      obj_get upd' k = obj_get upd k \/
      exists x names, visitedBy byId f names x /\ nf_id x = k /\
                      obj_get upd' k = Some (set_path x (pre ++ names))) /\
  (forall x, visited byId f x ->
             exists names, visitedBy byId f names x /\
                           obj_get upd' (nf_id x)
                           = Some (set_path x (pre ++ names))).


(** A map in which the field [a] lists the child [b] while neither
    [hasChildFields] nor [hasMultiFields] is set on it, and [a] renamed. *)
Definition unflaggedChild : NormalizedField :=
  MkNormalizedField "id-1" (Some "id-0") 1 false ["a"; "b"]
    (MkSource "b" (Some "text") None [])
    (MkMeta None false false true false false None).

Definition unflaggedById : ById :=
  [("id-0",
    MkNormalizedField "id-0" None 0 false ["a"]
      (MkSource "a" (Some "object") None [])
      (MkMeta (Some Properties) true false false false false
              (Some ["id-1"])));
   ("id-1", unflaggedChild)].


(** A renamed field whose [parentId] is not a key of the map. *)
Definition orphanRenamed : NormalizedField :=
  MkNormalizedField "id-1" (Some "gone") 1 false ["a"; "b"]
    (MkSource "z" (Some "text") None [])
    (MkMeta None false false true false false None).

(** A map in which the child of [a] is stored under the key [k1] while
    its own [id] is [id-9]. *)
Definition misfiledChild : NormalizedField :=
  MkNormalizedField "id-9" (Some "id-0") 1 false ["a"; "b"]
    (MkSource "b" (Some "text") None [])
    (MkMeta None false false true false false None).

Definition misfiledById : ById :=
  [("id-0",
    MkNormalizedField "id-0" None 0 false ["a"]
      (MkSource "a" (Some "object") None [])
      (MkMeta (Some Properties) true true false false false (Some ["k1"])));
   ("k1", misfiledChild)].

Definition misfiledRenamed : NormalizedField :=
  MkNormalizedField "id-0" None 0 false ["a"]
    (MkSource "z" (Some "object") None [])
    (MkMeta (Some Properties) true true false false false (Some ["k1"])).

(** A renamed field that lists its own id among its children, over a map
    that stores a childless field under that id. *)
Definition selfListedOld : NormalizedField :=
  MkNormalizedField "id-0" None 0 false ["a"]
    (MkSource "a" (Some "object") None [])
    (MkMeta (Some Properties) true false false false false None).

Definition selfListedById : ById := [("id-0", selfListedOld)].

Definition selfListedRenamed : NormalizedField :=
  MkNormalizedField "id-0" None 0 false ["a"]
    (MkSource "z" (Some "object") None [])
    (MkMeta (Some Properties) true true false false false (Some ["id-0"])).


(** ** Normalized fields up to the generated ids *)

(** Ids that two runs handed out at the same step. *)
Definition sameStep (g1 g2 : nat -> string) (a b : string) : Prop :=
  exists i, a = g1 i /\ b = g2 i.

Definition oneToOne (R : string -> string -> Prop) : Prop :=
  forall a b a' b', R a b -> R a' b' -> (a = a' <-> b = b').

Section UpToIds.

Variable R : string -> string -> Prop.

Definition sameMetaUpTo (m1 m2 : FieldMeta) : Prop :=
  childFieldsName m1 = childFieldsName m2 /\
  canHaveChildFields m1 = canHaveChildFields m2 /\
  hasChildFields m1 = hasChildFields m2 /\
  canHaveMultiFields m1 = canHaveMultiFields m2 /\
  hasMultiFields m1 = hasMultiFields m2 /\
  isExpanded m1 = isExpanded m2 /\
  option_Forall2 (Forall2 R) (childFields m1) (childFields m2).

(** The alias path is the same string, or the two ids of the target. *)
Definition sameSourceUpTo (s1 s2 : Source) : Prop :=
  src_name s1 = src_name s2 /\ src_type s1 = src_type s2 /\
  src_others s1 = src_others s2 /\
  (src_path s1 = src_path s2 \/ option_Forall2 R (src_path s1) (src_path s2)).

Definition sameFieldUpTo (f1 f2 : NormalizedField) : Prop :=
  R (nf_id f1) (nf_id f2) /\
  option_Forall2 R (parentId f1) (parentId f2) /\
  nestedDepth f1 = nestedDepth f2 /\
  isMultiField f1 = isMultiField f2 /\
  nf_path f1 = nf_path f2 /\
  sameSourceUpTo (source f1) (source f2) /\
  sameMetaUpTo (meta f1) (meta f2).

Definition sameByIdUpTo (o1 o2 : ById) : Prop :=
  Forall2 (fun e1 e2 => R e1.1 e2.1 /\ sameFieldUpTo e1.2 e2.2) o1 o2.

Definition sameAliasesUpTo (a1 a2 : Aliases) : Prop :=
  Forall2 (fun e1 e2 => R e1.1 e2.1 /\ Forall2 R e1.2 e2.2) a1 a2.

(** Entry by entry, in the same order, the same fields with the same
    paths; only the ids differ, and they correspond. *)
Definition sameUpToIds (n1 n2 : NormalizedFields) : Prop :=
  sameByIdUpTo (byId n1) (byId n2) /\
  sameAliasesUpTo (aliases n1) (aliases n2) /\
  Forall2 R (rootLevelFields n1) (rootLevelFields n2) /\
  maxNestedDepth n1 = maxNestedDepth n2.

(** Entries before the alias pass: the sources are still equal. *)
Definition sameWalkedEntry (e1 e2 : string * NormalizedField) : Prop :=
  R e1.1 e2.1 /\ sameFieldUpTo e1.2 e2.2 /\ source e1.2 = source e2.2.

End UpToIds.

(** A second id source, and the alias sample with its keys swapped. *)
Definition otherUuid (n : nat) : string := String.append "run2-" (pretty n).

Definition sampleAliasSwapped : Fields :=
  [("link", alias "target"); ("target", leaf "keyword")].


(** * Further helpers of [lib/utils.ts] *)

(** ** getMaxNestedDepth *)

Definition getMaxNestedDepth (byId : ById) : nat :=
  fold_left (fun maxDepth field => Nat.max maxDepth (nestedDepth field))
    (Object_values byId) 0.

(** ** buildFieldTreeFromIds *)

Inductive TreeItem (L : Type) : Type :=
  | MkTreeItem (label : L) (children : option (list (TreeItem L))).
Arguments MkTreeItem {L} label children.

Definition item_label {L} (t : TreeItem L) : L :=
  match t with MkTreeItem l _ => l end.
Definition item_children {L} (t : TreeItem L) : option (list (TreeItem L)) :=
  match t with MkTreeItem _ c => c end.

(** [fieldsIds.map((id) => ...)]: the items in the order of the ids; a
    read of [childFields] on a missing field throws. *)
Fixpoint buildFieldTreeFromIds {L} (fuel : nat) (fieldsIds : list string)
  (byId : ById) (render : NormalizedField -> L)
  : option (Result (list (TreeItem L))) :=
  match fuel with
  | 0 => None
  | S fuel =>
      fold_left
        (fun (acc : option (Result (list (TreeItem L)))) (id : string) =>
           bindF acc (fun items =>
             match obj_get byId id with
             | None => Some (Throw TypeError)
             | Some field =>
                 match childFields (meta field) with
                 | Some ids =>
                     bindF (buildFieldTreeFromIds fuel ids byId render)
                       (fun children =>
                          Some (Ok (items ++ [MkTreeItem (render field)
                                                (Some children)])))
                 | None =>
                     Some (Ok (items ++ [MkTreeItem (render field) None]))
                 end
             end))
        fieldsIds (Some (Ok []))
  end.

(** ** canUseMappingsEditor

    [MAX_DEPTH_DEFAULT_EDITOR] lives in [../constants]; it is taken as a
    parameter. *)

Definition canUseMappingsEditor (MAX_DEPTH_DEFAULT_EDITOR : nat)
  (maxNestedDepth : nat) : bool :=
  bool_decide (maxNestedDepth < MAX_DEPTH_DEFAULT_EDITOR).

(** ** shouldDeleteChildFieldsAfterTypeChange *)

Definition shouldDeleteChildFieldsAfterTypeChange (oldType newType : string)
  : bool :=
  if bool_decide (oldType = "text") && negb (bool_decide (newType = "keyword"))
  then true
  else if bool_decide (oldType = "keyword")
          && negb (bool_decide (newType = "text"))
  then true
  else if bool_decide (oldType = "object")
          && negb (bool_decide (newType = "nested"))
  then true
  else if bool_decide (oldType = "nested")
          && negb (bool_decide (newType = "object"))
  then true
  else false.

(** ** filterTypesForMultiField, filterTypesForNonRootFields

    [TYPE_NOT_ALLOWED_MULTIFIELD] and [TYPE_ONLY_ALLOWED_AT_ROOT_LEVEL]
    live in [../constants]; they are taken as parameters.  The [value] of
    an option is a type name, or is left out. *)

Record ComboBoxOption : Type := MkComboBoxOption {
  opt_label : string;
  opt_value : option string;
}.

Section TypeFilters.

Variable TYPE_NOT_ALLOWED_MULTIFIELD : list string.
Variable TYPE_ONLY_ALLOWED_AT_ROOT_LEVEL : list string.

Definition filterTypesForMultiField (options : list ComboBoxOption)
  : list ComboBoxOption :=
  List.filter
    (fun option =>
       bool_decide (includes TYPE_NOT_ALLOWED_MULTIFIELD (opt_value option)
                    = false))
    options.

Definition filterTypesForNonRootFields (options : list ComboBoxOption)
  : list ComboBoxOption :=
  List.filter
    (fun option =>
       bool_decide (includes TYPE_ONLY_ALLOWED_AT_ROOT_LEVEL
                      (opt_value option) = false))
    options.

End TypeFilters.

(** ** Generic objects: stripUndefinedValues *)

Inductive JsValue : Type :=
  | JUndefined
  | JNull
  | JBool (b : bool)
  | JNumber (n : Z)
  | JString (s : string)
  | JArray (items : list JsValue)
  | JDate (time : Z)
  | JObject (entries : list (string * JsValue)).

Definition GenericObject : Type := Obj JsValue.

(** The reducer of [stripUndefinedValues]; [strip] is the recursive call
    on a value whose [typeof] is ['object']. *)
Definition stripEntry (recursive : bool) (strip : JsValue -> JsValue)
  (acc : GenericObject) (key : string) (value : JsValue) : GenericObject :=
  match value with
  | JUndefined => acc
  | JArray _ | JDate _ | JNull => obj_set acc key value
  | JObject _ =>
      if recursive then obj_set acc key (strip value)
      else obj_set acc key value
  | JBool _ | JNumber _ | JString _ => obj_set acc key value
  end.

(** [stripUndefinedValues(value, recursive)] as a value, for an object
    [value] (the only values it is called on). *)
Fixpoint stripUndefinedValuesOf (recursive : bool) (value : JsValue)
  {struct value} : JsValue :=
  match value with
  | JObject obj =>
      JObject
        (fold_left
           (fun (acc : GenericObject) (e : string * JsValue) =>
              stripEntry recursive (stripUndefinedValuesOf recursive)
                acc e.1 e.2)
           obj [])
  | _ => value
  end.

Definition stripUndefinedValues (obj : GenericObject) (recursive : bool)
  : GenericObject :=
  fold_left
    (fun (acc : GenericObject) (e : string * JsValue) =>
       stripEntry recursive (stripUndefinedValuesOf recursive) acc e.1 e.2)
    (Object_entries obj) [].

(** ** Runtime fields *)

(** [{ ...acc, ...o }] *)
Definition spread {A} (acc o : Obj A) : Obj A :=
  fold_left (fun (acc : Obj A) (e : string * A) => obj_set acc e.1 e.2) o acc.

(** [const { [k]: _, ...rest } = o] *)
Definition omit {A} (k : string) (o : Obj A) : Obj A :=
  List.filter (fun e : string * A => bool_decide (e.1 <> k)) o.

Record NormalizedRuntimeField : Type := MkNormalizedRuntimeField {
  nrf_id : string;
  nrf_source : GenericObject;
}.

Definition NormalizedRuntimeFields : Type := Obj NormalizedRuntimeField.
Definition RuntimeFields : Type := Obj GenericObject.

Section RuntimeFields.

Variable uuidv4 : nat -> string.

(** The ids handed out so far are threaded with the accumulator. *)
Definition normalizeRuntimeFields (fields : RuntimeFields)
  : NormalizedRuntimeFields :=
  (fold_left
     (fun (st : nat * NormalizedRuntimeFields) (e : string * GenericObject) =>
        let '(name, field) := e in
        let id := uuidv4 st.1 in
        (S st.1,
         obj_set st.2 id
           (MkNormalizedRuntimeField id
              (spread [("name", JString name)] field))))
     (Object_entries fields) (0, [])).2.

(** What a value that is not a string becomes when it is used as a
    property key; a parameter. *)
Variable ToPropertyKey : JsValue -> string.

(** [{ ...acc, [name]: rest }] for the [name] read from a source *)
Definition propertyKey (name : option JsValue) : string :=
  match name with
  | Some (JString s) => s
  | Some v => ToPropertyKey v
  | None => ToPropertyKey JUndefined
  end.

Definition deNormalizeRuntimeFields (fields : NormalizedRuntimeFields)
  : RuntimeFields :=
  fold_left
    (fun (acc : RuntimeFields) (f : NormalizedRuntimeField) =>
       let name := obj_get (nrf_source f) "name" in
       let rest := omit "name" (nrf_source f) in
       obj_set acc (propertyKey name) rest)
    (Object_values fields) [].

End RuntimeFields.

(** ** The tree that the id map holds *)

(** Below [f], a field lists its children exactly when its flags say that
    it has some, every listed id resolves in [byId], and the subtree has
    at most [n] levels. *)
Fixpoint subtreeWithin (n : nat) (byId : ById) (f : NormalizedField) : Prop :=
  match n with
  | 0 => False
  | S n =>
      match childFields (meta f) with
      | Some ids =>
          hasChildren f = true /\
          Forall (fun id => exists c, obj_get byId id = Some c
                                      /\ subtreeWithin n byId c) ids
      | None => hasChildren f = false
      end
  end.

(** The map [S] holds, under the key of every entry of [o], a field with
    the [meta] of that entry. *)
Definition holdsMetaOf (S o : ById) : Prop :=
  forall e, e ∈ o -> exists f, obj_get S e.1 = Some f /\ meta f = meta e.2.

(** Every entry of [o] is a child of [pid] (below [paths], listed in
    [ids]) or of an entry of [o] that lists it. *)
Definition linkedBelow (pid : option string) (paths ids : list string)
  (o : ById) : Prop :=
  Forall (fun e : string * NormalizedField =>
            (parentId e.2 = pid /\
             nf_path e.2 = paths ++ [src_name (source e.2)] /\ e.1 ∈ ids) \/
            exists p l, p ∈ o /\ parentId e.2 = Some p.1 /\
                        nf_path e.2 = nf_path p.2 ++ [src_name (source e.2)] /\
                        childFields (meta p.2) = Some l /\ e.1 ∈ l)
         o.

(** Every id of [ids] is the key of a child of [pid], and every id that
    an entry of [o] lists is the key of a child of that entry. *)
Definition listedBelow (pid : option string) (ids : list string) (o : ById)
  : Prop :=
  (forall id, id ∈ ids -> exists c, (id, c) ∈ o /\ parentId c = pid) /\
  (forall p l id, p ∈ o -> childFields (meta p.2) = Some l -> id ∈ l ->
                  exists c, (id, c) ∈ o /\ parentId c = Some p.1).

(** No entry of [o] lists a child twice. *)
Definition listsOnce (o : ById) : Prop :=
  Forall (fun e : string * NormalizedField =>
            forall l, childFields (meta e.2) = Some l -> NoDup l) o.

(** A field of the map with its [source.name] changed: the argument
    that a rename passes to [updateFieldsPathAfterFieldNameChange]. *)
Definition renamedTo (name : string) (f : NormalizedField) : NormalizedField :=
  set_source f
    (MkSource name (src_type (source f)) (src_path (source f))
       (src_others (source f))).

(** The entry of the parent in [sampleParentChild]. *)
Definition sampleParent : NormalizedField :=
  MkNormalizedField "id-0" None 0 false ["a"]
    (MkSource "a" (Some "object") None [])
    (MkMeta (Some Properties) true true false false false (Some ["id-1"])).

(** Every id listed in [childFields] below [f] resolves in [byId], and
    the subtree has at most [n] levels. *)
Fixpoint listedWithin (n : nat) (byId : ById) (f : NormalizedField) : Prop :=
  match n with
  | 0 => False
  | S n =>
      match childFields (meta f) with
      | Some ids =>
          Forall (fun id => exists c, obj_get byId id = Some c
                                      /\ listedWithin n byId c) ids
      | None => True
      end
  end.

(** The item that [buildFieldTreeFromIds] makes of the field [c], the
    tree of its children built with [fuel]. *)
Definition itemBuilt {L} (byId : ById) (render : NormalizedField -> L)
  (fuel : nat) (c : NormalizedField) (item : TreeItem L) : Prop :=
  item_label item = render c /\
  match childFields (meta c) with
  | Some kids =>
      exists l, item_children item = Some l /\
                buildFieldTreeFromIds fuel kids byId render = Some (Ok l)
  | None => item_children item = None
  end.

(** The ids of [ids] are keys of [o], and the names of the fields stored
    there are [names], in this order. *)
Definition namedIn (o : ById) (ids names : list string) : Prop :=
  Forall2 (fun id name => exists c, (id, c) ∈ o /\ src_name (source c) = name)
    ids names.

(** Every entry of [o] lists its children in the ascending order of their
    names. *)
Definition childrenInOrder (o : ById) : Prop :=
  Forall (fun e : string * NormalizedField =>
            forall l, childFields (meta e.2) = Some l ->
                      exists names, namedIn o l names /\ Sorted String.le names)
         o.

(** The field stored at [k] has [f] among its descendants. *)
Definition isAncestor (byId : ById) (k : string) (f : NormalizedField) : Prop :=
  exists p, obj_get byId k = Some p /\ Reachable byId p f.

(** The entry of the child in [sampleParentChild]. *)
Definition sampleChild : NormalizedField :=
  MkNormalizedField "id-1" (Some "id-0") 1 false ["a"; "b"]
    (MkSource "b" (Some "text") None [])
    (MkMeta (Some FieldsKey) false false true false false None).

(** A field that is its own parent, and the map that holds it. *)
Definition sampleSelfParent : NormalizedField :=
  MkNormalizedField "a" (Some "a") 0 false ["a"]
    (MkSource "a" (Some "object") None [])
    (MkMeta (Some Properties) true false false false false None).

Definition sampleCycle : ById := [("a", sampleSelfParent)].

(** ** The tree as normalize reads it *)

(** The field with its type inferred and with the children only that
    [getFieldMeta] reports: the [properties] where [hasChildFields]
    holds, the [fields] where [hasMultiFields] holds, and so below. *)
Fixpoint prune (isMultiField : bool) (v : Field) {struct v} : Field :=
  match v with
  | MkField type path properties fields others =>
      let type' := inferType type properties in
      let m :=
        getFieldMeta (MkField type' path properties fields others)
          isMultiField in
      let kept (has : bool) (c : option (list (string * Field))) :=
        match c with
        | Some l =>
            if has
            then Some (map (fun '(k, x) =>
                              (k, prune (canHaveMultiFields m) x)) l)
            else None
        | None => None
        end in
      MkField type' path (kept (hasChildFields m) properties)
        (kept (hasMultiFields m) fields) others
  end.

Definition pruneFields (m : Fields) : Fields :=
  map (fun '(k, x) => (k, prune false x)) m.

(** Samples: a multi-field that declares multi-fields of its own, and a
    tree with keys out of order and an object without a type. *)
Definition sampleMultiInMulti : Fields :=
  [("t", withMultiFields "text"
           [("raw", withMultiFields "keyword" [("deep", leaf "keyword")])])].

Definition sampleUnsorted : Fields :=
  [("b", MkField None None (Some [("y", leaf "text"); ("x", leaf "long")])
           None []);
   ("a", leaf "keyword")].

(** ** What stripUndefinedValues leaves *)

Definition isUndefined (v : JsValue) : bool :=
  match v with JUndefined => true | _ => false end.

(** An object, and every object nested in it through objects, has no
    key twice and no [undefined] value; what arrays hold is not looked
    at. *)
Fixpoint strippedDeep (v : JsValue) : Prop :=
  match v with
  | JObject o =>
      NoDup (map fst o) /\
      (fix go (l : list (string * JsValue)) : Prop :=
         match l with
         | [] => True
         | (_, x) :: l' => (x <> JUndefined /\ strippedDeep x) /\ go l'
         end) o
  | _ => True
  end.

Definition sampleSparse : GenericObject :=
  [("dynamic", JUndefined);
   ("properties", JObject [("title", JObject [("type", JString "text");
                                                ("boost", JUndefined)])]);
   ("dynamic_templates", JArray [JUndefined; JObject [("a", JUndefined)]]);
   ("numeric_detection", JNull)].

(** The entry that [normalizeRuntimeFields] writes for the [i]-th field
    of its argument. *)
Definition runtimeEntry (uuidv4 : nat -> string) (i : nat)
  (e : string * GenericObject) : string * NormalizedRuntimeField :=
  (uuidv4 i,
   MkNormalizedRuntimeField (uuidv4 i) (spread [("name", JString e.1)] e.2)).

Definition sampleRuntimeFields : RuntimeFields :=
  [("day_of_week", [("type", JString "keyword");
                    ("script", JObject [("source", JString "emit(1)")])]);
   ("total", [("type", JString "long")])].

(** [fields.aliases[field.id]], the empty list when there is none. *)
Definition aliasesOfField (fields : NormalizedFields) (f : NormalizedField)
  : list string :=
  default [] (obj_get (aliases fields) (nf_id f)).

(** * Properties *)

(** ** The registries *)

Section RegistryFacts.

Context {DataTypeDefinition : Type}.
Variable MAIN_DATA_TYPE_DEFINITION : string -> option DataTypeDefinition.
Variable SUB_TYPE_MAP_TO_MAIN : string -> option string.

Local Abbreviation getTypeMeta :=
  (getTypeMetaFromSource DataTypeDefinition MAIN_DATA_TYPE_DEFINITION
     SUB_TYPE_MAP_TO_MAIN).

Lemma getTypeMetaFromSource_main (s : string) :
  is_Some (MAIN_DATA_TYPE_DEFINITION s) ->
  getTypeMeta s = Ok (MkTypeMeta s None).
Proof.
  intros [d Hd]. unfold getTypeMetaFromSource. by rewrite Hd.
Qed.

Lemma getTypeMetaFromSource_sub (s m : string) :
  MAIN_DATA_TYPE_DEFINITION s = None ->
  SUB_TYPE_MAP_TO_MAIN s = Some m -> m <> EmptyString ->
  getTypeMeta s = Ok (MkTypeMeta m (Some s)).
Proof.
  intros Hm Hs Hne. unfold getTypeMetaFromSource, getMainTypeFromSubType.
  rewrite Hm, Hs. simpl. by destruct (decide (m = EmptyString)).
Qed.

Lemma getTypeMetaFromSource_unknown (s : string) :
  MAIN_DATA_TYPE_DEFINITION s = None ->
  SUB_TYPE_MAP_TO_MAIN s = None ->
  getTypeMeta s = Ok (MkTypeMeta "other" (Some s)).
Proof.
  intros Hm Hs. unfold getTypeMetaFromSource, getMainTypeFromSubType.
  by rewrite Hm, Hs.
Qed.

End RegistryFacts.

Lemma sampleSubTypes_nonempty (s m : string) :
  sampleSubTypes s = Some m -> m <> EmptyString.
Proof.
  unfold sampleSubTypes. repeat case_bool_decide; naive_solver.
Qed.

(** C5, as stated, fails: a string that is neither a main type nor a
    sub-type is not rejected; the [?? 'other'] fallback of
    [getMainTypeFromSubType] turns it into the main type [other]. *)
Lemma getTypeMetaFromSource_unknown_does_not_raise :
  sampleMainTypes "no_such_type" = None /\
  sampleSubTypes "no_such_type" = None /\
  getTypeMetaFromSource unit sampleMainTypes sampleSubTypes "no_such_type"
  = Ok (MkTypeMeta "other" (Some "no_such_type")).
Proof. by vm_compute. Qed.

(** C5 (amended): when the sub-type table maps to non-empty main types,
    [getTypeMetaFromSource] never raises; a known main type yields
    [{mainType}], a known sub-type yields [{mainType, subType}] with the
    main type of the table, and any other string [s] yields
    [{mainType: 'other', subType: s}]. *)
Theorem getTypeMetaFromSource_total
  (D : Type) (MAIN : string -> option D) (SUB : string -> option string)
  (s : string)
  (HSUB : forall k m, SUB k = Some m -> m <> EmptyString) :
  (exists r, getTypeMetaFromSource D MAIN SUB s = Ok r) /\
  (is_Some (MAIN s) ->
   getTypeMetaFromSource D MAIN SUB s = Ok (MkTypeMeta s None)) /\
  (forall m, MAIN s = None -> SUB s = Some m ->
   getTypeMetaFromSource D MAIN SUB s = Ok (MkTypeMeta m (Some s))) /\
  (MAIN s = None -> SUB s = None ->
   getTypeMetaFromSource D MAIN SUB s = Ok (MkTypeMeta "other" (Some s))).
Proof.
  split_and!.
  - destruct (MAIN s) as [d|] eqn:Hm.
    + eexists. by apply getTypeMetaFromSource_main.
    + destruct (SUB s) as [m|] eqn:Hs.
      * eexists. eapply getTypeMetaFromSource_sub; eauto.
      * eexists. by apply getTypeMetaFromSource_unknown.
  - apply getTypeMetaFromSource_main.
  - intros m Hm Hs. eapply getTypeMetaFromSource_sub; eauto.
  - apply getTypeMetaFromSource_unknown.
Qed.

Lemma getTypeMetaFromSource_total_witness :
  getTypeMetaFromSource unit sampleMainTypes sampleSubTypes "float"
  = Ok (MkTypeMeta "numeric" (Some "float")).
Proof.
  pose proof (getTypeMetaFromSource_total unit sampleMainTypes sampleSubTypes
                "float" sampleSubTypes_nonempty) as (_ & _ & H & _).
  apply H; reflexivity.
Defined.

(** C6, as stated, fails: without a sub-property an unregistered parameter
    name is not rejected; [?.fieldConfig || {}] yields the empty
    configuration. *)
Lemma getFieldConfig_unknown_param_does_not_raise :
  sampleParameters "no_such_param" = None /\
  getFieldConfig string "emptyConfig" sampleParameters "no_such_param" None
  = Ok "emptyConfig".
Proof. by vm_compute. Qed.

(** C6 (amended): for a registered parameter, [getFieldConfig] with a
    sub-property returns the configuration registered for the pair (the
    empty configuration when the pair has none) and raises an [Error] whose
    message carries both names when the parameter has no sub-properties or
    not this one; without a sub-property it never raises and returns the
    parameter's configuration, or the empty configuration when the
    parameter is unregistered or has none. *)
Theorem getFieldConfig_spec
  (C : Type) (empty : C) (PD : string -> option (ParameterDefinition C))
  (param : string) :
  (forall prop def, PD param = Some def ->
     (forall ps p, props C def = Some ps -> ps prop = Some p ->
        getFieldConfig C empty PD param (Some prop)
        = Ok (default empty (prop_fieldConfig C p))) /\
     ((props C def = None \/
       exists ps, props C def = Some ps /\ ps prop = None) ->
        exists message a b c,
          getFieldConfig C empty PD param (Some prop) = Throw (Error message)
          /\ message
             = String.append a
                 (String.append prop
                    (String.append b (String.append param c))))) /\
  getFieldConfig C empty PD param None
  = Ok (match PD param with
        | Some def => default empty (fieldConfig C def)
        | None => empty
        end).
Proof.
  split.
  - intros prop def Hdef. split.
    + intros ps p Hps Hp. simpl. by rewrite Hdef, Hps, Hp.
    + intros Hno.
      exists (noFieldConfig prop param),
        (String.append "No field config found for prop " dquote),
        (String.append dquote (String.append " on param " dquote)),
        (String.append dquote " ").
      split; [|reflexivity].
      simpl. rewrite Hdef.
      destruct Hno as [->|(ps & -> & ->)]; reflexivity.
  - simpl. by destruct (PD param).
Qed.

Lemma getFieldConfig_spec_witness :
  getFieldConfig string "emptyConfig" sampleParameters
    "fielddata_frequency_filter" (Some "min_segment_size")
  = Ok "minSegmentConfig" /\
  exists message a b c,
    getFieldConfig string "emptyConfig" sampleParameters
      "boost" (Some "min_segment_size") = Throw (Error message)
    /\ message
       = String.append a
           (String.append "min_segment_size"
              (String.append b (String.append "boost" c))).
Proof.
  split.
  - pose proof (getFieldConfig_spec string "emptyConfig" sampleParameters
                  "fielddata_frequency_filter") as [H _].
    edestruct (H "min_segment_size") as [H1 _]; [reflexivity|].
    exact (H1 _ (MkPropDefinition string (Some "minSegmentConfig"))
              eq_refl eq_refl).
  - pose proof (getFieldConfig_spec string "emptyConfig" sampleParameters
                  "boost") as [H _].
    edestruct (H "min_segment_size") as [_ H2]; [reflexivity|].
    apply H2. left. reflexivity.
Defined.

(** ** Traversal helpers and stale child ids *)

(** [getAllDescendantAliases] guards the lookup of a child id: children
    that are all absent from [byId] contribute nothing. *)
Lemma getAllDescendantAliases_skips_dangling
  (fuel : nat) (field : NormalizedField) (fields : NormalizedFields)
  (acc ids : list string) :
  obj_get (aliases fields) (nf_id field) = None ->
  childFields (meta field) = Some ids ->
  Forall (fun id => obj_get (byId fields) id = None) ids ->
  getAllDescendantAliases (S fuel) field fields acc = Some acc.
Proof.
  intros Hal Hch Hids. simpl. rewrite Hal, Hch. simpl.
  assert (Hfold : fold_left
    (fun (acc : option (list string)) (id : string) =>
       match acc with
       | None => None
       | Some aliasesIds =>
           match obj_get (byId fields) id with
           | None => Some aliasesIds
           | Some child => getAllDescendantAliases fuel child fields aliasesIds
           end
       end) ids (Some acc) = Some acc).
  { clear Hch. induction Hids as [|id ids Hid _ IH]; simpl; [done|].
    rewrite Hid. exact IH. }
  rewrite Hfold. by destruct (_ && _).
Qed.

Lemma getAllDescendantAliases_stale :
  forall n, getAllDescendantAliases (S n) staleParent staleFields [] = Some [].
Proof.
  intros n. eapply getAllDescendantAliases_skips_dangling; try reflexivity.
  by repeat constructor.
Qed.

(** The walk up the [parentId] links stops at a missing parent. *)
Lemma getFieldAncestors_dangling_parent
  (fuel : nat) (fieldId pid : string) (byId : ById) (f : NormalizedField) :
  obj_get byId fieldId = Some f -> parentId f = Some pid ->
  obj_get byId pid = None ->
  getFieldAncestors fuel fieldId byId = Some (Ok []).
Proof.
  intros Hf Hp Hnone. unfold getFieldAncestors. rewrite Hf, Hp, Hnone.
  by destruct fuel.
Qed.

(** C7 (code defect): on a field that lists a child id absent from [byId],
    [getAllChildFields] pushes [undefined] and then reads
    [hasChildFields] of it: a [TypeError], whatever the fuel. The guard
    that [getAllDescendantAliases] has is missing here. *)
Theorem getAllChildFields_dangling_child_throws :
  forall n,
    obj_get (byId staleFields) "gone" = None /\
    getAllChildFields (S n) staleParent (byId staleFields)
    = Some (Throw TypeError).
Proof. intros n. split; reflexivity. Qed.

(** ** Objects *)

Section ObjFacts.

Context {A : Type}.
Implicit Types (o : Obj A) (k : string) (v : A).

Lemma obj_get_set_eq o k v : obj_get (obj_set o k v) k = Some v.
Proof.
  induction o as [|[k' v'] o IH]; simpl.
  - by rewrite decide_True.
  - destruct (decide (k' = k)) as [->|Hne]; simpl.
    + by rewrite decide_True.
    + by rewrite decide_False.
Qed.

Lemma obj_get_set_ne o k k' v :
  k <> k' -> obj_get (obj_set o k v) k' = obj_get o k'.
Proof.
  intros Hne. induction o as [|[k0 v0] o IH]; simpl.
  - by rewrite decide_False.
  - destruct (decide (k0 = k)) as [->|Hne0]; simpl.
    + by rewrite !decide_False.
    + by rewrite IH.
Qed.

Lemma obj_get_None o k : obj_get o k = None <-> k ∉ Object_keys o.
Proof.
  induction o as [|[k' v'] o IH]; simpl.
  - split; [intros _; apply not_elem_of_nil|done].
  - rewrite not_elem_of_cons. destruct (decide (k' = k)) as [->|Hne].
    + split; [done|]. by intros [? _].
    + rewrite IH. split; [intros ?; split; [congruence|done]|by intros [_ ?]].
Qed.

Lemma obj_get_Some_elem o k v : obj_get o k = Some v -> (k, v) ∈ o.
Proof.
  induction o as [|[k' v'] o IH]; simpl; [done|].
  destruct (decide (k' = k)) as [->|Hne].
  - intros [= ->]. left.
  - intros H. right. by apply IH.
Qed.

Lemma obj_get_elem o k v :
  NoDup (Object_keys o) -> (k, v) ∈ o -> obj_get o k = Some v.
Proof.
  induction o as [|[k' v'] o IH]; simpl.
  - intros _ H. by apply elem_of_nil in H.
  - intros [Hk Hnd]%NoDup_cons [Heq|Hin]%elem_of_cons.
    + injection Heq as -> ->. by rewrite decide_True.
    + destruct (decide (k' = k)) as [->|Hne]; [|by apply IH].
      exfalso. apply Hk. unfold Object_keys.
      apply list_elem_of_fmap. by exists (k, v).
Qed.

Lemma obj_set_fresh o k v :
  k ∉ Object_keys o -> obj_set o k v = o ++ [(k, v)].
Proof.
  induction o as [|[k' v'] o IH]; simpl; [done|].
  intros [Hne Hk]%not_elem_of_cons.
  rewrite decide_False by done. by rewrite IH.
Qed.

Lemma keys_obj_set_old o k v :
  k ∈ Object_keys o -> Object_keys (obj_set o k v) = Object_keys o.
Proof.
  induction o as [|[k' v'] o IH]; cbn [obj_set Object_keys map fst].
  - intros H. by apply elem_of_nil in H.
  - intros Hin. destruct (decide (k' = k)) as [->|Hne]; [done|].
    cbn [map fst]. f_equal. apply IH.
    apply elem_of_cons in Hin as [?|?]; [congruence|done].
Qed.

Lemma keys_obj_set_new o k v :
  k ∉ Object_keys o -> Object_keys (obj_set o k v) = Object_keys o ++ [k].
Proof.
  intros Hk. rewrite obj_set_fresh by done.
  unfold Object_keys. by rewrite map_app.
Qed.

Lemma NoDup_keys_obj_set o k v :
  NoDup (Object_keys o) -> NoDup (Object_keys (obj_set o k v)).
Proof.
  intros Hnd. destruct (decide (k ∈ Object_keys o)) as [Hin|Hnin].
  - by rewrite keys_obj_set_old.
  - rewrite keys_obj_set_new by done.
    apply NoDup_app. split_and!; [done| |apply NoDup_singleton].
    intros x Hx ->%list_elem_of_singleton. done.
Qed.

Lemma Forall_obj_set (P : string * A -> Prop) o k v :
  Forall P o -> P (k, v) -> Forall P (obj_set o k v).
Proof.
  intros Ho Hv. induction Ho as [|[k' v'] o Hx Ho IH]; simpl.
  - by repeat constructor.
  - case_decide; constructor; done.
Qed.

Lemma obj_get_app o1 o2 k :
  obj_get (o1 ++ o2) k
  = match obj_get o1 k with Some v => Some v | None => obj_get o2 k end.
Proof.
  induction o1 as [|[k' v'] o1 IH]; simpl; [done|].
  by case_decide.
Qed.

End ObjFacts.

(** ** The mapping tree *)

Lemma Field_tree_ind (P : Field -> Prop) :
  (forall type path properties fields others,
      (forall l, properties = Some l -> Forall (fun e => P e.2) l) ->
      (forall l, fields = Some l -> Forall (fun e => P e.2) l) ->
      P (MkField type path properties fields others)) ->
  forall f, P f.
Proof.
  intros H. fix IH 1. intros [t p ps fs ot]. apply H.
  - destruct ps as [l0|]; intros l Heq; [|discriminate Heq].
    injection Heq as <-.
    induction l0 as [|[k v] l0 IHl]; constructor; [apply IH|apply IHl].
  - destruct fs as [l0|]; intros l Heq; [|discriminate Heq].
    injection Heq as <-.
    induction l0 as [|[k v] l0 IHl]; constructor; [apply IH|apply IHl].
Qed.

(** ** Sorting *)

Section SortFacts.

Context {A : Type}.
Implicit Types (x : string * A) (l : list (string * A)).

Lemma insertEntry_Permutation x l : insertEntry x l ≡ₚ x :: l.
Proof.
  induction l as [|y l IH]; simpl; [done|].
  case_decide; [done|]. rewrite IH. apply Permutation_swap.
Qed.

Lemma sortEntries_Permutation l : sortEntries l ≡ₚ l.
Proof.
  induction l as [|x l IH]; simpl; [done|].
  by rewrite insertEntry_Permutation, IH.
Qed.

Lemma sortEntries_Forall (P : string * A -> Prop) l :
  Forall P l -> Forall P (sortEntries l).
Proof. by rewrite sortEntries_Permutation. Qed.

End SortFacts.

Lemma insertEntry_map {A B} (f : string -> A -> B) (x : string * A)
  (l : list (string * A)) :
  insertEntry (x.1, f x.1 x.2) (map (fun '(k, v) => (k, f k v)) l)
  = map (fun '(k, v) => (k, f k v)) (insertEntry x l).
Proof.
  induction l as [|[k v] l IH]; simpl; [by destruct x|].
  case_decide; simpl; [by destruct x|]. by rewrite IH.
Qed.

Lemma sortEntries_map {A B} (f : string -> A -> B) (l : list (string * A)) :
  sortEntries (map (fun '(k, v) => (k, f k v)) l)
  = map (fun '(k, v) => (k, f k v)) (sortEntries l).
Proof.
  induction l as [|[k v] l IH]; simpl; [done|].
  rewrite IH. apply (insertEntry_map f (k, v)).
Qed.

(** ** The walk, unfolded *)

Section WalkFacts.

Variable uuidv4 : nat -> string.

Lemma reduce_visitEntries (entries : list (string * Field))
  paths d im pid st acc :
  fold_left
    (fun (a : Walk * list string) (e : string * Visit) =>
       let '(st', id) := e.2 paths d im pid a.1 in (st', a.2 ++ [id]))
    (map (fun '(k, v) => (k, normalizeField uuidv4 k v)) entries) (st, acc)
  = let '(st', ids) := visitEntries uuidv4 entries paths d im pid st in
    (st', acc ++ ids).
Proof.
  revert st acc. induction entries as [|[k v] entries IH]; intros st acc.
  - simpl. by rewrite app_nil_r.
  - cbn [map fold_left visitEntries fst snd].
    destruct (normalizeField uuidv4 k v paths d im pid st) as [st1 id].
    rewrite IH.
    destruct (visitEntries uuidv4 entries paths d im pid st1) as [st2 ids].
    by rewrite <- app_assoc.
Qed.

Lemma normalizeFields_unfold (props : Fields) paths d im pid st :
  normalizeFields uuidv4 props paths d im pid st
  = visitEntries uuidv4 (sortEntries props) paths d im pid st.
Proof.
  unfold normalizeFields, reduceEntries.
  rewrite (sortEntries_map (normalizeField uuidv4)), reduce_visitEntries.
  by destruct (visitEntries _ _ _ _ _ _ _).
Qed.

Lemma normalizeField_unfold (propName : string) (value : Field)
  paths d im pid st :
  normalizeField uuidv4 propName value paths d im pid st
  = visitField uuidv4 propName value paths d im pid st.
Proof.
  destruct value as [[t|] p [ps|] fs ot];
    unfold visitField, typedField, inferType, normalizeFields, sourceOf;
    cbn [normalizeField field_type field_path field_properties field_fields
         field_others]; cbv zeta;
    match goal with |- context [getFieldMeta ?f im] => set (field := f) end;
    (destruct (hasChildFields (getFieldMeta field im)
               || hasMultiFields (getFieldMeta field im)); [|reflexivity]);
    unfold nextDepthOf;
    destruct (childFieldsName (getFieldMeta field im)) as [[]|];
    cbn [childrenOf field field_properties field_fields];
    try destruct fs; reflexivity.
Qed.

End WalkFacts.

(** Induction on the tree along the entries that the walk visits. *)
Lemma Field_children_ind (P : Field -> Prop) :
  (forall value,
      (forall c, Forall (fun e => P e.2)
                   (sortEntries (childrenOf (typedField value) c))) ->
      P value) ->
  forall f, P f.
Proof.
  intros H. induction f as [t p ps fs ot IHps IHfs] using Field_tree_ind.
  apply H. intros c. apply sortEntries_Forall.
  destruct c as [[]|]; cbn [childrenOf typedField field_properties
                             field_fields].
  - destruct ps as [l|]; [by apply IHps|constructor].
  - destruct fs as [l|]; [by apply IHfs|constructor].
  - constructor.
Qed.

Section WalkInvariant.

Variable uuidv4 : nat -> string.

(** A property of the accumulator that every write of the walk keeps. *)
Variable I : ById -> Prop.

Hypothesis I_write :
  forall o id pid d im path src field m,
    I o ->
    (m = getFieldMeta field im /\
     hasChildFields m || hasMultiFields m = false) \/
    (exists ids, m = set_childFields (getFieldMeta field im) (Some ids) /\
                 hasChildFields m || hasMultiFields m = true) ->
    I (obj_set o id (MkNormalizedField id pid d im path src m)).

Lemma visitEntries_invariant (entries : list (string * Field)) :
  Forall (fun e => forall paths d im pid st,
              I (to st) ->
              I (to (normalizeField uuidv4 e.1 e.2 paths d im pid st).1))
         entries ->
  forall paths d im pid st,
    I (to st) -> I (to (visitEntries uuidv4 entries paths d im pid st).1).
Proof.
  induction 1 as [|[k v] entries Hv _ IH]; intros paths d im pid st Hst.
  - done.
  - cbn [visitEntries]. specialize (Hv paths d im pid st Hst).
    cbn [fst snd] in Hv.
    destruct (normalizeField uuidv4 k v paths d im pid st) as [st1 id].
    specialize (IH paths d im pid st1 Hv).
    by destruct (visitEntries uuidv4 entries paths d im pid st1).
Qed.

Lemma normalizeField_invariant (value : Field) :
  forall propName paths d im pid st,
    I (to st) ->
    I (to (normalizeField uuidv4 propName value paths d im pid st).1).
Proof.
  induction value as [value IH] using Field_children_ind.
  intros k paths d im pid st Hst.
  rewrite normalizeField_unfold. unfold visitField.
  set (field := typedField value). set (m := getFieldMeta field im).
  destruct (hasChildFields m || hasMultiFields m) eqn:Hhas.
  - rewrite normalizeFields_unfold.
    assert (Hkids : Forall (fun e => forall paths d im pid st,
              I (to st) ->
              I (to (normalizeField uuidv4 e.1 e.2 paths d im pid st).1))
             (sortEntries (childrenOf field (childFieldsName m)))).
    { eapply Forall_impl; [apply IH|]. intros e He. apply He. }
    pose proof (visitEntries_invariant _ Hkids
                  (paths ++ [k]) (nextDepthOf m d) (canHaveMultiFields m)
                  (Some (uuidv4 (fresh st)))
                  (MkWalk (S (fresh st))
                     (Nat.max (maxDepth st) (nextDepthOf m d)) (to st))
                  Hst) as Hsub.
    cbn [fresh maxDepth to] in *.
    destruct (visitEntries _ _ _ _ _ _ _) as [st1 ids].
    cbn [fst snd to]. apply I_write with (field := field); [done|].
    right. exists ids. by split.
  - cbn [fst snd to]. apply I_write with (field := field); [done|].
    left. by split.
Qed.

Lemma normalizeFields_invariant (props : Fields) paths d im pid st :
  I (to st) -> I (to (normalizeFields uuidv4 props paths d im pid st).1).
Proof.
  rewrite normalizeFields_unfold. apply visitEntries_invariant.
  apply Forall_forall. intros [k v] _. apply normalizeField_invariant.
Qed.

End WalkInvariant.

(** ** Distinct ids: the walk appends *)

Section Appends.

Variable uuidv4 : nat -> string.
Hypothesis uuidv4_inj : forall i j, uuidv4 i = uuidv4 j -> i = j.

Local Abbreviation within := (idsWithin uuidv4).
Local Abbreviation runField := (fieldRun uuidv4).
Local Abbreviation runEntries := (entriesRun uuidv4).

Lemma idsWithin_mono lo hi lo' hi' o :
  lo' <= lo -> hi <= hi' -> within lo hi o -> within lo' hi' o.
Proof.
  intros ? ? Ho. eapply Forall_impl; [exact Ho|].
  intros k (i & ? & ->). exists i. split; [lia|done].
Qed.

Lemma idsWithin_app lo hi o1 o2 :
  within lo hi o1 -> within lo hi o2 -> within lo hi (o1 ++ o2).
Proof.
  unfold idsWithin, Object_keys. rewrite map_app.
  apply Forall_app_2.
Qed.

Lemma idsWithin_fresh lo hi o n :
  within lo hi o -> (n < lo \/ hi <= n) -> uuidv4 n ∉ Object_keys o.
Proof.
  intros Ho Hn Hin. eapply Forall_forall in Ho as (i & Hi & Heq); [|done].
  apply uuidv4_inj in Heq. lia.
Qed.

Lemma rebase_rebase o md o1 md1 w :
  rebase (o ++ o1) (Nat.max md md1) w
  = rebase o md (rebase o1 md1 w).
Proof.
  unfold rebase. cbn [fresh maxDepth to].
  by rewrite app_assoc, Nat.max_assoc.
Qed.

Lemma entries_append (entries : list (string * Field)) :
  Forall (fun e => forall k, FieldAppends uuidv4 k e.2) entries ->
  EntriesAppend uuidv4 entries.
Proof.
  induction 1 as [|[k v] entries Hv _ IH]; intros paths d im pid n r.
  - subst r. unfold entriesRun. cbn [visitEntries fst snd].
    split; [split; [done|constructor]|].
    intros md o _. unfold rebase, startAt. cbn [fresh maxDepth to].
    by rewrite Nat.max_0_r, app_nil_r.
  - destruct (Hv k paths d im pid n) as [(Hid & Hlt & Hin) Hgen].
    cbn [fst snd] in *.
    assert (Hrun : forall md o, within 0 n o ->
      visitEntries uuidv4 ((k, v) :: entries) paths d im pid (MkWalk n md o)
      = (rebase o md
           (rebase (to (runField k v paths d im pid n).1)
              (maxDepth (runField k v paths d im pid n).1)
              (runEntries entries paths d im pid
                 (fresh (runField k v paths d im pid n).1)).1),
         (runField k v paths d im pid n).2
         :: (runEntries entries paths d im pid
               (fresh (runField k v paths d im pid n).1)).2)).
    { intros md o Ho. cbn [visitEntries]. rewrite (Hgen md o Ho).
      destruct (IH paths d im pid (fresh (runField k v paths d im pid n).1))
        as [_ Hrest].
      unfold rebase at 1. rewrite Hrest.
      - by rewrite rebase_rebase.
      - apply idsWithin_app.
        + eapply idsWithin_mono; [| |exact Ho]; lia.
        + eapply idsWithin_mono; [| |exact Hin]; lia. }
    destruct (IH paths d im pid (fresh (runField k v paths d im pid n).1))
      as [(Hle & Hin') _].
    assert (Hr : r = (rebase (to (runField k v paths d im pid n).1)
                        (maxDepth (runField k v paths d im pid n).1)
                        (runEntries entries paths d im pid
                           (fresh (runField k v paths d im pid n).1)).1,
                      (runField k v paths d im pid n).2
                      :: (runEntries entries paths d im pid
                            (fresh (runField k v paths d im pid n).1)).2)).
    { subst r. unfold entriesRun at 1, startAt.
      rewrite (Hrun 0 []); [|constructor].
      unfold rebase. cbn [fresh maxDepth to]. by rewrite app_nil_l. }
    split.
    + rewrite Hr. cbn [fst snd rebase fresh to]. split; [lia|].
      apply idsWithin_app.
      * eapply idsWithin_mono; [| |exact Hin]; lia.
      * eapply idsWithin_mono; [| |exact Hin']; lia.
    + intros md o Ho. rewrite Hr. cbn [fst snd]. by apply Hrun.
Qed.

Lemma visitField_with_children (k : string) (v : Field) paths d im pid
  n md o :
  let m := getFieldMeta (typedField v) im in
  let kids := sortEntries (childrenOf (typedField v) (childFieldsName m)) in
  let rc := runEntries kids (paths ++ [k]) (nextDepthOf m d)
              (canHaveMultiFields m) (Some (uuidv4 n)) (S n) in
  EntriesAppend uuidv4 kids ->
  within 0 n o ->
  hasChildFields m || hasMultiFields m = true ->
  normalizeField uuidv4 k v paths d im pid (MkWalk n md o)
  = (MkWalk (fresh rc.1)
       (Nat.max (Nat.max md (nextDepthOf m d)) (maxDepth rc.1))
       (o ++ to rc.1
          ++ [(uuidv4 n, entryOf uuidv4 k v paths d im pid n (Some rc.2))]),
     uuidv4 n).
Proof.
  intros m kids rc Hkids Ho Hhas.
  rewrite normalizeField_unfold. unfold visitField. cbn [fresh maxDepth to].
  fold m. rewrite Hhas. rewrite normalizeFields_unfold. fold kids.
  destruct (Hkids (paths ++ [k]) (nextDepthOf m d) (canHaveMultiFields m)
              (Some (uuidv4 n)) (S n)) as [(Hle & Hin) Hgen].
  fold rc in Hle, Hin, Hgen.
  rewrite Hgen by (eapply idsWithin_mono; [| |exact Ho]; lia).
  unfold rebase. cbn [fresh maxDepth to].
  rewrite obj_set_fresh.
  - unfold entryOf. fold m. by rewrite <- app_assoc.
  - unfold Object_keys. rewrite map_app. apply not_elem_of_app. split.
    + eapply idsWithin_fresh; [exact Ho|lia].
    + eapply idsWithin_fresh; [exact Hin|lia].
Qed.

Lemma visitField_without_children (k : string) (v : Field) paths d im pid
  n md o :
  let m := getFieldMeta (typedField v) im in
  within 0 n o ->
  hasChildFields m || hasMultiFields m = false ->
  normalizeField uuidv4 k v paths d im pid (MkWalk n md o)
  = (MkWalk (S n) md
       (o ++ [(uuidv4 n, entryOf uuidv4 k v paths d im pid n None)]),
     uuidv4 n).
Proof.
  intros m Ho Hhas.
  rewrite normalizeField_unfold. unfold visitField. cbn [fresh maxDepth to].
  fold m. rewrite Hhas. cbn [fresh maxDepth to].
  rewrite obj_set_fresh; [done|].
  eapply idsWithin_fresh; [exact Ho|lia].
Qed.

Lemma idsWithin_nil lo hi : within lo hi [].
Proof. constructor. Qed.

Lemma idsWithin_singleton lo hi n f :
  lo <= n < hi -> within lo hi [(uuidv4 n, f)].
Proof. intros Hn. constructor; [by exists n|constructor]. Qed.

Lemma field_appends (v : Field) : forall k, FieldAppends uuidv4 k v.
Proof.
  induction v as [v IH] using Field_children_ind.
  intros k paths d im pid n r.
  set (m := getFieldMeta (typedField v) im).
  destruct (hasChildFields m || hasMultiFields m) eqn:Hhas.
  - pose proof (entries_append _ (IH (childFieldsName m))) as Hkids.
    destruct (Hkids (paths ++ [k]) (nextDepthOf m d) (canHaveMultiFields m)
                (Some (uuidv4 n)) (S n)) as [(Hle & Hin) _].
    assert (Hr : r = _) by
      exact (visitField_with_children k v paths d im pid n 0 []
               Hkids (idsWithin_nil _ _) Hhas).
    rewrite Hr. cbn [fst snd fresh to]. split.
    + split_and!; [done|exact Hle|]. rewrite app_nil_l.
      apply idsWithin_app.
      * eapply idsWithin_mono; [| |exact Hin];
          [lia|apply Nat.le_refl].
      * apply idsWithin_singleton. split; [lia|exact Hle].
    + intros md o Ho.
      rewrite (visitField_with_children k v paths d im pid n md o
                 Hkids Ho Hhas).
      unfold rebase. cbn [fresh maxDepth to]. fold m.
      rewrite <- !Nat.max_assoc, Nat.max_0_l. reflexivity.
  - assert (Hr : r = _) by
      exact (visitField_without_children k v paths d im pid n 0 []
               (idsWithin_nil _ _) Hhas).
    rewrite Hr. cbn [fst snd fresh to]. split.
    + split_and!; [done|lia|]. apply idsWithin_singleton. lia.
    + intros md o Ho.
      rewrite (visitField_without_children k v paths d im pid n md o
                 Ho Hhas).
      unfold rebase. cbn [fresh maxDepth to]. by rewrite Nat.max_0_r.
Qed.

Lemma all_entries_append (entries : list (string * Field)) :
  EntriesAppend uuidv4 entries.
Proof.
  apply entries_append, Forall_forall. intros e _ k. apply field_appends.
Qed.

(** The equations of the runs from the empty accumulator. *)

Lemma fieldRun_eq (k : string) (v : Field) paths d im pid n :
  let m := getFieldMeta (typedField v) im in
  runField k v paths d im pid n
  = if hasChildFields m || hasMultiFields m then
      let rc :=
        runEntries
          (sortEntries (childrenOf (typedField v) (childFieldsName m)))
          (paths ++ [k]) (nextDepthOf m d) (canHaveMultiFields m)
          (Some (uuidv4 n)) (S n) in
      (MkWalk (fresh rc.1) (Nat.max (nextDepthOf m d) (maxDepth rc.1))
         (to rc.1
            ++ [(uuidv4 n,
                 entryOf uuidv4 k v paths d im pid n (Some rc.2))]),
       uuidv4 n)
    else
      (MkWalk (S n) 0 [(uuidv4 n, entryOf uuidv4 k v paths d im pid n None)],
       uuidv4 n).
Proof.
  intros m. unfold fieldRun, startAt.
  destruct (hasChildFields m || hasMultiFields m) eqn:Hhas.
  - rewrite (visitField_with_children k v paths d im pid n 0 []
               (all_entries_append _) (idsWithin_nil _ _) Hhas).
    by rewrite app_nil_l.
  - by rewrite (visitField_without_children k v paths d im pid n 0 []
                  (idsWithin_nil _ _) Hhas).
Qed.

Lemma entriesRun_nil paths d im pid n :
  runEntries [] paths d im pid n = (startAt n, []).
Proof. reflexivity. Qed.

Lemma entriesRun_cons (k : string) (v : Field) entries paths d im pid n :
  runEntries ((k, v) :: entries) paths d im pid n
  = let r1 := runField k v paths d im pid n in
    let r2 := runEntries entries paths d im pid (fresh r1.1) in
    (MkWalk (fresh r2.1) (Nat.max (maxDepth r1.1) (maxDepth r2.1))
       (to r1.1 ++ to r2.1),
     r1.2 :: r2.2).
Proof.
  cbv zeta. unfold entriesRun at 1. cbn [visitEntries].
  fold (startAt n). fold (runField k v paths d im pid n).
  destruct (field_appends v k paths d im pid n) as [(_ & _ & Hin) _].
  destruct (runField k v paths d im pid n) as [[n1 md1 o1] id].
  cbn [fst snd fresh maxDepth to] in *.
  destruct (all_entries_append entries paths d im pid n1) as [_ Hgen].
  rewrite (Hgen md1 o1) by (eapply idsWithin_mono; [| |exact Hin]; lia).
  reflexivity.
Qed.

Lemma normalize_eq (fieldsToNormalize : Fields) :
  let r := runEntries (sortEntries fieldsToNormalize) [] 0 false None 0 in
  normalize uuidv4 fieldsToNormalize
  = MkNormalizedFields (replaceAliasPathByAliasId (to r.1)).2
      (replaceAliasPathByAliasId (to r.1)).1 r.2 (maxDepth r.1).
Proof.
  intros r. unfold normalize. rewrite normalizeFields_unfold.
  fold (startAt 0). fold (runEntries (sortEntries fieldsToNormalize)
                            [] 0 false None 0). fold r.
  destruct r as [st ids]. cbn [fst snd].
  by destruct (replaceAliasPathByAliasId (to st)).
Qed.

End Appends.

(** ** The alias pass of [normalize] *)

Section AliasPass.

Lemma obj_set_middle {A} (o1 o2 : Obj A) (k : string) (v v' : A) :
  k ∉ Object_keys o1 ->
  obj_set (o1 ++ (k, v) :: o2) k v' = o1 ++ (k, v') :: o2.
Proof.
  induction o1 as [|[k1 v1] o1 IH]; cbn [obj_set app Object_keys map fst].
  - intros _. by rewrite decide_True.
  - intros [Hne Hk]%not_elem_of_cons.
    rewrite decide_False by done. by rewrite IH.
Qed.

Lemma resolveField_id byId f : nf_id (resolveField byId f) = nf_id f.
Proof. unfold resolveField. by destruct (aliasTargetId byId f). Qed.

Lemma resolveField_path byId f : nf_path (resolveField byId f) = nf_path f.
Proof. unfold resolveField. by destruct (aliasTargetId byId f). Qed.

Lemma resolveField_same byId f :
  exists p, resolveField byId f
            = set_source f (set_src_path (source f) p).
Proof.
  unfold resolveField. destruct (aliasTargetId byId f) as [t|].
  - by exists (Some t).
  - exists (src_path (source f)). by destruct f as [? ? ? ? ? [] ?].
Qed.

Lemma keys_resolve byId (o : ById) :
  Object_keys (map (resolveEntry byId) o) = Object_keys o.
Proof. unfold Object_keys. rewrite map_map. by apply map_ext. Qed.

Lemma find_resolved (field : NormalizedField) (byId seen rest : ById) :
  nf_id <$> find (isAliasTarget field)
              (Object_values (map (resolveEntry byId) seen ++ rest))
  = nf_id <$> find (isAliasTarget field) (Object_values (seen ++ rest)).
Proof.
  induction seen as [|[k f] seen IH]; [done|].
  cbn [map app Object_values find snd resolveEntry].
  unfold isAliasTarget at 1 3. rewrite resolveField_path.
  case_bool_decide; [|exact IH]. cbn. by rewrite resolveField_id.
Qed.

Lemma replaceAlias_fold (byId seen rest : ById) (al : Aliases) :
  byId = seen ++ rest -> NoDup (Object_keys byId) ->
  fold_left
    (fun (acc : Aliases * ById) (e : string * NormalizedField) =>
       let '(aliases, byId) := acc in
       let '(id, field) := e in
       if bool_decide (src_type (source field) = Some "alias") then
         match find (isAliasTarget field) (Object_values byId) with
         | Some aliasTargetField =>
             let field' :=
               set_source field
                 (set_src_path (source field)
                               (Some (nf_id aliasTargetField))) in
             let ids :=
               default [] (obj_get aliases (nf_id aliasTargetField)) in
             (obj_set aliases (nf_id aliasTargetField) (ids ++ [id]),
              obj_set byId id field')
         | None => (aliases, byId)
         end
       else (aliases, byId))
    rest (al, map (resolveEntry byId) seen ++ rest)
  = (fold_left
       (fun (aliases : Aliases) (e : string * NormalizedField) =>
          match aliasTargetId byId e.2 with
          | Some target => registerAlias aliases target e.1
          | None => aliases
          end)
       rest al,
     map (resolveEntry byId) byId).
Proof.
  revert seen al. induction rest as [|[id field] rest IH];
    intros seen al Hby Hnd.
  - cbn [fold_left]. rewrite Hby, !app_nil_r. reflexivity.
  - cbn [fold_left fst snd].
    pose proof (find_resolved field byId seen ((id, field) :: rest))
      as Hfind.
    rewrite <- Hby in Hfind.
    assert (Hfresh : id ∉ Object_keys (map (resolveEntry byId) seen)).
    { rewrite keys_resolve. rewrite Hby in Hnd. unfold Object_keys in Hnd.
      rewrite map_app in Hnd. apply NoDup_app in Hnd as (_ & Hdis & _).
      intros Hin. apply (Hdis id Hin). left. }
    assert (Hnext : forall f',
      f' = resolveField byId field ->
      map (resolveEntry byId) seen ++ (id, f') :: rest
      = map (resolveEntry byId) (seen ++ [(id, field)]) ++ rest).
    { intros f' ->. rewrite map_app. by rewrite <- app_assoc. }
    assert (Hby' : byId = (seen ++ [(id, field)]) ++ rest).
    { by rewrite <- app_assoc. }
    unfold aliasTargetId at 2. unfold resolveField, aliasTargetId in Hnext.
    destruct (bool_decide (src_type (source field) = Some "alias")).
    + destruct (find (isAliasTarget field)
                  (Object_values (map (resolveEntry byId) seen
                                  ++ (id, field) :: rest)))
        as [tgt|] eqn:Hcur;
      destruct (find (isAliasTarget field) (Object_values byId))
        as [tgt0|] eqn:Horig; cbn in Hfind; try discriminate Hfind.
      * injection Hfind as Hid. cbn [fmap option_fmap option_map].
        rewrite Hid, obj_set_middle by done.
        fold (setAliasPath (nf_id tgt0) field).
        rewrite (Hnext (setAliasPath (nf_id tgt0) field) eq_refl).
        by rewrite (IH _ _ Hby' Hnd).
      * cbn [fmap option_fmap option_map].
        rewrite (Hnext _ eq_refl). by rewrite (IH _ _ Hby' Hnd).
    + rewrite (Hnext _ eq_refl). by rewrite (IH _ _ Hby' Hnd).
Qed.

Lemma replaceAliasPathByAliasId_spec (byId : ById) :
  NoDup (Object_keys byId) ->
  replaceAliasPathByAliasId byId
  = (aliasesOf byId, map (resolveEntry byId) byId).
Proof.
  intros Hnd. unfold replaceAliasPathByAliasId, Object_entries.
  exact (replaceAlias_fold byId [] byId [] eq_refl Hnd).
Qed.

End AliasPass.

Section AliasesMap.

Lemma inAliases_register (al : Aliases) (t k t' k' : string) :
  inAliases (registerAlias al t k) t' k'
  <-> inAliases al t' k' \/ (t' = t /\ k' = k).
Proof.
  unfold inAliases, registerAlias.
  destruct (decide (t = t')) as [<-|Hne].
  - rewrite obj_get_set_eq. split.
    + intros (ids & [= <-] & Hin). apply elem_of_app in Hin as [Hin|Hin].
      * left. destruct (obj_get al t) as [old|]; [by exists old|].
        by apply elem_of_nil in Hin.
      * apply list_elem_of_singleton in Hin. by right.
    + intros [(ids & Hget & Hin)|[_ ->]]; eexists; (split; [done|]).
      * rewrite Hget. apply elem_of_app. by left.
      * apply elem_of_app. right. by apply list_elem_of_singleton.
  - rewrite obj_get_set_ne by done. split; [by left|].
    intros [H|[-> _]]; done.
Qed.

Lemma NoDup_keys_register (al : Aliases) (t k : string) :
  NoDup (Object_keys al) -> NoDup (Object_keys (registerAlias al t k)).
Proof. apply NoDup_keys_obj_set. Qed.

Lemma aliases_fold_spec (byId l : ById) (al : Aliases) (t k : string) :
  inAliases
    (fold_left
       (fun (aliases : Aliases) (e : string * NormalizedField) =>
          match aliasTargetId byId e.2 with
          | Some target => registerAlias aliases target e.1
          | None => aliases
          end) l al) t k
  <-> inAliases al t k
      \/ exists f, (k, f) ∈ l /\ aliasTargetId byId f = Some t.
Proof.
  revert al. induction l as [|[k0 f0] l IH]; intros al; cbn [fold_left].
  - split; [by left|]. intros [H|(f & Hin & _)]; [done|].
    by apply elem_of_nil in Hin.
  - rewrite IH. cbn [fst snd].
    destruct (aliasTargetId byId f0) as [t0|] eqn:Ht0.
    + rewrite inAliases_register. split.
      * intros [[H|[-> ->]]|(f & Hin & Hf)].
        -- by left.
        -- right. exists f0. split; [left|done].
        -- right. exists f. split; [by right|done].
      * intros [H|(f & Hin & Hf)]; [by left; left|].
        apply elem_of_cons in Hin as [[= -> ->]|Hin].
        -- left. right. split; congruence.
        -- right. by exists f.
    + split.
      * intros [H|(f & Hin & Hf)]; [by left|].
        right. exists f. split; [by right|done].
      * intros [H|(f & Hin & Hf)]; [by left|].
        apply elem_of_cons in Hin as [[= -> ->]|Hin]; [congruence|].
        right. by exists f.
Qed.

Lemma aliases_fold_NoDup (byId l : ById) (al : Aliases) :
  NoDup (Object_keys al) ->
  NoDup (Object_keys
    (fold_left
       (fun (aliases : Aliases) (e : string * NormalizedField) =>
          match aliasTargetId byId e.2 with
          | Some target => registerAlias aliases target e.1
          | None => aliases
          end) l al)).
Proof.
  revert al. induction l as [|[k0 f0] l IH]; intros al Hnd; [done|].
  cbn [fold_left]. apply IH. destruct (aliasTargetId byId _); [|done].
  by apply NoDup_keys_register.
Qed.

Lemma inAliases_aliasesOf (byId : ById) (t k : string) :
  inAliases (aliasesOf byId) t k
  <-> exists f, (k, f) ∈ byId /\ aliasTargetId byId f = Some t.
Proof.
  unfold aliasesOf. rewrite aliases_fold_spec. split; [|by right].
  intros [(ids & Hget & _)|H]; [discriminate Hget|done].
Qed.

Lemma NoDup_keys_aliasesOf (byId : ById) :
  NoDup (Object_keys (aliasesOf byId)).
Proof. apply aliases_fold_NoDup. constructor. Qed.

Lemma elem_inAliases (al : Aliases) (t k : string) (ids : list string) :
  NoDup (Object_keys al) -> (t, ids) ∈ al -> k ∈ ids -> inAliases al t k.
Proof. intros Hnd Hin Hk. exists ids. split; [by apply obj_get_elem|done]. Qed.

End AliasesMap.

(** ** What every walk keeps *)

Section StoreShape.

Variable uuidv4 : nat -> string.

Lemma walk_NoDup_keys (props : Fields) paths d im pid st :
  NoDup (Object_keys (to st)) ->
  NoDup (Object_keys (to (normalizeFields uuidv4 props paths d im pid st).1)).
Proof.
  apply (normalizeFields_invariant uuidv4
           (fun o => NoDup (Object_keys o))).
  intros. by apply NoDup_keys_obj_set.
Qed.

(** Every entry is stored under its own id. *)
Lemma walk_ids_consistent (props : Fields) paths d im pid st :
  Forall (fun e => nf_id e.2 = e.1) (to st) ->
  Forall (fun e => nf_id e.2 = e.1)
    (to (normalizeFields uuidv4 props paths d im pid st).1).
Proof.
  apply (normalizeFields_invariant uuidv4
           (fun o : ById => Forall (fun e => nf_id e.2 = e.1) o)).
  intros. by apply Forall_obj_set.
Qed.

End StoreShape.

(** ** normalize, in two passes *)

Section NormalizeParts.

Variable uuidv4 : nat -> string.

Lemma walked_NoDup (m : Fields) : NoDup (Object_keys (walked uuidv4 m)).
Proof. apply walk_NoDup_keys. constructor. Qed.

Lemma walked_ids_consistent (m : Fields) :
  Forall (fun e => nf_id e.2 = e.1) (walked uuidv4 m).
Proof. apply walk_ids_consistent. constructor. Qed.

Lemma normalize_byId (m : Fields) :
  byId (normalize uuidv4 m)
  = map (resolveEntry (walked uuidv4 m)) (walked uuidv4 m).
Proof.
  unfold normalize, walked.
  destruct (normalizeFields uuidv4 m [] 0 false None (MkWalk 0 0 []))
    as [st ids] eqn:Hw.
  pose proof (walked_NoDup m) as Hnd. unfold walked in Hnd.
  rewrite Hw in Hnd. cbn [fst] in *.
  by rewrite (replaceAliasPathByAliasId_spec _ Hnd).
Qed.

Lemma normalize_aliases (m : Fields) :
  aliases (normalize uuidv4 m) = aliasesOf (walked uuidv4 m).
Proof.
  unfold normalize, walked.
  destruct (normalizeFields uuidv4 m [] 0 false None (MkWalk 0 0 []))
    as [st ids] eqn:Hw.
  pose proof (walked_NoDup m) as Hnd. unfold walked in Hnd.
  rewrite Hw in Hnd. cbn [fst] in *.
  by rewrite (replaceAliasPathByAliasId_spec _ Hnd).
Qed.

Lemma normalize_rootLevelFields (m : Fields) :
  rootLevelFields (normalize uuidv4 m)
  = (normalizeFields uuidv4 m [] 0 false None (MkWalk 0 0 [])).2.
Proof.
  unfold normalize.
  destruct (normalizeFields uuidv4 m [] 0 false None (MkWalk 0 0 []))
    as [st ids].
  by destruct (replaceAliasPathByAliasId (to st)).
Qed.

Lemma normalize_maxNestedDepth (m : Fields) :
  maxNestedDepth (normalize uuidv4 m)
  = maxDepth (normalizeFields uuidv4 m [] 0 false None (MkWalk 0 0 [])).1.
Proof.
  unfold normalize.
  destruct (normalizeFields uuidv4 m [] 0 false None (MkWalk 0 0 []))
    as [st ids].
  by destruct (replaceAliasPathByAliasId (to st)).
Qed.

Lemma normalize_NoDup (m : Fields) :
  NoDup (Object_keys (byId (normalize uuidv4 m))).
Proof. rewrite normalize_byId, keys_resolve. apply walked_NoDup. Qed.

(** An entry of the result is an entry of the walk, up to the alias
    path of its source. *)
Lemma normalize_byId_elem (m : Fields) (id : string) (f : NormalizedField) :
  (id, f) ∈ byId (normalize uuidv4 m) ->
  exists f0, (id, f0) ∈ walked uuidv4 m
             /\ f = resolveField (walked uuidv4 m) f0.
Proof.
  rewrite normalize_byId. intros Hin.
  apply list_elem_of_fmap in Hin as ([id0 f0] & Heq & Hin0).
  unfold resolveEntry in Heq. cbn [fst snd] in Heq.
  injection Heq as -> ->. by exists f0.
Qed.

End NormalizeParts.

(** ** Multi-fields have no children *)

Lemma getFieldMeta_multi (field : Field) :
  let m := getFieldMeta field true in
  canHaveChildFields m = false /\ hasChildFields m = false /\
  canHaveMultiFields m = false /\ hasMultiFields m = false /\
  childFields m = None.
Proof. by cbn. Qed.

Lemma walked_multi_childless (uuidv4 : nat -> string) (m : Fields) :
  Forall (fun e : string * NormalizedField =>
            isMultiField e.2 = true ->
            childFields (meta e.2) = None /\
            canHaveChildFields (meta e.2) = false /\
            hasChildFields (meta e.2) = false /\
            canHaveMultiFields (meta e.2) = false /\
            hasMultiFields (meta e.2) = false)
         (walked uuidv4 m).
Proof.
  unfold walked.
  apply (normalizeFields_invariant uuidv4
           (fun o : ById => Forall (fun e : string * NormalizedField =>
              isMultiField e.2 = true ->
              childFields (meta e.2) = None /\
              canHaveChildFields (meta e.2) = false /\
              hasChildFields (meta e.2) = false /\
              canHaveMultiFields (meta e.2) = false /\
              hasMultiFields (meta e.2) = false) o)); [|constructor].
  intros o id pid d im path src field mt Ho Hm.
  apply Forall_obj_set; [done|]. cbn [snd isMultiField meta].
  intros ->. destruct Hm as [[-> _]|(ids & -> & Hhas)].
  - by cbn.
  - by cbn in Hhas.
Qed.

(** C10: [getFieldMeta] of a multi-field has the four capability flags
    false, and every field that [normalize] stores with [isMultiField]
    true has no [childFields] (and the four flags false): the walk does not
    descend below a multi-field. *)
Theorem multi_fields_are_leaves :
  (forall field,
      canHaveChildFields (getFieldMeta field true) = false /\
      hasChildFields (getFieldMeta field true) = false /\
      canHaveMultiFields (getFieldMeta field true) = false /\
      hasMultiFields (getFieldMeta field true) = false) /\
  (forall (uuidv4 : nat -> string) (m : Fields) id f,
      (id, f) ∈ byId (normalize uuidv4 m) ->
      isMultiField f = true ->
      childFields (meta f) = None /\
      canHaveChildFields (meta f) = false /\
      hasChildFields (meta f) = false /\
      canHaveMultiFields (meta f) = false /\
      hasMultiFields (meta f) = false).
Proof.
  split; [by cbn|].
  intros uuidv4 m id f Hin Hmulti.
  apply normalize_byId_elem in Hin as (f0 & Hin0 & ->).
  pose proof (walked_multi_childless uuidv4 m) as Hall.
  eapply Forall_forall in Hall; [|exact Hin0]. cbn [snd] in Hall.
  destruct (resolveField_same (walked uuidv4 m) f0) as [p Hp].
  rewrite Hp in Hmulti |- *. cbn [set_source isMultiField meta] in *.
  by apply Hall.
Qed.

Lemma multi_fields_are_leaves_witness :
  exists f,
    ("id-3", f) ∈ byId (normalize sampleUuid sampleNestedMulti) /\
    isMultiField f = true /\ src_name (source f) = "raw" /\
    childFields (meta f) = None.
Proof.
  eexists. split; [|split; [|split]].
  - vm_compute. left.
  - reflexivity.
  - reflexivity.
  - refine (proj1 (proj2 multi_fields_are_leaves sampleUuid sampleNestedMulti
                     "id-3" _ _ _)).
    + vm_compute. left.
    + reflexivity.
Defined.

(** ** Induction on the runs *)

Section RunInduction.

Variable uuidv4 : nat -> string.
Hypothesis uuidv4_inj : forall i j, uuidv4 i = uuidv4 j -> i = j.

Variable PF : string -> Field -> list string -> nat -> bool ->
              option string -> nat -> Walk * string -> Prop.
Variable PE : list (string * Field) -> list string -> nat -> bool ->
              option string -> nat -> Walk * list string -> Prop.

Hypothesis PF_leaf :
  forall k v paths d im pid n,
    hasChildFields (getFieldMeta (typedField v) im)
    || hasMultiFields (getFieldMeta (typedField v) im) = false ->
    PF k v paths d im pid n
      (MkWalk (S n) 0 [(uuidv4 n, entryOf uuidv4 k v paths d im pid n None)],
       uuidv4 n).

Hypothesis PF_node :
  forall k v paths d im pid n rc,
    let m := getFieldMeta (typedField v) im in
    let kids := sortEntries (childrenOf (typedField v) (childFieldsName m)) in
    hasChildFields m || hasMultiFields m = true ->
    rc = entriesRun uuidv4 kids (paths ++ [k]) (nextDepthOf m d)
           (canHaveMultiFields m) (Some (uuidv4 n)) (S n) ->
    PE kids (paths ++ [k]) (nextDepthOf m d) (canHaveMultiFields m)
       (Some (uuidv4 n)) (S n) rc ->
    PF k v paths d im pid n
      (MkWalk (fresh rc.1) (Nat.max (nextDepthOf m d) (maxDepth rc.1))
         (to rc.1
            ++ [(uuidv4 n, entryOf uuidv4 k v paths d im pid n (Some rc.2))]),
       uuidv4 n).

Hypothesis PE_nil :
  forall paths d im pid n, PE [] paths d im pid n (startAt n, []).

Hypothesis PE_cons :
  forall k v entries paths d im pid n r1 r2,
    r1 = fieldRun uuidv4 k v paths d im pid n ->
    r2 = entriesRun uuidv4 entries paths d im pid (fresh r1.1) ->
    PF k v paths d im pid n r1 ->
    PE entries paths d im pid (fresh r1.1) r2 ->
    PE ((k, v) :: entries) paths d im pid n
      (MkWalk (fresh r2.1) (Nat.max (maxDepth r1.1) (maxDepth r2.1))
         (to r1.1 ++ to r2.1),
       r1.2 :: r2.2).

Lemma entriesRun_ind_aux (entries : list (string * Field)) :
  Forall (fun e => forall k paths d im pid n,
              PF k e.2 paths d im pid n
                 (fieldRun uuidv4 k e.2 paths d im pid n)) entries ->
  forall paths d im pid n,
    PE entries paths d im pid n (entriesRun uuidv4 entries paths d im pid n).
Proof.
  induction 1 as [|[k v] entries Hv _ IH]; intros paths d im pid n.
  - apply PE_nil.
  - rewrite entriesRun_cons by done. cbv zeta.
    apply PE_cons; [done|done|apply Hv|apply IH].
Qed.

Lemma fieldRun_ind (v : Field) :
  forall k paths d im pid n,
    PF k v paths d im pid n (fieldRun uuidv4 k v paths d im pid n).
Proof.
  induction v as [v IH] using Field_children_ind.
  intros k paths d im pid n. rewrite fieldRun_eq by done. cbv zeta.
  destruct (hasChildFields (getFieldMeta (typedField v) im)
            || hasMultiFields (getFieldMeta (typedField v) im)) eqn:Hhas.
  - apply PF_node; [done|done|]. apply entriesRun_ind_aux, IH.
  - by apply PF_leaf.
Qed.

Lemma entriesRun_ind (entries : list (string * Field)) :
  forall paths d im pid n,
    PE entries paths d im pid n (entriesRun uuidv4 entries paths d im pid n).
Proof.
  apply entriesRun_ind_aux, Forall_forall. intros e _. apply fieldRun_ind.
Qed.

End RunInduction.

(** ** Nested depth *)

Lemma nextDepthOf_has (field : Field) (im : bool) (d : nat) :
  hasChildFields (getFieldMeta field im)
  || hasMultiFields (getFieldMeta field im) = true ->
  nextDepthOf (getFieldMeta field im) d = S d.
Proof.
  unfold nextDepthOf, getFieldMeta.
  cbn [hasChildFields hasMultiFields canHaveChildFields canHaveMultiFields].
  destruct im; [done|].
  destruct (bool_decide (getChildFieldsName (field_type field)
                         = Some Properties));
    destruct (bool_decide (getChildFieldsName (field_type field)
                           = Some FieldsKey)); done.
Qed.

Lemma depthLinked_app (pid : option string) (d : nat) (o1 o2 : ById) :
  depthLinked pid d o1 -> depthLinked pid d o2 -> depthLinked pid d (o1 ++ o2).
Proof.
  intros H1 H2. apply Forall_app. split.
  - eapply Forall_impl; [exact H1|]. intros e [He|(p & Hp & He)]; [by left|].
    right. exists p. split; [|done]. apply elem_of_app. by left.
  - eapply Forall_impl; [exact H2|]. intros e [He|(p & Hp & He)]; [by left|].
    right. exists p. split; [|done]. apply elem_of_app. by right.
Qed.

Lemma depthLinked_parent (pid : option string) (d : nat) (o : ById)
  (id : string) (f : NormalizedField) :
  parentId f = pid -> nestedDepth f = d ->
  depthLinked (Some id) (S d) o ->
  depthLinked pid d (o ++ [(id, f)]).
Proof.
  intros Hp Hd Ho. apply Forall_app. split.
  - eapply Forall_impl; [exact Ho|].
    intros e [[He1 He2]|(p & Hin & He)]; right.
    + exists (id, f). split; [apply elem_of_app; right; left|].
      cbn [fst snd]. by rewrite Hd.
    + exists p. split; [|done]. apply elem_of_app. by left.
  - constructor; [|constructor]. by left.
Qed.

Section NestedDepth.

Variable uuidv4 : nat -> string.
Hypothesis uuidv4_inj : forall i j, uuidv4 i = uuidv4 j -> i = j.

Lemma entriesRun_depthLinked (entries : list (string * Field)) :
  forall paths d im pid n,
    depthLinked pid d (to (entriesRun uuidv4 entries paths d im pid n).1).
Proof.
  apply (entriesRun_ind uuidv4 uuidv4_inj
           (fun _ _ _ d _ pid _ r => depthLinked pid d (to r.1))
           (fun _ _ d _ pid _ r => depthLinked pid d (to r.1))).
  - intros k v paths d im pid n _. cbn [fst to].
    constructor; [|constructor]. by left.
  - intros k v paths d im pid n rc m kids Hhas _ Hkids. cbn [fst to].
    apply depthLinked_parent; [done|done|].
    subst m. by rewrite nextDepthOf_has in Hkids.
  - intros. constructor.
  - intros k v es paths d im pid n r1 r2 _ _ H1 H2. cbn [fst to].
    by apply depthLinked_app.
Qed.

Lemma walked_eq (m : Fields) :
  walked uuidv4 m
  = to (entriesRun uuidv4 (sortEntries m) [] 0 false None 0).1.
Proof. unfold walked. by rewrite normalizeFields_unfold. Qed.

Lemma normalize_depths (m : Fields) id f :
  (id, f) ∈ byId (normalize uuidv4 m) ->
  match parentId f with
  | None => nestedDepth f = 0
  | Some pid =>
      exists p, obj_get (byId (normalize uuidv4 m)) pid = Some p
                /\ nestedDepth f = S (nestedDepth p)
  end.
Proof.
  intros Hin. apply normalize_byId_elem in Hin as (f0 & Hin0 & ->).
  pose proof (entriesRun_depthLinked (sortEntries m) [] 0 false None 0)
    as Hall.
  rewrite <- walked_eq in Hall.
  eapply Forall_forall in Hall; [|exact Hin0]. cbn [snd] in Hall.
  destruct (resolveField_same (walked uuidv4 m) f0) as [q ->].
  cbn [set_source parentId nestedDepth].
  destruct Hall as [[-> ->]|([pid p] & Hp & -> & ->)]; [done|].
  cbn [fst snd].
  exists (resolveField (walked uuidv4 m) p). split.
  - apply obj_get_elem; [apply normalize_NoDup|].
    rewrite normalize_byId. apply list_elem_of_fmap.
    by exists (pid, p).
  - destruct (resolveField_same (walked uuidv4 m) p) as [q' ->]. done.
Qed.

End NestedDepth.

(** ** Evaluating a run on a given tree *)

Section RunEval.

Variable uuidv4 : nat -> string.
Hypothesis uuidv4_inj : forall i j, uuidv4 i = uuidv4 j -> i = j.

Lemma fieldRun_leaf (k : string) (v : Field) paths d im pid n :
  hasChildFields (getFieldMeta (typedField v) im)
  || hasMultiFields (getFieldMeta (typedField v) im) = false ->
  fieldRun uuidv4 k v paths d im pid n
  = (MkWalk (S n) 0 [(uuidv4 n, entryOf uuidv4 k v paths d im pid n None)],
     uuidv4 n).
Proof. intros Hhas. rewrite fieldRun_eq by done. cbv zeta. by rewrite Hhas. Qed.

Lemma fieldRun_node (k : string) (v : Field) paths d im pid n
  (kids : list (string * Field)) (d' : nat) (im' : bool) :
  hasChildFields (getFieldMeta (typedField v) im)
  || hasMultiFields (getFieldMeta (typedField v) im) = true ->
  sortEntries (childrenOf (typedField v)
                 (childFieldsName (getFieldMeta (typedField v) im))) = kids ->
  nextDepthOf (getFieldMeta (typedField v) im) d = d' ->
  canHaveMultiFields (getFieldMeta (typedField v) im) = im' ->
  fieldRun uuidv4 k v paths d im pid n
  = let rc := entriesRun uuidv4 kids (paths ++ [k]) d' im'
                (Some (uuidv4 n)) (S n) in
    (MkWalk (fresh rc.1) (Nat.max d' (maxDepth rc.1))
       (to rc.1
          ++ [(uuidv4 n, entryOf uuidv4 k v paths d im pid n (Some rc.2))]),
     uuidv4 n).
Proof.
  intros Hhas <- <- <-. rewrite fieldRun_eq by done. cbv zeta.
  by rewrite Hhas.
Qed.

End RunEval.

Ltac eval_run inj :=
  repeat
    (first
       [ rewrite entriesRun_nil
       | rewrite (entriesRun_cons _ inj)
       | rewrite (fieldRun_leaf _ inj) by (vm_compute; reflexivity)
       | erewrite (fieldRun_node _ inj);
         [|vm_compute; reflexivity|vm_compute; reflexivity
          |vm_compute; reflexivity|vm_compute; reflexivity] ];
     cbv zeta; cbn [fst snd fresh maxDepth to app]).

Ltac eval_normalize inj :=
  rewrite normalize_eq; cbv zeta;
  match goal with
  | |- context [sortEntries ?m] =>
      let l := eval vm_compute in (sortEntries m) in
      change (sortEntries m) with l
  end;
  eval_run inj.

Lemma sampleUuid_inj (i j : nat) : sampleUuid i = sampleUuid j -> i = j.
Proof.
  unfold sampleUuid. intros H. apply (inj (String.append "id-")) in H.
  by apply (inj pretty) in H.
Qed.

(** C2, as stated, fails: the keyword sub-field [raw] of the text field
    [c] is a multi-field, [c] sits at depth 2, and [raw] gets depth 3. *)
Lemma multi_field_child_is_one_deeper :
  exists c raw,
    obj_get (byId (normalize sampleUuid sampleNestedMulti)) "id-2" = Some c /\
    obj_get (byId (normalize sampleUuid sampleNestedMulti)) "id-3" = Some raw /\
    nf_path c = ["a"; "b"; "c"] /\ nestedDepth c = 2 /\
    nf_path raw = ["a"; "b"; "c"; "raw"] /\ isMultiField raw = true /\
    parentId raw = Some (nf_id c) /\ nestedDepth raw = 3.
Proof. eexists _, _. by vm_compute. Qed.

(** C2 (amended): every child gets [nestedDepth] equal to its parent's
    plus one, in an object/nested container and in a multi-field container
    alike (root fields get 0); in the three-level example
    [maxNestedDepth] is 2 and [c] has depth 2, and a multi-field child
    under [c] has depth 3. *)
Theorem nestedDepth_is_parent_plus_one
  (uuidv4 : nat -> string)
  (uuidv4_inj : forall i j, uuidv4 i = uuidv4 j -> i = j) :
  (forall (m : Fields) id f,
      (id, f) ∈ byId (normalize uuidv4 m) ->
      match parentId f with
      | None => nestedDepth f = 0
      | Some pid =>
          exists p, obj_get (byId (normalize uuidv4 m)) pid = Some p
                    /\ nestedDepth f = S (nestedDepth p)
      end) /\
  (maxNestedDepth (normalize uuidv4 sampleNested) = 2 /\
   exists c, (uuidv4 2, c) ∈ byId (normalize uuidv4 sampleNested) /\
             nf_path c = ["a"; "b"; "c"] /\ nestedDepth c = 2) /\
  (maxNestedDepth (normalize uuidv4 sampleNestedMulti) = 3 /\
   exists c raw,
     (uuidv4 2, c) ∈ byId (normalize uuidv4 sampleNestedMulti) /\
     (uuidv4 3, raw) ∈ byId (normalize uuidv4 sampleNestedMulti) /\
     nf_path c = ["a"; "b"; "c"] /\ nestedDepth c = 2 /\
     isMultiField raw = true /\ parentId raw = Some (uuidv4 2) /\
     nestedDepth raw = 3).
Proof.
  split; [|split].
  - intros m id f. by apply normalize_depths.
  - eval_normalize uuidv4_inj. vm_compute. split; [done|].
    eexists. split; [left|]. done.
  - eval_normalize uuidv4_inj. vm_compute. split; [done|].
    eexists _, _. split; [right; left|]. split; [left|]. done.
Qed.

Lemma nestedDepth_is_parent_plus_one_witness :
  exists p,
    obj_get (byId (normalize sampleUuid sampleNestedMulti)) "id-2" = Some p /\
    3 = S (nestedDepth p).
Proof.
  pose proof (proj1 (nestedDepth_is_parent_plus_one sampleUuid sampleUuid_inj)
                sampleNestedMulti "id-3"
                (MkNormalizedField "id-3" (Some "id-2") 3 true
                   ["a"; "b"; "c"; "raw"]
                   (MkSource "raw" (Some "keyword") None [])
                   (MkMeta (Some FieldsKey) false false false false false
                      None))) as H.
  apply H. vm_compute. left.
Defined.

(** ** Unresolved aliases *)

Lemma aliasTargetId_no_match (byId : ById) (f : NormalizedField) :
  (forall g, g ∈ Object_values byId ->
             Some (joinPath (nf_path g)) <> src_path (source f)) ->
  aliasTargetId byId f = None.
Proof.
  intros Hno. unfold aliasTargetId. case_bool_decide; [|done].
  destruct (find (isAliasTarget f) (Object_values byId)) as [g|] eqn:Hfind;
    [|done].
  apply find_some in Hfind as [Hin Hg]. exfalso.
  apply (Hno g); [by apply list_elem_of_In|].
  unfold isAliasTarget in Hg. by apply bool_decide_eq_true in Hg.
Qed.

(** C4: [normalize] is a total function (its result type has no failure),
    and an alias field whose declared path is the joined path of no field
    is stored unchanged, [source.path] included, and is listed under no
    key of [aliases]; so it is for [{link: {type: alias, path:
    'missing'}}]. *)
Theorem unresolved_alias_is_left_alone
  (uuidv4 : nat -> string) (m : Fields) (id : string) (f : NormalizedField) :
  (id, f) ∈ walked uuidv4 m ->
  src_type (source f) = Some "alias" ->
  (forall g, g ∈ Object_values (walked uuidv4 m) ->
             Some (joinPath (nf_path g)) <> src_path (source f)) ->
  obj_get (byId (normalize uuidv4 m)) id = Some f /\
  (forall target ids,
      (target, ids) ∈ aliases (normalize uuidv4 m) -> id ∉ ids).
Proof.
  intros Hin Halias Hno.
  pose proof (aliasTargetId_no_match _ _ Hno) as Hnone. split.
  - apply obj_get_elem; [apply normalize_NoDup|].
    rewrite normalize_byId. apply list_elem_of_fmap. exists (id, f).
    split; [|done]. unfold resolveEntry, resolveField. cbn [fst snd].
    by rewrite Hnone.
  - intros target ids Hal Hid. rewrite normalize_aliases in Hal.
    pose proof (elem_inAliases _ _ _ _ (NoDup_keys_aliasesOf _) Hal Hid)
      as Hreg.
    apply inAliases_aliasesOf in Hreg as (f' & Hin' & Htarget).
    assert (f' = f) as ->.
    { pose proof (walked_NoDup uuidv4 m) as Hnd.
      apply (obj_get_elem _ _ _ Hnd) in Hin, Hin'. congruence. }
    congruence.
Qed.

Lemma unresolved_alias_is_left_alone_witness :
  exists link,
    obj_get (byId (normalize sampleUuid sampleUnresolved)) "id-0" = Some link /\
    src_name (source link) = "link" /\
    src_path (source link) = Some "missing" /\
    (forall target ids,
        (target, ids) ∈ aliases (normalize sampleUuid sampleUnresolved) ->
        "id-0" ∉ ids).
Proof.
  exists (MkNormalizedField "id-0" None 0 false ["link"]
            (MkSource "link" (Some "alias") (Some "missing") [])
            (MkMeta (Some FieldsKey) false false true false false None)).
  assert (Hin : ("id-0",
                 MkNormalizedField "id-0" None 0 false ["link"]
                   (MkSource "link" (Some "alias") (Some "missing") [])
                   (MkMeta (Some FieldsKey) false false true false false None))
                ∈ walked sampleUuid sampleUnresolved).
  { vm_compute. left. }
  destruct (unresolved_alias_is_left_alone sampleUuid sampleUnresolved
              "id-0" _ Hin eq_refl) as [Hget Hnot].
  - intros g Hg. vm_compute in Hg.
    apply list_elem_of_singleton in Hg as ->. vm_compute. discriminate.
  - split; [exact Hget|]. split; [reflexivity|]. split; [reflexivity|].
    exact Hnot.
Defined.

(** ** The alias pass of [deNormalize] *)

Section Restore.

Lemma obj_ext {A} (o1 o2 : Obj A) :
  Object_keys o1 = Object_keys o2 -> NoDup (Object_keys o1) ->
  (forall k, obj_get o1 k = obj_get o2 k) -> o1 = o2.
Proof.
  revert o2. induction o1 as [|[k1 v1] o1 IH]; intros [|[k2 v2] o2];
    cbn [Object_keys map fst]; try discriminate; [done|].
  intros [= <- Hkeys] [Hk Hnd]%NoDup_cons Hget.
  pose proof (Hget k1) as H1. cbn [obj_get] in H1.
  rewrite !decide_True in H1 by done. injection H1 as <-.
  f_equal. apply IH; [done|done|].
  intros k. specialize (Hget k). cbn [obj_get] in Hget.
  destruct (decide (k1 = k)) as [<-|Hne]; [|done].
  transitivity (@None A).
  - by apply obj_get_None.
  - symmetry. apply obj_get_None. unfold Object_keys. by rewrite <- Hkeys.
Qed.

Lemma obj_get_map {A B} (g : A -> B) (o : Obj A) (k : string) :
  obj_get (map (fun e => (e.1, g e.2)) o) k = g <$> obj_get o k.
Proof.
  induction o as [|[k' v] o IH]; cbn [map obj_get fst snd]; [done|].
  by case_decide.
Qed.

Lemma obj_get_is_Some {A} (o : Obj A) (k : string) :
  is_Some (obj_get o k) <-> k ∈ Object_keys o.
Proof.
  rewrite <- not_eq_None_Some, obj_get_None.
  split; [apply dec_stable|by intros ? ?].
Qed.

End Restore.

Section RestoreFacts.

Lemma setAliasPath_path p f : nf_path (setAliasPath p f) = nf_path f.
Proof. done. Qed.

Lemma setAliasPath_twice p q f :
  setAliasPath p (setAliasPath q f) = setAliasPath p f.
Proof. done. Qed.

Lemma setAliasPath_same p f :
  src_path (source f) = Some p -> setAliasPath p f = f.
Proof. destruct f as [? ? ? ? ? [] ?]. cbn. by intros ->. Qed.

Lemma restoreIds_cons (p : string) (id : string) (ids : list string)
  (o : ById) :
  restoreIds p (id :: ids) o
  = restoreIds p ids
      (match obj_get o id with
       | Some aliasField =>
           obj_set o id
             (set_source aliasField
                (set_src_path (source aliasField) (Some p)))
       | None => o
       end).
Proof. reflexivity. Qed.

Lemma restoreIds_get (p : string) (ids : list string) (o : ById) (k : string) :
  obj_get (restoreIds p ids o) k
  = if bool_decide (k ∈ ids) then setAliasPath p <$> obj_get o k
    else obj_get o k.
Proof.
  revert o. induction ids as [|id ids IH]; intros o.
  - cbn. by rewrite bool_decide_eq_false_2 by apply not_elem_of_nil.
  - rewrite restoreIds_cons, IH. clear IH.
    set (o' := match obj_get o id with Some _ => _ | None => _ end).
    assert (Hstep : obj_get o' k
      = if decide (id = k) then setAliasPath p <$> obj_get o k
        else obj_get o k).
    { subst o'. destruct (decide (id = k)) as [->|Hne].
      - destruct (obj_get o k) as [a|] eqn:Ha.
        + by rewrite obj_get_set_eq.
        + by rewrite Ha.
      - destruct (obj_get o id); [|done]. by rewrite obj_get_set_ne. }
    rewrite Hstep. destruct (decide (id = k)) as [->|Hne].
    + rewrite (bool_decide_eq_true_2 (k ∈ k :: ids)) by left.
      case_bool_decide; [|done]. by destruct (obj_get o k).
    + case_bool_decide as Hin.
      * rewrite bool_decide_eq_true_2; [done|by right].
      * rewrite bool_decide_eq_false_2; [done|].
        rewrite not_elem_of_cons. by split.
Qed.

Lemma restoreIds_keys (p : string) (ids : list string) (o : ById) :
  Object_keys (restoreIds p ids o) = Object_keys o.
Proof.
  revert o. induction ids as [|id ids IH]; intros o; [done|].
  rewrite restoreIds_cons, IH. destruct (obj_get o id) eqn:Hget; [|done].
  apply keys_obj_set_old. apply obj_get_is_Some. by rewrite Hget.
Qed.

Lemma restoreIds_targetPath (p : string) (ids : list string) (o : ById)
  (t : string) :
  targetPath (restoreIds p ids o) t = targetPath o t.
Proof.
  unfold targetPath. rewrite restoreIds_get.
  case_bool_decide; [|done]. by destruct (obj_get o t).
Qed.

Lemma restoredField_ext (al : Aliases) (o o' : ById) (k : string)
  (f : NormalizedField) :
  (forall t, targetPath o' t = targetPath o t) ->
  restoredField al o' k f = restoredField al o k f.
Proof.
  intros Heq. unfold restoredField. revert f.
  induction al as [|[t ids] al IH]; intros f; [done|].
  cbn [fold_left fst snd]. by rewrite Heq, IH.
Qed.

Lemma restoredField_cons (t : string) (ids : list string) (al : Aliases)
  (o : ById) (k : string) (f : NormalizedField) :
  restoredField ((t, ids) :: al) o k f
  = restoredField al o k
      (if bool_decide (k ∈ ids) then setAliasPath (targetPath o t) f else f).
Proof. reflexivity. Qed.

Lemma replaceAliasIdByAliasPath_cons (t : string) (ids : list string)
  (al : Aliases) (o : ById) :
  replaceAliasIdByAliasPath ((t, ids) :: al) o
  = replaceAliasIdByAliasPath al (restoreIds (targetPath o t) ids o).
Proof. reflexivity. Qed.

Lemma replaceAliasIdByAliasPath_get (al : Aliases) (o : ById) (k : string) :
  obj_get (replaceAliasIdByAliasPath al o) k
  = restoredField al o k <$> obj_get o k.
Proof.
  revert o. induction al as [|[t ids] al IH]; intros o.
  - cbn. by destruct (obj_get o k).
  - rewrite replaceAliasIdByAliasPath_cons, IH, restoreIds_get.
    destruct (obj_get o k) as [f|]; [|by case_bool_decide].
    cbn [fmap option_fmap option_map]. rewrite restoredField_cons.
    case_bool_decide; cbn [fmap option_fmap option_map]; f_equal;
      apply restoredField_ext; intros; apply restoreIds_targetPath.
Qed.

Lemma replaceAliasIdByAliasPath_keys (al : Aliases) (o : ById) :
  Object_keys (replaceAliasIdByAliasPath al o) = Object_keys o.
Proof.
  revert o. induction al as [|[t ids] al IH]; intros o; [done|].
  by rewrite replaceAliasIdByAliasPath_cons, IH, restoreIds_keys.
Qed.

End RestoreFacts.

Section RestoreResolved.

Variable byId0 : ById.
Hypothesis byId0_NoDup : NoDup (Object_keys byId0).
Hypothesis byId0_ids : Forall (fun e => nf_id e.2 = e.1) byId0.

Lemma obj_get_resolved (k : string) :
  obj_get (map (resolveEntry byId0) byId0) k
  = resolveField byId0 <$> obj_get byId0 k.
Proof. exact (obj_get_map (resolveField byId0) byId0 k). Qed.

Lemma targetPath_resolved (f : NormalizedField) (t : string) :
  aliasTargetId byId0 f = Some t ->
  src_path (source f)
  = Some (targetPath (map (resolveEntry byId0) byId0) t).
Proof.
  unfold aliasTargetId. case_bool_decide; [|done].
  destruct (find (isAliasTarget f) (Object_values byId0)) as [tgt|] eqn:Hfind;
    [|done].
  intros [= <-]. apply find_some in Hfind as [Hin Htgt].
  unfold isAliasTarget in Htgt. apply bool_decide_eq_true in Htgt.
  apply list_elem_of_In, list_elem_of_fmap in Hin as ([k' tgt'] & Heq & Hin).
  cbn [snd] in Heq. subst tgt'.
  pose proof Hin as Hid. eapply Forall_forall in Hid; [|exact byId0_ids].
  cbn [fst snd] in Hid. subst k'.
  unfold targetPath. rewrite obj_get_resolved.
  rewrite (obj_get_elem _ _ _ byId0_NoDup Hin).
  cbn [fmap option_fmap option_map]. rewrite resolveField_path.
  by rewrite <- Htgt.
Qed.

Lemma restoredField_resolved (al : Aliases) (k : string)
  (f g : NormalizedField) :
  (forall t ids, (t, ids) ∈ al -> k ∈ ids -> aliasTargetId byId0 f = Some t) ->
  g = resolveField byId0 f \/ g = f ->
  let r := restoredField al (map (resolveEntry byId0) byId0) k g in
  (r = resolveField byId0 f \/ r = f) /\
  (g = f -> r = f) /\
  ((exists t ids, (t, ids) ∈ al /\ k ∈ ids) -> r = f).
Proof.
  revert g. induction al as [|[t ids] al IH]; intros g Hal Hg r.
  - subst r. cbn. split; [done|]. split; [done|].
    intros (t & ids & Hin & _). by apply elem_of_nil in Hin.
  - subst r. rewrite restoredField_cons.
    assert (Hal' : forall t' ids', (t', ids') ∈ al -> k ∈ ids' ->
                                   aliasTargetId byId0 f = Some t').
    { intros t' ids' Hin. apply Hal. by right. }
    case_bool_decide as Hk.
    + assert (Hf : setAliasPath
                     (targetPath (map (resolveEntry byId0) byId0) t) g = f).
      { pose proof (Hal t ids ltac:(left) Hk) as Ht.
        pose proof (targetPath_resolved f t Ht) as Hp.
        destruct Hg as [->| ->].
        - unfold resolveField. rewrite Ht, setAliasPath_twice.
          by apply setAliasPath_same.
        - by apply setAliasPath_same. }
      rewrite Hf.
      destruct (IH f Hal' (or_intror eq_refl)) as (_ & Hsame & _).
      specialize (Hsame eq_refl). split; [by right|]. split; done.
    + destruct (IH g Hal' Hg) as (H1 & H2 & H3).
      split; [done|]. split; [done|].
      intros (t' & ids' & Hin & Hk'). apply H3.
      apply elem_of_cons in Hin as [[= -> ->]|Hin]; [done|].
      by exists t', ids'.
Qed.

Lemma restore_after_resolve :
  replaceAliasIdByAliasPath (aliasesOf byId0) (map (resolveEntry byId0) byId0)
  = byId0.
Proof.
  apply obj_ext.
  - by rewrite replaceAliasIdByAliasPath_keys, keys_resolve.
  - by rewrite replaceAliasIdByAliasPath_keys, keys_resolve.
  - intros k. rewrite replaceAliasIdByAliasPath_get, obj_get_resolved.
    destruct (obj_get byId0 k) as [f|] eqn:Hget; [|done].
    cbn [fmap option_fmap option_map]. f_equal.
    apply obj_get_Some_elem in Hget as Hin.
    assert (Hal : forall t ids, (t, ids) ∈ aliasesOf byId0 -> k ∈ ids ->
                                aliasTargetId byId0 f = Some t).
    { intros t ids Ht Hk.
      pose proof (elem_inAliases _ _ _ _ (NoDup_keys_aliasesOf _) Ht Hk)
        as Hreg.
      apply inAliases_aliasesOf in Hreg as (f' & Hin' & Htarget).
      apply (obj_get_elem _ _ _ byId0_NoDup) in Hin'. congruence. }
    destruct (restoredField_resolved (aliasesOf byId0) k f
                (resolveField byId0 f) Hal (or_introl eq_refl))
      as (_ & Hsame & Hhit).
    destruct (aliasTargetId byId0 f) as [t|] eqn:Ht.
    + apply Hhit.
      assert (Hreg : inAliases (aliasesOf byId0) t k).
      { apply inAliases_aliasesOf. by exists f. }
      destruct Hreg as (ids & Hids & Hk). exists t, ids.
      split; [by apply obj_get_Some_elem|done].
    + apply Hsame. unfold resolveField. by rewrite Ht.
Qed.

End RestoreResolved.

(** ** Canonical trees *)

Section TreeFacts.

Lemma all_canonical_Forall (b : bool) (l : list (string * Field)) :
  (fix go (l : list (string * Field)) : Prop :=
     match l with
     | [] => True
     | (_, x) :: l' => canonical b x /\ go l'
     end) l
  <-> Forall (fun e => canonical b e.2) l.
Proof.
  induction l as [|[k x] l IH]; [by split; [constructor|]|].
  rewrite Forall_cons, <- IH. done.
Qed.

Lemma all_uniqueNames_Forall (l : list (string * Field)) :
  (fix go (l : list (string * Field)) : Prop :=
     match l with
     | [] => True
     | (_, x) :: l' => uniqueNames x /\ go l'
     end) l
  <-> Forall (fun e => uniqueNames e.2) l.
Proof.
  induction l as [|[k x] l IH]; [by split; [constructor|]|].
  rewrite Forall_cons, <- IH. done.
Qed.

Lemma max_heights_le (l : list (string * Field)) (n : nat) :
  fold_right Nat.max 0 (map (fun '(_, x) => fieldHeight x) l) <= n
  <-> Forall (fun e => fieldHeight e.2 <= n) l.
Proof.
  induction l as [|[k x] l IH]; cbn [map fold_right].
  - split; [constructor|lia].
  - rewrite Forall_cons, <- IH. cbn [snd]. lia.
Qed.

Lemma canonical_typedField (im : bool) (v : Field) :
  canonical im v -> typedField v = v.
Proof.
  destruct v as [[t|] p [ps|] fs ot]; try done.
  intros [[Hhas _] _]. by destruct im.
Qed.

Lemma canonical_leaf (im : bool) (v : Field) (k : string) :
  canonical im v ->
  hasChildFields (getFieldMeta v im) || hasMultiFields (getFieldMeta v im)
  = false ->
  sortField v = fieldOfSource (sourceOf k v).
Proof.
  destruct v as [t p ps fs ot]. intros [Hps Hfs] Hhas.
  apply orb_false_iff in Hhas as [H1 H2].
  destruct ps as [l|]; [destruct Hps; congruence|].
  destruct fs as [l|]; [destruct Hfs; congruence|]. done.
Qed.

Lemma canonical_node (im : bool) (v : Field) (k : string) :
  canonical im v -> uniqueNames v ->
  hasChildFields (getFieldMeta v im) || hasMultiFields (getFieldMeta v im)
  = true ->
  let m := getFieldMeta v im in
  let l := childrenOf v (childFieldsName m) in
  sortField v
  = set_container (fieldOfSource (sourceOf k v)) (childFieldsName m)
      (sortFields l) /\
  NoDup (Object_keys l) /\
  Forall (fun e => uniqueNames e.2 /\ canonical (canHaveMultiFields m) e.2) l /\
  forall fuel, fieldHeight v <= fuel ->
    exists fuel', fuel = S fuel' /\ Forall (fun e => fieldHeight e.2 <= fuel') l.
Proof.
  destruct v as [t p ps fs ot]. intros [Hps Hfs] [Ups Ufs] Hhas m l.
  destruct im; [done|].
  subst m l. unfold getFieldMeta in *.
  cbn [hasChildFields hasMultiFields canHaveMultiFields childFieldsName
       field_type] in *.
  destruct (getChildFieldsName t) as [[]|] eqn:Hc;
    cbn [field_container field_properties field_fields] in *.
  - change (bool_decide (Some Properties = Some Properties)) with true in *.
    change (bool_decide (Some Properties = Some FieldsKey)) with false in *.
    cbn [andb orb] in *. rewrite orb_false_r in Hhas.
    destruct fs as [l'|]; [by destruct Hfs|].
    destruct ps as [l|]; [|done]. destruct Hps as [_ Hps], Ups as [Hnd Ups].
    apply all_canonical_Forall in Hps. apply all_uniqueNames_Forall in Ups.
    cbn [childrenOf field_properties default from_option id].
    split; [reflexivity|]. split; [exact Hnd|]. split.
    + apply Forall_and. by split.
    + intros fuel Hfuel. cbn [fieldHeight] in Hfuel.
      destruct fuel as [|fuel']; [lia|]. exists fuel'. split; [done|].
      apply max_heights_le. lia.
  - change (bool_decide (Some FieldsKey = Some FieldsKey)) with true in *.
    change (bool_decide (Some FieldsKey = Some Properties)) with false in *.
    cbn [andb orb] in *.
    destruct ps as [l'|]; [by destruct Hps|].
    destruct fs as [l|]; [|done]. destruct Hfs as [_ Hfs], Ufs as [Hnd Ufs].
    apply all_canonical_Forall in Hfs. apply all_uniqueNames_Forall in Ufs.
    cbn [childrenOf field_fields default from_option id].
    split; [reflexivity|]. split; [exact Hnd|]. split.
    + apply Forall_and. by split.
    + intros fuel Hfuel. cbn [fieldHeight] in Hfuel.
      destruct fuel as [|fuel']; [lia|]. exists fuel'. split; [done|].
      apply max_heights_le. lia.
  - done.
Qed.

End TreeFacts.

(** ** deNormalizePaths, one id at a time *)

Section DeNormalizeFacts.

Lemma bindF_fold_stuck {A B} (F : option (Result A) -> B -> option (Result A))
  (l : list B) (r : option (Result A)) :
  (forall b e, F (Some (Throw e)) b = Some (Throw e)) ->
  (forall b, F None b = None) ->
  fold_left F l r = bindF r (fun a => fold_left F l (Some (Ok a))).
Proof.
  intros Hthrow Hnone. destruct r as [[a|e]|]; cbn [bindF]; [done| |].
  - induction l as [|b l IH]; [done|]. cbn [fold_left]. by rewrite Hthrow.
  - induction l as [|b l IH]; [done|]. cbn [fold_left]. by rewrite Hnone.
Qed.

Lemma deNormalizePaths_nil (fuel : nat) (byId : ById) (acc : Fields) :
  deNormalizePaths (S fuel) byId [] acc = Some (Ok acc).
Proof. reflexivity. Qed.

Lemma deNormalizePaths_cons (fuel : nat) (byId : ById) (id : string)
  (ids : list string) (acc : Fields) :
  deNormalizePaths (S fuel) byId (id :: ids) acc
  = bindF (deNormalizePaths (S fuel) byId [id] acc)
      (fun a => deNormalizePaths (S fuel) byId ids a).
Proof.
  cbn [deNormalizePaths fold_left]. by apply bindF_fold_stuck.
Qed.

Lemma deNormalizePaths_one (fuel : nat) (byId : ById) (id : string)
  (acc : Fields) (nf : NormalizedField) :
  obj_get byId id = Some nf ->
  deNormalizePaths (S fuel) byId [id] acc
  = match childFields (meta nf) with
    | Some children =>
        bindF (deNormalizePaths fuel byId children [])
          (fun sub =>
             Some (Ok (obj_set acc (src_name (source nf))
                         (set_container (fieldOfSource (source nf))
                            (childFieldsName (meta nf)) sub))))
    | None =>
        Some (Ok (obj_set acc (src_name (source nf))
                    (fieldOfSource (source nf))))
    end.
Proof. intros Hget. cbn [deNormalizePaths fold_left bindF]. by rewrite Hget. Qed.

Lemma fold_obj_set_new {A B} (g : A -> B) (l : Obj A) (acc : Obj B) :
  NoDup (Object_keys acc ++ Object_keys l) ->
  fold_left (fun a e => obj_set a e.1 (g e.2)) l acc
  = acc ++ map (fun e => (e.1, g e.2)) l.
Proof.
  revert acc. induction l as [|[k v] l IH]; intros acc Hnd.
  - by rewrite app_nil_r.
  - cbn [fold_left map fst snd]. cbn [Object_keys map fst] in Hnd.
    rewrite obj_set_fresh.
    + rewrite IH; [by rewrite <- app_assoc|].
      unfold Object_keys at 1. rewrite map_app, <- app_assoc. exact Hnd.
    + apply NoDup_app in Hnd as (_ & Hdis & _). intros Hin.
      apply (Hdis k Hin). left.
Qed.

End DeNormalizeFacts.

(** ** The round trip on canonical trees *)

Section RoundTrip.

Variable uuidv4 : nat -> string.
Hypothesis uuidv4_inj : forall i j, uuidv4 i = uuidv4 j -> i = j.

Lemma sortEntries_keys_NoDup {A} (l : list (string * A)) :
  NoDup (Object_keys l) -> NoDup (Object_keys (sortEntries l)).
Proof.
  intros Hnd. unfold Object_keys. by rewrite sortEntries_Permutation.
Qed.

Lemma sorted_children_rebuilt (l : list (string * Field)) :
  NoDup (Object_keys l) ->
  fold_left (fun a e => obj_set a e.1 (sortField e.2)) (sortEntries l) []
  = sortFields l.
Proof.
  intros Hnd. rewrite fold_obj_set_new
    by (rewrite app_nil_l; by apply sortEntries_keys_NoDup).
  rewrite app_nil_l. unfold sortFields.
  rewrite (sortEntries_map (fun _ x => sortField x)).
  apply map_ext. by intros [k x].
Qed.

Lemma entriesRun_roundtrip (entries : list (string * Field)) :
  forall paths d im pid n,
    Forall (fun e => uniqueNames e.2 /\ canonical im e.2) entries ->
    forall (S : ById) fuel acc,
      (forall e, e ∈ to (entriesRun uuidv4 entries paths d im pid n).1 ->
                 obj_get S e.1 = Some e.2) ->
      Forall (fun e => fieldHeight e.2 <= fuel) entries ->
      deNormalizePaths (Datatypes.S fuel) S
        (entriesRun uuidv4 entries paths d im pid n).2 acc
      = Some (Ok (fold_left (fun a e => obj_set a e.1 (sortField e.2))
                    entries acc)).
Proof.
  apply (entriesRun_ind uuidv4 uuidv4_inj
    (fun k v paths d im pid n r =>
       uniqueNames v -> canonical im v ->
       forall (S : ById) fuel acc,
         (forall e, e ∈ to r.1 -> obj_get S e.1 = Some e.2) ->
         fieldHeight v <= fuel ->
         deNormalizePaths (Datatypes.S fuel) S [r.2] acc
         = Some (Ok (obj_set acc k (sortField v))))
    (fun es paths d im pid n r =>
       Forall (fun e => uniqueNames e.2 /\ canonical im e.2) es ->
       forall (S : ById) fuel acc,
         (forall e, e ∈ to r.1 -> obj_get S e.1 = Some e.2) ->
         Forall (fun e => fieldHeight e.2 <= fuel) es ->
         deNormalizePaths (Datatypes.S fuel) S r.2 acc
         = Some (Ok (fold_left (fun a e => obj_set a e.1 (sortField e.2))
                       es acc)))).
  - (* a field without children *)
    intros k v paths d im pid n Hhas Hu Hc S fuel acc HS _.
    cbn [fst snd to] in *.
    rewrite (canonical_typedField im v Hc) in Hhas.
    rewrite (deNormalizePaths_one fuel S (uuidv4 n) acc
               (entryOf uuidv4 k v paths d im pid n None))
      by (apply (HS (_, _)); left).
    unfold entryOf. cbn [meta source].
    rewrite (canonical_typedField im v Hc).
    assert (childFields (getFieldMeta v im) = None) as -> by done.
    cbn [sourceOf src_name]. by rewrite (canonical_leaf im v k Hc Hhas).
  - (* a field with children *)
    intros k v paths d im pid n rc m kids Hhas Hrc Hkids Hu Hc S fuel acc HS
      Hfuel.
    cbn [fst snd to] in *. subst m kids.
    rewrite (canonical_typedField im v Hc) in *.
    destruct (canonical_node im v k Hc Hu Hhas) as (Hsort & Hnd & Hall & Hh).
    destruct (Hh fuel Hfuel) as (fuel' & -> & Hheights).
    rewrite (deNormalizePaths_one (Datatypes.S fuel') S (uuidv4 n) acc
               (entryOf uuidv4 k v paths d im pid n (Some rc.2)))
      by (apply (HS (_, _)), elem_of_app; right; left).
    unfold entryOf. cbn [meta source set_childFields childFields
                         childFieldsName].
    rewrite (canonical_typedField im v Hc).
    rewrite (Hkids (sortEntries_Forall _ _ Hall) S fuel' []).
    + cbn [bindF sourceOf src_name]. rewrite sorted_children_rebuilt by done.
      by rewrite Hsort.
    + intros e He. apply HS, elem_of_app. by left.
    + by apply sortEntries_Forall.
  - intros paths d im pid n _ S fuel acc _ _. reflexivity.
  - intros k v es paths d im pid n r1 r2 _ _ H1 H2 Hall S fuel acc HS Hfuel.
    cbn [fst snd to] in *.
    apply Forall_cons in Hall as [[Hu Hc] Hall].
    apply Forall_cons in Hfuel as [Hv Hfuel]. cbn [snd] in *.
    rewrite deNormalizePaths_cons.
    rewrite (H1 Hu Hc S fuel acc) by
      (first [done | intros e He; apply HS, elem_of_app; by left]).
    cbn [bindF fold_left fst snd].
    apply (H2 Hall S fuel); [|done].
    intros e He. apply HS, elem_of_app. by right.
Qed.

Lemma roundtrip_canonical (m : Fields) (fuel : nat) :
  uniqueNamesFields m -> canonicalFields m -> fieldsHeight m <= fuel ->
  deNormalize fuel (normalize uuidv4 m) = Some (Ok (sortFields m)).
Proof.
  intros [Hnd Hu] Hc Hfuel. unfold deNormalize.
  rewrite normalize_byId, normalize_aliases, normalize_rootLevelFields.
  rewrite restore_after_resolve
    by (first [apply walked_NoDup | apply walked_ids_consistent]).
  rewrite normalizeFields_unfold.
  fold (startAt 0).
  fold (entriesRun uuidv4 (sortEntries m) [] 0 false None 0).
  unfold fieldsHeight in Hfuel. destruct fuel as [|fuel]; [lia|].
  rewrite (entriesRun_roundtrip (sortEntries m) [] 0 false None 0).
  - by rewrite sorted_children_rebuilt.
  - apply sortEntries_Forall, Forall_and. by split.
  - intros [k f] He. apply obj_get_elem; [apply walked_NoDup|].
    by rewrite walked_eq.
  - apply sortEntries_Forall, max_heights_le. lia.
Qed.

End RoundTrip.

(** ** Sorting keeps the tree *)

Section SameTree.

Lemma sameContainer_Forall (l1 l2 : list (string * Field)) :
  (fix go (l : list (string * Field)) : Prop :=
     match l with
     | [] => True
     | (k, x) :: l' => (exists y, (k, y) ∈ l2 /\ sameField x y) /\ go l'
     end) l1
  <-> Forall (fun e => exists y, (e.1, y) ∈ l2 /\ sameField e.2 y) l1.
Proof.
  induction l1 as [|[k x] l1 IH]; [by split; [constructor|]|].
  rewrite Forall_cons, <- IH. done.
Qed.

Lemma sameFields_sorted_aux (l : list (string * Field)) :
  Forall (fun e => sameField e.2 (sortField e.2)) l ->
  sameFields l (sortFields l).
Proof.
  intros Hall. split.
  - unfold sortFields.
    by rewrite sortEntries_Permutation, length_map.
  - apply Forall_forall. intros [k x] Hin. cbn [fst snd].
    exists (sortField x). split.
    + unfold sortFields. rewrite sortEntries_Permutation.
      apply list_elem_of_fmap. by exists (k, x).
    + eapply Forall_forall in Hall; [|exact Hin]. done.
Qed.

Lemma sameField_sorted (v : Field) : sameField v (sortField v).
Proof.
  induction v as [t p ps fs ot IHps IHfs] using Field_tree_ind.
  cbn [sameField sortField]. split_and!; try done.
  - destruct ps as [l|]; [|done].
    destruct (sameFields_sorted_aux l (IHps l eq_refl)) as [Hlen Hall].
    split; [exact Hlen|]. by apply sameContainer_Forall.
  - destruct fs as [l|]; [|done].
    destruct (sameFields_sorted_aux l (IHfs l eq_refl)) as [Hlen Hall].
    split; [exact Hlen|]. by apply sameContainer_Forall.
Qed.

Lemma sameFields_sorted (m : Fields) : sameFields m (sortFields m).
Proof.
  apply sameFields_sorted_aux, Forall_forall. intros e _.
  apply sameField_sorted.
Qed.

End SameTree.

Lemma sampleAlias_canonical :
  uniqueNamesFields sampleAlias /\ canonicalFields sampleAlias.
Proof.
  split; [split|].
  - cbn. apply NoDup_cons. split; [|apply NoDup_singleton].
    intros H%list_elem_of_singleton. discriminate H.
  - by repeat constructor.
  - by repeat constructor.
Qed.

(** C1, as stated, fails: an object whose [type] is left out gets
    [type: 'object'] from [normalize], and keeps it on the way back. *)
Lemma roundtrip_adds_inferred_type :
  uniqueNamesFields sampleUntyped /\
  deNormalize 2 (normalize sampleUuid sampleUntyped)
  = Some (Ok [("a", object [("b", leaf "text")])]) /\
  [("a", object [("b", leaf "text")])] <> sampleUntyped /\
  ~ sameFields sampleUntyped [("a", object [("b", leaf "text")])].
Proof.
  split; [|split; [|split]].
  - split; [apply NoDup_singleton|].
    constructor; [|constructor]. cbn. split_and!; try done.
    apply NoDup_singleton.
  - by vm_compute.
  - discriminate.
  - intros [_ Hall]. apply Forall_cons in Hall as [(y & Hin & Hy) _].
    apply list_elem_of_singleton in Hin. injection Hin as Hy'. subst y.
    destruct Hy as [Ht _]. discriminate Ht.
Qed.

(** C1 (amended): for every mapping tree with unique sibling names in
    which every child container is one that [getFieldMeta] reports
    (non-empty, under the key that the declared type supports, not on a
    multi-field), [deNormalize (normalize m)] returns, given fuel for the
    height of the tree, the tree [m] with the sibling keys of every level
    in lexicographic order, which is equal to [m] as a tree of key-value
    maps. *)
Theorem roundtrip_modulo_key_order
  (uuidv4 : nat -> string)
  (uuidv4_inj : forall i j, uuidv4 i = uuidv4 j -> i = j)
  (m : Fields) (fuel : nat) :
  uniqueNamesFields m -> canonicalFields m -> fieldsHeight m <= fuel ->
  deNormalize fuel (normalize uuidv4 m) = Some (Ok (sortFields m)) /\
  sameFields m (sortFields m).
Proof.
  intros Hu Hc Hfuel. split.
  - by apply roundtrip_canonical.
  - apply sameFields_sorted.
Qed.

Lemma roundtrip_modulo_key_order_witness :
  deNormalize 1 (normalize sampleUuid sampleAlias)
  = Some (Ok [("link", alias "target"); ("target", leaf "keyword")]).
Proof.
  destruct sampleAlias_canonical as [Hu Hc].
  exact (proj1 (roundtrip_modulo_key_order sampleUuid sampleUuid_inj
                  sampleAlias 1 Hu Hc (le_n 1))).
Defined.

(** An empty container is dropped as well. *)
Lemma roundtrip_drops_empty_container :
  deNormalize 1 (normalize sampleUuid sampleEmptyObject)
  = Some (Ok [("a", leaf "object")]).
Proof. by vm_compute. Qed.

(** ** Alias resolution on the two-field example *)

Lemma normalize_sampleAlias
  (uuidv4 : nat -> string)
  (uuidv4_inj : forall i j, uuidv4 i = uuidv4 j -> i = j) :
  normalize uuidv4 sampleAlias
  = MkNormalizedFields
      [(uuidv4 0,
        MkNormalizedField (uuidv4 0) None 0 false ["link"]
          (MkSource "link" (Some "alias") (Some (uuidv4 1)) [])
          (MkMeta (Some FieldsKey) false false true false false None));
       (uuidv4 1,
        MkNormalizedField (uuidv4 1) None 0 false ["target"]
          (MkSource "target" (Some "keyword") None [])
          (MkMeta (Some FieldsKey) false false true false false None))]
      [(uuidv4 1, [uuidv4 0])]
      [uuidv4 0; uuidv4 1]
      0.
Proof.
  eval_normalize uuidv4_inj.
  rewrite replaceAliasPathByAliasId_spec.
  - by vm_compute.
  - cbn. apply NoDup_cons. split; [|apply NoDup_singleton].
    intros H%list_elem_of_singleton. apply uuidv4_inj in H. discriminate H.
Qed.

(** C3: on [{target: {type: keyword}, link: {type: alias, path:
    'target'}}], after [normalize] the list of [aliases] under target's id
    contains link's id and link's [source.path] is target's id; after
    [deNormalize], link's [path] is ['target'] again. *)
Theorem alias_resolution_example
  (uuidv4 : nat -> string)
  (uuidv4_inj : forall i j, uuidv4 i = uuidv4 j -> i = j) :
  exists link target,
    obj_get (byId (normalize uuidv4 sampleAlias)) (uuidv4 0) = Some link /\
    obj_get (byId (normalize uuidv4 sampleAlias)) (uuidv4 1) = Some target /\
    nf_path link = ["link"] /\ nf_path target = ["target"] /\
    nf_id link = uuidv4 0 /\ nf_id target = uuidv4 1 /\
    (exists ids, obj_get (aliases (normalize uuidv4 sampleAlias)) (nf_id target)
                 = Some ids /\ nf_id link ∈ ids) /\
    src_path (source link) = Some (nf_id target) /\
    exists out l,
      deNormalize 1 (normalize uuidv4 sampleAlias) = Some (Ok out) /\
      obj_get out "link" = Some l /\ field_path l = Some "target".
Proof.
  assert (Hne : uuidv4 0 <> uuidv4 1).
  { intros H. apply uuidv4_inj in H. discriminate H. }
  destruct sampleAlias_canonical as [Hu Hc].
  rewrite (roundtrip_canonical uuidv4 uuidv4_inj sampleAlias 1 Hu Hc (le_n 1)).
  rewrite (normalize_sampleAlias uuidv4 uuidv4_inj). cbn [byId aliases].
  eexists _, _. split_and!.
  - cbn [obj_get]. by rewrite decide_True.
  - cbn [obj_get]. rewrite decide_False by done. by rewrite decide_True.
  - done.
  - done.
  - done.
  - done.
  - exists [uuidv4 0]. split; [|left].
    cbn [obj_get nf_id]. by rewrite decide_True.
  - done.
  - eexists _, _. split; [done|]. by vm_compute.
Qed.

Lemma alias_resolution_example_witness :
  exists link target,
    obj_get (byId (normalize sampleUuid sampleAlias)) "id-0" = Some link /\
    obj_get (byId (normalize sampleUuid sampleAlias)) "id-1" = Some target /\
    nf_path link = ["link"] /\ nf_path target = ["target"] /\
    nf_id link = "id-0" /\ nf_id target = "id-1" /\
    (exists ids, obj_get (aliases (normalize sampleUuid sampleAlias))
                   (nf_id target) = Some ids /\ nf_id link ∈ ids) /\
    src_path (source link) = Some (nf_id target) /\
    exists out l,
      deNormalize 1 (normalize sampleUuid sampleAlias) = Some (Ok out) /\
      obj_get out "link" = Some l /\ field_path l = Some "target".
Proof. exact (alias_resolution_example sampleUuid sampleUuid_inj). Defined.

(** ** Rename propagation *)

Section Rename.

Variable byId : ById.
Hypothesis byId_ids : Forall (fun e => nf_id e.2 = e.1) byId.

Lemma stored_id (id : string) (c : NormalizedField) :
  obj_get byId id = Some c -> nf_id c = id.
Proof.
  intros Hget. apply obj_get_Some_elem in Hget.
  eapply Forall_forall in Hget; [|exact byId_ids]. done.
Qed.

Lemma Reachable_stored (f d : NormalizedField) :
  Reachable byId f d -> obj_get byId (nf_id d) = Some d.
Proof.
  induction 1 as [f ids id c _ _ _ Hget|]; [|done].
  by rewrite (stored_id id c Hget).
Qed.

Lemma Reachable_has_children (f d : NormalizedField) :
  Reachable byId f d -> hasChildren f = true.
Proof. by destruct 1. Qed.

Lemma Reachable_first (f d : NormalizedField) :
  Reachable byId f d ->
  exists ids id c,
    childFields (meta f) = Some ids /\ id ∈ ids /\
    obj_get byId id = Some c /\ visited byId c d.
Proof.
  destruct 1 as [f ids id c _ Hids Hin Hget|f ids id c d _ Hids Hin Hget Hd];
    exists ids, id, c; split_and!; try done.
  - by left.
  - by right.
Qed.

Lemma visited_child (f c x : NormalizedField) (ids : list string)
  (id : string) :
  hasChildren f = true -> childFields (meta f) = Some ids -> id ∈ ids ->
  obj_get byId id = Some c -> visited byId c x -> Reachable byId f x.
Proof.
  intros Hhas Hids Hin Hget [->|Hx].
  - by eapply Reachable_child.
  - by eapply Reachable_below.
Qed.

Lemma Reachable_height (n : nat) (f d : NormalizedField) :
  resolvesWithin n byId f -> Reachable byId f d ->
  exists n', n' < n /\ resolvesWithin n' byId d.
Proof.
  intros Hn Hd. revert n Hn.
  induction Hd as [f ids id c Hhas Hids Hin Hget
                  |f ids id c d Hhas Hids Hin Hget Hd IH]; intros n Hn.
  - destruct n as [|n]; [done|]. cbn [resolvesWithin] in Hn.
    rewrite Hhas, Hids in Hn.
    eapply Forall_forall in Hn as (c' & Hget' & Hc'); [|exact Hin].
    exists n. split; [lia|]. congruence.
  - destruct n as [|n]; [done|]. cbn [resolvesWithin] in Hn.
    rewrite Hhas, Hids in Hn.
    eapply Forall_forall in Hn as (c' & Hget' & Hc'); [|exact Hin].
    assert (c' = c) as -> by congruence.
    destruct (IH n Hc') as (n' & Hlt & Hd'). exists n'. split; [lia|done].
Qed.

Lemma no_self_reach (n : nat) (f : NormalizedField) :
  resolvesWithin n byId f -> ~ Reachable byId f f.
Proof.
  revert f. induction n as [n IH] using lt_wf_ind. intros f Hn Hf.
  destruct (Reachable_height n f f Hn Hf) as (n' & Hlt & Hn').
  exact (IH n' Hlt f Hn' Hf).
Qed.

Lemma visited_stored_unique (c c' x y : NormalizedField) (id id' : string) :
  obj_get byId id = Some c -> obj_get byId id' = Some c' ->
  visited byId c x -> visited byId c' y -> nf_id x = nf_id y -> x = y.
Proof.
  intros Hc Hc' Hx Hy Heq.
  assert (Sx : obj_get byId (nf_id x) = Some x).
  { destruct Hx as [->|Hx]; [|exact (Reachable_stored _ _ Hx)].
    by rewrite (stored_id id c Hc). }
  assert (Sy : obj_get byId (nf_id y) = Some y).
  { destruct Hy as [->|Hy]; [|exact (Reachable_stored _ _ Hy)].
    by rewrite (stored_id id' c' Hc'). }
  congruence.
Qed.

Lemma updateFieldPath_unfold (fuel : nat) (f : NormalizedField)
  (paths : list string) (upd : ById) :
  updateFieldPath (S fuel) f paths (MkRenameMaps byId upd)
  = let pre := paths ++ [src_name (source f)] in
    let upd1 := obj_set upd (nf_id f) (set_path f pre) in
    if hasChildren f then
      match childFields (meta f) with
      | None => Some (Throw TypeError)
      | Some ids =>
          fold_left
            (fun (acc : option (Result RenameMaps))
                 (childField : option NormalizedField) =>
               bindF acc (fun h =>
                 match childField with
                 | None => Some (Throw TypeError)
                 | Some childField => updateFieldPath fuel childField pre h
                 end))
            (map (obj_get byId) ids) (Some (Ok (MkRenameMaps byId upd1)))
      end
    else Some (Ok (MkRenameMaps byId upd1)).
Proof. reflexivity. Qed.

End Rename.

Section RenameSpec.

Variable byId : ById.
Hypothesis byId_ids : Forall (fun e => nf_id e.2 = e.1) byId.

Lemma child_not_below_itself (n : nat) (id : string) (c x : NormalizedField) :
  obj_get byId id = Some c -> resolvesWithin n byId c ->
  Reachable byId c x -> nf_id x <> nf_id c.
Proof.
  intros Hget Hn Hx Heq.
  assert (x = c) as ->.
  { eapply (visited_stored_unique byId byId_ids c c x c id id); try done.
    - by right.
    - by left. }
  exact (no_self_reach byId n c Hn Hx).
Qed.

Lemma hasChildren_flags (f : NormalizedField) :
  hasChildren f = true
  <-> hasChildFields (meta f) = true \/ hasMultiFields (meta f) = true.
Proof. unfold hasChildren. apply orb_true_iff. Qed.

Lemma ReachableBy_Reachable (f d : NormalizedField) (names : list string) :
  ReachableBy byId f names d -> Reachable byId f d.
Proof.
  induction 1 as [f ids id c Hhas Hids Hin Hget
                 |f ids id c d names Hhas Hids Hin Hget _ IH].
  - apply hasChildren_flags in Hhas. by eapply Reachable_child.
  - apply hasChildren_flags in Hhas. by eapply Reachable_below.
Qed.

Lemma Reachable_ReachableBy (f d : NormalizedField) :
  Reachable byId f d -> exists names, ReachableBy byId f names d.
Proof.
  induction 1 as [f ids id c Hhas Hids Hin Hget
                 |f ids id c d Hhas Hids Hin Hget _ [names IH]].
  - apply hasChildren_flags in Hhas. eexists. by eapply ReachableBy_child.
  - apply hasChildren_flags in Hhas. eexists. by eapply ReachableBy_below.
Qed.

Lemma visitedBy_visited (f x : NormalizedField) (names : list string) :
  visitedBy byId f names x -> visited byId f x.
Proof.
  intros [[_ ->]|Hx]; [by left|]. right. by eapply ReachableBy_Reachable.
Qed.

Lemma visitedBy_child (f c x : NormalizedField) (ids : list string)
  (id : string) (names : list string) :
  hasChildren f = true -> childFields (meta f) = Some ids -> id ∈ ids ->
  obj_get byId id = Some c -> visitedBy byId c names x ->
  ReachableBy byId f (src_name (source c) :: names) x.
Proof.
  intros Hhas%hasChildren_flags Hids Hin Hget [[-> ->]|Hx].
  - by eapply ReachableBy_child.
  - by eapply ReachableBy_below.
Qed.

Lemma children_written_along (fuel n : nat) (f : NormalizedField)
  (pre : list string) (all_ids : list string) :
  hasChildren f = true -> childFields (meta f) = Some all_ids ->
  (forall c paths upd,
      resolvesWithin n byId c ->
      (forall x, Reachable byId c x -> nf_id x <> nf_id c) ->
      exists upd',
        updateFieldPath fuel c paths (MkRenameMaps byId upd)
        = Some (Ok (MkRenameMaps byId upd')) /\
        writtenAlong byId c (paths ++ [src_name (source c)]) upd upd') ->
  forall ids upd,
    ids ⊆ all_ids ->
    Forall (fun id => exists c, obj_get byId id = Some c
                                /\ resolvesWithin n byId c) ids ->
    exists upd',
      fold_left
        (fun (acc : option (Result RenameMaps))
             (childField : option NormalizedField) =>
           bindF acc (fun h =>
             match childField with
             | None => Some (Throw TypeError)
             | Some childField => updateFieldPath fuel childField pre h
             end))
        (map (obj_get byId) ids) (Some (Ok (MkRenameMaps byId upd)))
      = Some (Ok (MkRenameMaps byId upd')) /\
      (forall k,
          obj_get upd' k = obj_get upd k \/
          exists x names, ReachableBy byId f names x /\ nf_id x = k /\
                          obj_get upd' k = Some (set_path x (pre ++ names))) /\
      (forall id c x,
          id ∈ ids -> obj_get byId id = Some c -> visited byId c x ->
          exists names, ReachableBy byId f names x /\
                        obj_get upd' (nf_id x)
                        = Some (set_path x (pre ++ names))).
Proof.
  intros Hhas Hall IHn ids. induction ids as [|id ids IH]; intros upd Hsub Hres.
  - exists upd. split; [done|]. split; [by left|].
    intros id c x Hin. by apply elem_of_nil in Hin.
  - apply Forall_cons in Hres as [(c & Hget & Hc) Hres].
    assert (Hid : id ∈ all_ids) by (apply Hsub; left).
    assert (Hsub' : ids ⊆ all_ids) by (intros y Hy; apply Hsub; by right).
    cbn [map fold_left]. rewrite Hget. cbn [bindF].
    destruct (IHn c pre upd Hc
                (fun x => child_not_below_itself n id c x Hget Hc))
      as (upd1 & -> & [W1 W2]).
    destruct (IH upd1 Hsub' Hres) as (upd' & -> & K & V).
    exists upd'. split; [done|]. split.
    + intros k. destruct (K k) as [Hk|Hk]; [|by right].
      destruct (W1 k) as [Hk1|(x & names & Hx & Hxk & Hp)].
      * left. congruence.
      * right. exists x, (src_name (source c) :: names). split_and!.
        -- by eapply visitedBy_child.
        -- done.
        -- rewrite Hk, Hp. by rewrite <- app_assoc.
    + intros id' c' x Hin Hget' Hx.
      apply elem_of_cons in Hin as [->|Hin]; [|by eapply V].
      assert (c' = c) as -> by congruence.
      destruct (W2 x Hx) as (names & Hnames & Hp).
      destruct (K (nf_id x)) as [Hk|(y & q & Hy & Hyx & Hq)].
      * exists (src_name (source c) :: names). split.
        -- by eapply visitedBy_child.
        -- rewrite Hk, Hp. by rewrite <- app_assoc.
      * assert (y = x) as ->.
        { pose proof (ReachableBy_Reachable _ _ _ Hy) as Hy'.
          apply Reachable_first in Hy'
            as (ids0 & id0 & c0 & _ & _ & Hget0 & Hy').
          by eapply (visited_stored_unique byId byId_ids c0 c y x). }
        by exists q.
Qed.

Lemma updateFieldPath_along (n : nat) :
  forall fuel f paths upd,
    resolvesWithin n byId f -> n <= fuel ->
    (forall x, Reachable byId f x -> nf_id x <> nf_id f) ->
    exists upd',
      updateFieldPath fuel f paths (MkRenameMaps byId upd)
      = Some (Ok (MkRenameMaps byId upd')) /\
      writtenAlong byId f (paths ++ [src_name (source f)]) upd upd'.
Proof.
  induction n as [|n IHn]; intros fuel f paths upd Hn Hfuel Hroot; [done|].
  destruct fuel as [|fuel]; [lia|].
  rewrite (updateFieldPath_unfold byId). cbv zeta.
  set (pre := paths ++ [src_name (source f)]).
  set (upd1 := obj_set upd (nf_id f) (set_path f pre)).
  assert (Hown : obj_get upd1 (nf_id f) = Some (set_path f (pre ++ [])))
    by (rewrite app_nil_r; apply obj_get_set_eq).
  assert (Hframe : forall k,
    obj_get upd1 k = obj_get upd k \/
    exists x names, visitedBy byId f names x /\ nf_id x = k /\
                    obj_get upd1 k = Some (set_path x (pre ++ names))).
  { intros k. destruct (decide (nf_id f = k)) as [<-|Hne].
    - right. exists f, []. split_and!; try done. by left.
    - left. by apply obj_get_set_ne. }
  cbn [resolvesWithin] in Hn.
  destruct (hasChildren f) eqn:Hhas.
  - destruct (childFields (meta f)) as [ids|] eqn:Hids; [|done].
    destruct (children_written_along fuel n f pre ids Hhas Hids
                (fun c paths' upd0 Hc Hr =>
                   IHn fuel c paths' upd0 Hc ltac:(lia) Hr)
                ids upd1 ltac:(done) Hn) as (upd' & -> & K & V).
    assert (Hf : obj_get upd' (nf_id f) = Some (set_path f (pre ++ []))).
    { destruct (K (nf_id f)) as [Hk|(x & p & Hx & Hxk & _)]; [congruence|].
      destruct (Hroot x); [by eapply ReachableBy_Reachable|done]. }
    exists upd'. split; [done|]. split.
    + intros k. destruct (K k) as [Hk|(x & p & Hx & Hxk & Hp)].
      * destruct (Hframe k) as [Hk1|(x & p & Hx & Hxk & Hp)].
        -- left. congruence.
        -- right. exists x, p. split_and!; try done. congruence.
      * right. exists x, p. split_and!; try done. by right.
    + intros x [->|Hx].
      * exists []. split; [by left|done].
      * apply Reachable_first in Hx
          as (ids0 & id & c & Hids0 & Hin & Hget & Hx).
        assert (ids0 = ids) as -> by congruence.
        destruct (V id c x Hin Hget Hx) as (names & Hnames & Hp).
        exists names. split; [by right|done].
  - exists upd1. split; [done|]. split.
    + exact Hframe.
    + intros x [->|Hx].
      * exists []. split; [by left|done].
      * apply Reachable_has_children in Hx. congruence.
Qed.

Lemma updateFieldPath_spec (n : nat) :
  forall fuel f paths upd,
    resolvesWithin n byId f -> n <= fuel ->
    (forall x, Reachable byId f x -> nf_id x <> nf_id f) ->
    exists upd',
      updateFieldPath fuel f paths (MkRenameMaps byId upd)
      = Some (Ok (MkRenameMaps byId upd')) /\
      writtenFrom byId f (paths ++ [src_name (source f)]) upd upd' /\
      obj_get upd' (nf_id f)
      = Some (set_path f (paths ++ [src_name (source f)])).
Proof.
  intros fuel f paths upd Hn Hfuel Hroot.
  destruct (updateFieldPath_along n fuel f paths upd Hn Hfuel Hroot)
    as (upd' & Hrun & W1 & W2).
  exists upd'. split; [done|]. split; [split|].
  - intros k. destruct (W1 k) as [Hk|(x & names & Hx & Hxk & Hp)];
      [by left|].
    right. exists x, ((paths ++ [src_name (source f)]) ++ names).
    split_and!; try done.
    + by eapply visitedBy_visited.
    + by apply prefix_app_r.
  - intros x Hx. destruct (W2 x Hx) as (names & _ & Hp).
    eexists. split; [exact Hp|]. by apply prefix_app_r.
  - destruct (W2 f) as (names & [[-> _]|Hx] & Hp); [by left| |].
    + by rewrite app_nil_r in Hp.
    + destruct (Hroot f); [by eapply ReachableBy_Reachable|done].
Qed.

End RenameSpec.



(** The parent of the renamed field has to resolve: the call reads
    [path] of [byId[field.parentId]]. *)
Lemma rename_dangling_parent_throws :
  parentId orphanRenamed = Some "gone" /\
  obj_get unflaggedById "gone" = None /\
  forall fuel,
    updateFieldsPathAfterFieldNameChange fuel orphanRenamed unflaggedById
    = Some (Throw TypeError).
Proof. split_and!; try reflexivity. Qed.

(** The entries have to sit under their own ids: the call writes a field
    under its [id], so a child found under another key keeps its old
    path there and is written, renamed, under a key the map did not
    have. *)
Lemma rename_writes_under_the_id_of_the_field :
  exists updated,
    updateFieldsPathAfterFieldNameChange 2 misfiledRenamed misfiledById
    = Some (Ok (["z"], updated)) /\
    obj_get misfiledById "k1" = Some misfiledChild /\
    obj_get updated "k1" = Some misfiledChild /\
    obj_get misfiledById "id-9" = None /\
    obj_get updated "id-9" = Some (set_path misfiledChild ["z"; "b"]).
Proof. eexists. split_and!; reflexivity. Qed.

(** The renamed field must not be among its own descendants: here its
    entry is overwritten by the visit of the field stored under its id. *)
Lemma rename_overwrites_a_field_below_itself :
  Forall (fun e => nf_id e.2 = e.1) selfListedById /\
  resolvesWithin 2 selfListedById selfListedRenamed /\
  Reachable selfListedById selfListedRenamed selfListedOld /\
  exists updated,
    updateFieldsPathAfterFieldNameChange 2 selfListedRenamed selfListedById
    = Some (Ok (["z"; "a"], updated)) /\
    obj_get updated "id-0" = Some (set_path selfListedOld ["z"; "a"]).
Proof.
  split_and!.
  - by repeat constructor.
  - cbn. constructor; [|constructor]. by exists selfListedOld.
  - apply (Reachable_child _ selfListedRenamed ["id-0"] "id-0" selfListedOld);
      [done|done|by left|done].
  - eexists. split; reflexivity.
Qed.



(** The renamed field's child ends up under the new name. *)
Lemma rename_example_child_path :
  exists updated b,
    updateFieldsPathAfterFieldNameChange 2 sampleRenamed sampleParentChild
    = Some (Ok (["z"], updated)) /\
    obj_get sampleParentChild "id-1" = Some b /\
    obj_get updated "id-1" = Some (set_path b ["z"; "b"]).
Proof. eexists _, _. by vm_compute. Qed.

(** ** The order of the visit *)

Section SortedVisit.

Lemma compareKeys_le (a b : string) :
  (compareKeys a b <= 0)%Z <-> String.le a b.
Proof.
  unfold compareKeys, String.le, String.ltb, String.leb.
  rewrite (String.compare_antisym b a).
  destruct (String.compare a b); cbn; split; (done || lia).
Qed.

Lemma insertEntry_Sorted {A} (x : string * A) (l : list (string * A)) :
  Sorted (fun a b => String.le a.1 b.1) l ->
  Sorted (fun a b => String.le a.1 b.1) (insertEntry x l).
Proof.
  induction 1 as [|y l Hl IH Hhd]; cbn [insertEntry].
  - by repeat constructor.
  - case_decide as Hxy.
    + constructor; [by constructor|]. constructor. by apply compareKeys_le.
    + constructor; [exact IH|].
      assert (Hyx : String.le y.1 x.1).
      { destruct (total String.le x.1 y.1); [|done].
        by destruct Hxy; apply compareKeys_le. }
      destruct Hhd as [|z l Hz]; cbn [insertEntry].
      * by constructor.
      * case_decide; by constructor.
Qed.

Lemma sortEntries_Sorted {A} (l : list (string * A)) :
  Sorted (fun a b => String.le a.1 b.1) (sortEntries l).
Proof.
  induction l as [|x l IH]; [constructor|]. by apply insertEntry_Sorted.
Qed.

Lemma sortEntries_keys_Sorted {A} (l : list (string * A)) :
  Sorted String.le (Object_keys (sortEntries l)).
Proof.
  apply (Sorted_fmap fst (fun a b : string * A => String.le a.1 b.1)
           String.le).
  - by intros a b.
  - apply sortEntries_Sorted.
Qed.

Lemma sortEntries_keys_unique {A B} (l1 : list (string * A))
  (l2 : list (string * B)) :
  Object_keys l1 ≡ₚ Object_keys l2 ->
  Object_keys (sortEntries l1) = Object_keys (sortEntries l2).
Proof.
  intros Hperm. apply (Sorted_unique String.le).
  - apply sortEntries_keys_Sorted.
  - apply sortEntries_keys_Sorted.
  - unfold Object_keys. by rewrite !sortEntries_Permutation.
Qed.

Lemma same_keys_Forall2 {A B} (R : A -> B -> Prop)
  (s1 : list (string * A)) (s2 : list (string * B)) :
  Object_keys s1 = Object_keys s2 -> NoDup (Object_keys s2) ->
  (forall k x, (k, x) ∈ s1 -> exists y, (k, y) ∈ s2 /\ R x y) ->
  Forall2 (fun a b => a.1 = b.1 /\ R a.2 b.2) s1 s2.
Proof.
  revert s2. induction s1 as [|[k x] s1 IH]; intros [|[k2 y0] s2];
    cbn [Object_keys map fst]; try discriminate; [constructor|].
  intros [= <- Hkeys] [Hk Hnd]%NoDup_cons Hall.
  assert (Hout : forall y, (k, y) ∈ s2 -> False).
  { intros y Hy. apply Hk. apply list_elem_of_fmap. by exists (k, y). }
  constructor.
  - split; [done|]. cbn [snd].
    destruct (Hall k x ltac:(left)) as (y & [[= ->]|Hy]%elem_of_cons & Hxy);
      [done|]. by destruct (Hout y).
  - apply IH; [done|done|]. intros k' x' Hin.
    destruct (Hall k' x' ltac:(by right))
      as (y & [[= -> ->]|Hy]%elem_of_cons & Hxy); [|by exists y].
    exfalso. apply Hk. unfold Object_keys in Hkeys. rewrite <- Hkeys.
    apply list_elem_of_fmap. by exists (k, x').
Qed.

Lemma sorted_Forall2 {A B} (R : A -> B -> Prop)
  (l1 : list (string * A)) (l2 : list (string * B)) :
  NoDup (Object_keys l1) -> NoDup (Object_keys l2) ->
  length l1 = length l2 ->
  Forall (fun e => exists y, (e.1, y) ∈ l2 /\ R e.2 y) l1 ->
  Forall2 (fun a b => a.1 = b.1 /\ R a.2 b.2)
    (sortEntries l1) (sortEntries l2).
Proof.
  intros Hnd1 Hnd2 Hlen Hall.
  assert (Hperm : Object_keys l1 ≡ₚ Object_keys l2).
  { apply submseteq_length_Permutation.
    - apply NoDup_submseteq; [done|]. intros k Hk.
      apply list_elem_of_fmap in Hk as ([k' x] & -> & Hin).
      eapply Forall_forall in Hall as (y & Hy & _); [|exact Hin].
      apply list_elem_of_fmap. by exists (k', y).
    - unfold Object_keys. rewrite !length_map. lia. }
  apply same_keys_Forall2.
  - by apply sortEntries_keys_unique.
  - by apply sortEntries_keys_NoDup.
  - intros k x Hin. rewrite sortEntries_Permutation in Hin.
    eapply Forall_forall in Hall as (y & Hy & Hxy); [|exact Hin].
    exists y. split; [|done]. by rewrite sortEntries_Permutation.
Qed.

End SortedVisit.

(** ** The walk does not depend on the order of the keys *)

Section OrderIndependence.

Variable uuidv4 : nat -> string.

Lemma visitEntries_Forall2 (s1 s2 : list (string * Field)) :
  Forall2 (fun a b =>
             a.1 = b.1 /\
             forall k paths d im pid st,
               normalizeField uuidv4 k a.2 paths d im pid st
               = normalizeField uuidv4 k b.2 paths d im pid st) s1 s2 ->
  forall paths d im pid st,
    visitEntries uuidv4 s1 paths d im pid st
    = visitEntries uuidv4 s2 paths d im pid st.
Proof.
  induction 1 as [|[k1 v1] [k2 v2] s1 s2 [Hk Hv] _ IH];
    intros paths d im pid st; [done|].
  cbn [fst snd] in Hk, Hv. subst k2. cbn [visitEntries]. rewrite Hv.
  destruct (normalizeField uuidv4 k1 v2 paths d im pid st) as [st1 id].
  by rewrite IH.
Qed.

Lemma typedField_same_meta (t p : option string)
  (ps1 fs1 ps2 fs2 : option (list (string * Field)))
  (o : list (string * Value)) (im : bool) (k : string) :
  match ps1, ps2 with
  | None, None => True
  | Some l1, Some l2 => length l1 = length l2
  | _, _ => False
  end ->
  match fs1, fs2 with
  | None, None => True
  | Some l1, Some l2 => length l1 = length l2
  | _, _ => False
  end ->
  getFieldMeta (typedField (MkField t p ps1 fs1 o)) im
  = getFieldMeta (typedField (MkField t p ps2 fs2 o)) im /\
  sourceOf k (typedField (MkField t p ps1 fs1 o))
  = sourceOf k (typedField (MkField t p ps2 fs2 o)).
Proof.
  intros Hps Hfs.
  assert (Hne : forall c1 c2 : option (list (string * Field)),
    match c1, c2 with
    | None, None => True
    | Some l1, Some l2 => length l1 = length l2
    | _, _ => False
    end -> nonEmptyContainer c1 = nonEmptyContainer c2).
  { intros [l1|] [l2|]; try done. intros Hlen. unfold nonEmptyContainer,
      Object_keys. by rewrite !length_map, Hlen. }
  assert (Hty : inferType t ps1 = inferType t ps2).
  { by destruct t, ps1, ps2. }
  unfold typedField, sourceOf, getFieldMeta.
  cbn [field_type field_path field_properties field_fields field_others].
  rewrite Hty. split; [|done].
  destruct (getChildFieldsName (inferType t ps2)) as [[]|];
    cbn [field_container field_properties field_fields];
    rewrite ?(Hne _ _ Hps), ?(Hne _ _ Hfs); done.
Qed.

Lemma normalizeField_same (v1 : Field) :
  forall v2, sameField v1 v2 -> uniqueNames v1 -> uniqueNames v2 ->
  forall k paths d im pid st,
    normalizeField uuidv4 k v1 paths d im pid st
    = normalizeField uuidv4 k v2 paths d im pid st.
Proof.
  induction v1 as [t p ps1 fs1 o IHps IHfs] using Field_tree_ind.
  intros [t2 p2 ps2 fs2 o2] (<- & <- & <- & Sps & Sfs) [Ups1 Ufs1] [Ups2 Ufs2].
  assert (Hcontainer : forall c1 c2 : option (list (string * Field)),
    (forall l, c1 = Some l ->
       Forall (fun e => forall v2, sameField e.2 v2 -> uniqueNames e.2 ->
                 uniqueNames v2 ->
                 forall k paths d im pid st,
                   normalizeField uuidv4 k e.2 paths d im pid st
                   = normalizeField uuidv4 k v2 paths d im pid st) l) ->
    match c1, c2 with
    | None, None => True
    | Some l1, Some l2 =>
        length l1 = length l2 /\
        (fix go (l : list (string * Field)) : Prop :=
           match l with
           | [] => True
           | (k, x) :: l' => (exists y, (k, y) ∈ l2 /\ sameField x y) /\ go l'
           end) l1
    | _, _ => False
    end ->
    match c1 with
    | Some l =>
        NoDup (map fst l) /\
        (fix go (l : list (string * Field)) : Prop :=
           match l with
           | [] => True
           | (_, x) :: l' => uniqueNames x /\ go l'
           end) l
    | None => True
    end ->
    match c2 with
    | Some l =>
        NoDup (map fst l) /\
        (fix go (l : list (string * Field)) : Prop :=
           match l with
           | [] => True
           | (_, x) :: l' => uniqueNames x /\ go l'
           end) l
    | None => True
    end ->
    match c1, c2 with
    | None, None => True
    | Some l1, Some l2 => length l1 = length l2
    | _, _ => False
    end /\
    forall paths d im pid st,
      normalizeFields uuidv4 (default [] c1) paths d im pid st
      = normalizeFields uuidv4 (default [] c2) paths d im pid st).
  { intros [l1|] [l2|] IH S U1 U2; try done.
    destruct S as [Hlen S], U1 as [Hnd1 U1], U2 as [Hnd2 U2].
    split; [done|]. intros paths d im pid st.
    apply sameContainer_Forall in S.
    apply all_uniqueNames_Forall in U1, U2.
    specialize (IH l1 eq_refl). cbn [default from_option id].
    rewrite !normalizeFields_unfold. apply visitEntries_Forall2.
    eapply Forall2_impl.
    - apply (sorted_Forall2
               (fun x y => sameField x y /\ uniqueNames x /\ uniqueNames y /\
                  forall v2, sameField x v2 -> uniqueNames x ->
                    uniqueNames v2 ->
                    forall k paths d im pid st,
                      normalizeField uuidv4 k x paths d im pid st
                      = normalizeField uuidv4 k v2 paths d im pid st)
               l1 l2 Hnd1 Hnd2 Hlen).
      apply Forall_forall. intros [k x] Hin.
      eapply Forall_forall in S as (y & Hy & Hxy); [|exact Hin].
      exists y. split; [done|]. split_and!; [done| | |].
      + eapply Forall_forall in U1; [|exact Hin]. done.
      + eapply Forall_forall in U2; [|exact Hy]. done.
      + eapply Forall_forall in IH; [|exact Hin]. done.
    - intros a b [Hk (Hs & Ha & Hb & Hrec)]. split; [done|].
      intros. by apply Hrec. }
  destruct (Hcontainer ps1 ps2 IHps Sps Ups1 Ups2) as [Hps Hprops].
  destruct (Hcontainer fs1 fs2 IHfs Sfs Ufs1 Ufs2) as [Hfs Hflds].
  intros k paths d im pid st. rewrite !normalizeField_unfold.
  unfold visitField.
  destruct (typedField_same_meta t p ps1 fs1 ps2 fs2 o im k Hps Hfs)
    as [Hmeta Hsrc].
  rewrite Hmeta, Hsrc.
  set (m := getFieldMeta (typedField (MkField t p ps2 fs2 o)) im).
  assert (Hkids : forall paths d im pid st,
    normalizeFields uuidv4
      (childrenOf (typedField (MkField t p ps1 fs1 o)) (childFieldsName m))
      paths d im pid st
    = normalizeFields uuidv4
        (childrenOf (typedField (MkField t p ps2 fs2 o)) (childFieldsName m))
        paths d im pid st).
  { destruct (childFieldsName m) as [[]|];
      cbn [childrenOf typedField field_properties field_fields]; done. }
  by rewrite Hkids.
Qed.

Lemma normalize_same (m1 m2 : Fields) :
  uniqueNamesFields m1 -> uniqueNamesFields m2 -> sameFields m1 m2 ->
  normalize uuidv4 m1 = normalize uuidv4 m2.
Proof.
  intros [Hnd1 U1] [Hnd2 U2] [Hlen S].
  unfold normalize. rewrite !normalizeFields_unfold.
  rewrite (visitEntries_Forall2 (sortEntries m1) (sortEntries m2)); [done|].
  eapply Forall2_impl.
  - apply (sorted_Forall2
             (fun x y => sameField x y /\ uniqueNames x /\ uniqueNames y)
             m1 m2 Hnd1 Hnd2 Hlen).
    apply Forall_forall. intros [k x] Hin.
    eapply Forall_forall in S as (y & Hy & Hxy); [|exact Hin].
    exists y. split; [done|]. split_and!; [done| |].
    + eapply Forall_forall in U1; [|exact Hin]. done.
    + eapply Forall_forall in U2; [|exact Hy]. done.
  - intros a b [Hk (Hs & Ha & Hb)]. split; [done|].
    intros. by apply normalizeField_same.
Qed.

End OrderIndependence.

(** ** The result does not depend on the ids that are handed out *)

Section IdIndependence.

Variables g1 g2 : nat -> string.
Hypothesis g1_inj : forall i j, g1 i = g1 j -> i = j.
Hypothesis g2_inj : forall i j, g2 i = g2 j -> i = j.

Local Abbreviation R := (sameStep g1 g2).

Lemma sameStep_at (i : nat) : R (g1 i) (g2 i).
Proof. by exists i. Qed.

Lemma sameStep_oneToOne : oneToOne R.
Proof.
  intros a b a' b' (i & -> & ->) (j & -> & ->). split.
  - intros H%g1_inj. by subst.
  - intros H%g2_inj. by subst.
Qed.

Lemma entryOf_related (k : string) (v : Field) paths d im pid1 pid2 n
  (ids1 ids2 : option (list string)) :
  option_Forall2 R pid1 pid2 ->
  option_Forall2 (Forall2 R) ids1 ids2 ->
  sameWalkedEntry R
    (g1 n, entryOf g1 k v paths d im pid1 n ids1)
    (g2 n, entryOf g2 k v paths d im pid2 n ids2).
Proof.
  intros Hpid Hids. unfold sameWalkedEntry, entryOf. cbn [fst snd source].
  split; [apply sameStep_at|]. split; [|done].
  unfold sameFieldUpTo. cbn [nf_id parentId nestedDepth isMultiField
                             nf_path source meta].
  split_and!; try done.
  - apply sameStep_at.
  - unfold sameSourceUpTo. split_and!; try done. by left.
  - destruct Hids as [l1 l2 Hl|]; unfold sameMetaUpTo; cbn; split_and!;
      try done; by constructor.
Qed.

Lemma runs_related (entries : list (string * Field)) :
  forall paths d im pid n pid2,
    option_Forall2 R pid pid2 ->
    fresh (entriesRun g1 entries paths d im pid n).1
    = fresh (entriesRun g2 entries paths d im pid2 n).1 /\
    maxDepth (entriesRun g1 entries paths d im pid n).1
    = maxDepth (entriesRun g2 entries paths d im pid2 n).1 /\
    Forall2 (sameWalkedEntry R)
      (to (entriesRun g1 entries paths d im pid n).1)
      (to (entriesRun g2 entries paths d im pid2 n).1) /\
    Forall2 R (entriesRun g1 entries paths d im pid n).2
      (entriesRun g2 entries paths d im pid2 n).2.
Proof.
  apply (entriesRun_ind g1 g1_inj
    (fun k v paths d im pid n r1 =>
       forall pid2, option_Forall2 R pid pid2 ->
         fresh r1.1 = fresh (fieldRun g2 k v paths d im pid2 n).1 /\
         maxDepth r1.1 = maxDepth (fieldRun g2 k v paths d im pid2 n).1 /\
         Forall2 (sameWalkedEntry R) (to r1.1)
           (to (fieldRun g2 k v paths d im pid2 n).1) /\
         R r1.2 (fieldRun g2 k v paths d im pid2 n).2)
    (fun es paths d im pid n r1 =>
       forall pid2, option_Forall2 R pid pid2 ->
         fresh r1.1 = fresh (entriesRun g2 es paths d im pid2 n).1 /\
         maxDepth r1.1 = maxDepth (entriesRun g2 es paths d im pid2 n).1 /\
         Forall2 (sameWalkedEntry R) (to r1.1)
           (to (entriesRun g2 es paths d im pid2 n).1) /\
         Forall2 R r1.2 (entriesRun g2 es paths d im pid2 n).2)).
  - intros k v paths d im pid n Hhas pid2 Hpid.
    rewrite (fieldRun_leaf g2 g2_inj) by done. cbn [fst snd fresh maxDepth to].
    split_and!; try done; [|apply sameStep_at].
    constructor; [|constructor]. apply entryOf_related; [done|constructor].
  - intros k v paths d im pid n rc m kids Hhas Hrc Hkids pid2 Hpid.
    rewrite (fieldRun_eq g2 g2_inj). cbv zeta. fold m. rewrite Hhas.
    fold kids.
    destruct (Hkids (Some (g2 n)) ltac:(constructor; apply sameStep_at))
      as (Hf & Hm & Hto & Hids).
    cbn [fst snd fresh maxDepth to].
    split_and!; [done|by rewrite Hm| |apply sameStep_at].
    apply Forall2_app; [done|]. constructor; [|constructor].
    apply entryOf_related; [done|by constructor].
  - intros paths d im pid n pid2 _. cbn. split_and!; try done; constructor.
  - intros k v es paths d im pid n r1 r2 Hr1 Hr2 H1 H2 pid2 Hpid.
    rewrite (entriesRun_cons g2 g2_inj). cbv zeta.
    destruct (H1 pid2 Hpid) as (Hf1 & Hm1 & Hto1 & Hid1).
    destruct (H2 pid2 Hpid) as (Hf2 & Hm2 & Hto2 & Hid2).
    rewrite Hf1 in Hf2, Hm2, Hto2, Hid2.
    cbn [fst snd fresh maxDepth to].
    split_and!; [done|by rewrite Hm1, Hm2|by apply Forall2_app|].
    by constructor.
Qed.

Lemma find_related {A B} (Q : A -> B -> Prop) (p1 : A -> bool)
  (p2 : B -> bool) (l1 : list A) (l2 : list B) :
  Forall2 Q l1 l2 -> (forall x y, Q x y -> p1 x = p2 y) ->
  option_Forall2 Q (find p1 l1) (find p2 l2).
Proof.
  intros Hl Hp. induction Hl as [|x y l1 l2 Hxy _ IH]; cbn [find].
  - constructor.
  - rewrite (Hp x y Hxy). destruct (p2 y); [by constructor|done].
Qed.

Lemma aliasTargetId_related (o1 o2 : ById) (e1 e2 : string * NormalizedField) :
  Forall2 (sameWalkedEntry R) o1 o2 -> sameWalkedEntry R e1 e2 ->
  option_Forall2 R (aliasTargetId o1 e1.2) (aliasTargetId o2 e2.2).
Proof.
  intros Ho (_ & _ & Hsrc). unfold aliasTargetId. rewrite Hsrc.
  case_bool_decide; [|constructor].
  assert (Hfind : option_Forall2 (sameFieldUpTo R)
            (find (isAliasTarget e1.2) (Object_values o1))
            (find (isAliasTarget e2.2) (Object_values o2))).
  { apply find_related.
    - unfold Object_values. apply Forall2_fmap.
      eapply Forall2_impl; [exact Ho|]. by intros a b (_ & Hab & _).
    - intros x y (_ & _ & _ & _ & Hpath & _). unfold isAliasTarget.
      by rewrite Hpath, Hsrc. }
  destruct Hfind as [x y (Hid & _)|]; by constructor.
Qed.

Lemma resolveEntry_related (o1 o2 : ById) (e1 e2 : string * NormalizedField) :
  Forall2 (sameWalkedEntry R) o1 o2 -> sameWalkedEntry R e1 e2 ->
  R (resolveEntry o1 e1).1 (resolveEntry o2 e2).1 /\
  sameFieldUpTo R (resolveEntry o1 e1).2 (resolveEntry o2 e2).2.
Proof.
  intros Ho He. pose proof (aliasTargetId_related o1 o2 e1 e2 Ho He) as Ht.
  destruct He as (Hk & Hf & Hsrc). unfold resolveEntry, resolveField.
  cbn [fst snd]. split; [done|].
  destruct Ht as [t1 t2 Ht|]; [|done].
  destruct Hf as (Hid & Hpid & Hd & Him & Hpath & Hs & Hm).
  destruct Hs as (Hn & Hty & Hot & _).
  unfold sameFieldUpTo, setAliasPath, sameSourceUpTo.
  cbn [set_source set_src_path nf_id parentId nestedDepth isMultiField
       nf_path source meta src_name src_type src_path src_others].
  split_and!; try done. right. by constructor.
Qed.

Lemma registerAlias_related (al1 al2 : Aliases) (t1 t2 k1 k2 : string) :
  sameAliasesUpTo R al1 al2 -> R t1 t2 -> R k1 k2 ->
  sameAliasesUpTo R (registerAlias al1 t1 k1) (registerAlias al2 t2 k2).
Proof.
  intros Hal Ht Hk. unfold registerAlias.
  induction Hal as [|[a1 l1] [a2 l2] al1 al2 [Ha Hl] Hal IH];
    cbn [obj_get obj_set fst snd] in *.
  - constructor; [|constructor]. split; [done|].
    cbn. by repeat constructor.
  - destruct (sameStep_oneToOne a1 a2 t1 t2 Ha Ht) as [H12 H21].
    destruct (decide (a1 = t1)) as [E1|N1];
      destruct (decide (a2 = t2)) as [E2|N2];
      try (exfalso; auto; fail).
    + constructor; [|exact Hal]. split; [done|].
      cbn [fst snd default from_option id].
      apply Forall2_app; [done|by repeat constructor].
    + constructor; [by split|]. exact IH.
Qed.

Lemma aliases_fold_related (o1 o2 l1 l2 : ById) (al1 al2 : Aliases) :
  Forall2 (sameWalkedEntry R) o1 o2 -> Forall2 (sameWalkedEntry R) l1 l2 ->
  sameAliasesUpTo R al1 al2 ->
  sameAliasesUpTo R
    (fold_left
       (fun (aliases : Aliases) (e : string * NormalizedField) =>
          match aliasTargetId o1 e.2 with
          | Some target => registerAlias aliases target e.1
          | None => aliases
          end) l1 al1)
    (fold_left
       (fun (aliases : Aliases) (e : string * NormalizedField) =>
          match aliasTargetId o2 e.2 with
          | Some target => registerAlias aliases target e.1
          | None => aliases
          end) l2 al2).
Proof.
  intros Ho Hl. revert al1 al2.
  induction Hl as [|e1 e2 l1 l2 He _ IH]; intros al1 al2 Hal; [done|].
  cbn [fold_left]. apply IH.
  destruct (aliasTargetId_related o1 o2 e1 e2 Ho He) as [t1 t2 Ht|]; [|done].
  apply registerAlias_related; [done|done|]. by destruct He.
Qed.

Lemma normalize_up_to_ids (m : Fields) :
  sameUpToIds R (normalize g1 m) (normalize g2 m).
Proof.
  destruct (runs_related (sortEntries m) [] 0 false None 0 None
              ltac:(constructor)) as (_ & Hmd & Hto & Hroot).
  rewrite <- !walked_eq in Hto.
  unfold sameUpToIds.
  rewrite !normalize_byId, !normalize_aliases, !normalize_rootLevelFields,
    !normalize_maxNestedDepth, !normalizeFields_unfold.
  split_and!.
  - unfold sameByIdUpTo. apply Forall2_fmap.
    eapply Forall2_impl; [exact Hto|].
    intros e1 e2 He. by apply resolveEntry_related.
  - unfold aliasesOf. apply aliases_fold_related; [done|done|constructor].
  - exact Hroot.
  - exact Hmd.
Qed.

End IdIndependence.

Lemma otherUuid_inj (i j : nat) : otherUuid i = otherUuid j -> i = j.
Proof.
  unfold otherUuid. intros H. apply (inj (String.append "run2-")) in H.
  by apply (inj pretty) in H.
Qed.

Lemma sampleAliasSwapped_same :
  uniqueNamesFields sampleAliasSwapped /\
  sameFields sampleAlias sampleAliasSwapped.
Proof.
  split; [split|split].
  - cbn. apply NoDup_cons. split; [|apply NoDup_singleton].
    intros H%list_elem_of_singleton. discriminate H.
  - by repeat constructor.
  - reflexivity.
  - constructor; [|constructor; [|constructor]]; cbn [fst snd].
    + exists (leaf "keyword"). split; [right; left|done].
    + exists (alias "target"). split; [left|done].
Qed.

(** C8: [normalizeFields] visits the entries in the order of the sort,
    which is the lexicographic order of the keys and a permutation of the
    entries; so two trees that are equal as key-value maps (with unique
    sibling names) normalize to the same result with the same id source,
    and with two id sources to results that are, entry by entry, the same
    fields with the same paths up to the one-to-one correspondence of the
    ids handed out at the same step. *)
Theorem normalize_ignores_key_order
  (g1 g2 : nat -> string)
  (g1_inj : forall i j, g1 i = g1 j -> i = j)
  (g2_inj : forall i j, g2 i = g2 j -> i = j)
  (m1 m2 : Fields) :
  uniqueNamesFields m1 -> uniqueNamesFields m2 -> sameFields m1 m2 ->
  (forall (props : Fields) paths d im pid st,
      normalizeFields g1 props paths d im pid st
      = visitEntries g1 (sortEntries props) paths d im pid st /\
      Sorted String.le (Object_keys (sortEntries props)) /\
      sortEntries props ≡ₚ props) /\
  normalize g1 m1 = normalize g1 m2 /\
  oneToOne (sameStep g1 g2) /\
  sameUpToIds (sameStep g1 g2) (normalize g1 m1) (normalize g2 m2).
Proof.
  intros U1 U2 Hsame. split_and!.
  - intros props paths d im pid st. split_and!.
    + apply normalizeFields_unfold.
    + apply sortEntries_keys_Sorted.
    + apply sortEntries_Permutation.
  - by apply normalize_same.
  - by apply sameStep_oneToOne.
  - rewrite (normalize_same g1 m1 m2 U1 U2 Hsame).
    by apply normalize_up_to_ids.
Qed.

Lemma normalize_ignores_key_order_witness :
  normalize sampleUuid sampleAlias = normalize sampleUuid sampleAliasSwapped /\
  sameUpToIds (sameStep sampleUuid otherUuid)
    (normalize sampleUuid sampleAlias)
    (normalize otherUuid sampleAliasSwapped).
Proof.
  destruct sampleAlias_canonical as [U1 _].
  destruct sampleAliasSwapped_same as [U2 Hsame].
  destruct (normalize_ignores_key_order sampleUuid otherUuid
              sampleUuid_inj otherUuid_inj sampleAlias sampleAliasSwapped
              U1 U2 Hsame) as (_ & Heq & _ & Hids).
  split; [exact Heq|exact Hids].
Defined.

(** * Further properties of the helpers *)

(** ** getFieldMeta *)

Lemma getChildFieldsName_cases (t : option string) :
  (getChildFieldsName t = None /\ includes fieldsWithoutMultiFields t = true) \/
  (getChildFieldsName t = Some Properties /\
   (t = Some "object" \/ t = Some "nested")) \/
  (getChildFieldsName t = Some FieldsKey /\
   includes fieldsWithoutMultiFields t = false /\
   t <> Some "object" /\ t <> Some "nested").
Proof.
  unfold getChildFieldsName.
  destruct (includes fieldsWithoutMultiFields t) eqn:Hi; [by left|].
  right.
  destruct (bool_decide (t = Some "object")) eqn:Ho;
    [apply bool_decide_eq_true in Ho; left; auto|].
  destruct (bool_decide (t = Some "nested")) eqn:Hn;
    [apply bool_decide_eq_true in Hn; left; auto|].
  apply bool_decide_eq_false in Ho, Hn. right. auto.
Qed.

Lemma nonEmptyContainer_true (c : option Fields) :
  nonEmptyContainer c = true <-> exists l, c = Some l /\ l <> [].
Proof.
  unfold nonEmptyContainer, Object_keys. split.
  - destruct c as [l|]; [|discriminate]. intros H%bool_decide_eq_true.
    exists l. split; [done|]. intros ->. simpl in H. lia.
  - intros (l & -> & Hl). apply bool_decide_eq_true.
    destruct l; [done|]. rewrite length_map. simpl. lia.
Qed.

Lemma getFieldMeta_flags (field : Field) (isMultiField : bool) :
  let m := getFieldMeta field isMultiField in
  (canHaveChildFields m = true <->
   isMultiField = false /\
   (field_type field = Some "object" \/ field_type field = Some "nested")) /\
  (canHaveMultiFields m = true <->
   isMultiField = false /\
   includes fieldsWithoutMultiFields (field_type field) = false /\
   field_type field <> Some "object" /\ field_type field <> Some "nested") /\
  (canHaveChildFields m = true -> canHaveMultiFields m = false) /\
  (hasChildFields m = true <->
   canHaveChildFields m = true /\
   exists l, field_properties field = Some l /\ l <> []) /\
  (hasMultiFields m = true <->
   canHaveMultiFields m = true /\
   exists l, field_fields field = Some l /\ l <> []) /\
  childFields m = None /\ isExpanded m = false.
Proof.
  cbv zeta. unfold getFieldMeta. cbn [canHaveChildFields canHaveMultiFields
    hasChildFields hasMultiFields childFields isExpanded].
  destruct isMultiField.
  { split_and!; try done; try (intros; discriminate);
      try (split; [discriminate|intros [? _]; discriminate]). }
  destruct (getChildFieldsName_cases (field_type field))
    as [[-> Hi]|[[-> Ht]|[-> (Hi & Ho & Hn)]]];
    cbn [field_container]; rewrite ?andb_true_l, ?andb_false_l.
  - split_and!; try done; try (intros; discriminate).
    + split; [discriminate|]. intros [_ Ht]. exfalso. revert Hi.
      destruct Ht as [-> | ->]; vm_compute; discriminate.
    + split; [discriminate|]. intros (_ & Hi' & _). congruence.
    + split; [discriminate|]. intros [? _]; discriminate.
    + split; [discriminate|]. intros [? _]; discriminate.
  - assert (Hi : includes fieldsWithoutMultiFields (field_type field) = false).
    { destruct Ht as [-> | ->]; vm_compute; reflexivity. }
    rewrite nonEmptyContainer_true.
    split_and!; try done.
    + split; [discriminate|]. intros (_ & _ & Ho & Hn). destruct Ht; congruence.
    + split; [intros H; split; [done|exact H]|intros [_ H]; exact H].
    + split; [discriminate|]. intros [? _]; discriminate.
  - rewrite nonEmptyContainer_true.
    split_and!; try done; try (intros; discriminate).
    + split; [discriminate|]. intros [_ Ht]. destruct Ht; congruence.
    + split; [discriminate|]. intros [? _]; discriminate.
    + split; [intros H; split; [done|exact H]|intros [_ H]; exact H].
Qed.

(** X1: the capabilities [getFieldMeta] reports exclude each other: a
    field can hold child fields (type object or nested) or multi-fields
    (any other type but the eight without multi-fields), never both, and
    a multi-field neither; [hasChildFields] holds exactly when the field
    can have child fields and its [properties] are a non-empty object,
    [hasMultiFields] exactly when it can have multi-fields and its
    [fields] are a non-empty object; [childFields] is left unset and
    [isExpanded] is false. *)
Theorem getFieldMeta_capabilities (field : Field) (isMultiField : bool) :
  let m := getFieldMeta field isMultiField in
  (canHaveChildFields m = true <->
   isMultiField = false /\
   (field_type field = Some "object" \/ field_type field = Some "nested")) /\
  (canHaveMultiFields m = true <->
   isMultiField = false /\
   includes fieldsWithoutMultiFields (field_type field) = false /\
   field_type field <> Some "object" /\ field_type field <> Some "nested") /\
  (canHaveChildFields m = true -> canHaveMultiFields m = false) /\
  (hasChildFields m = true <->
   canHaveChildFields m = true /\
   exists l, field_properties field = Some l /\ l <> []) /\
  (hasMultiFields m = true <->
   canHaveMultiFields m = true /\
   exists l, field_fields field = Some l /\ l <> []) /\
  childFields m = None /\ isExpanded m = false.
Proof. apply getFieldMeta_flags. Qed.

(** ** shouldDeleteChildFieldsAfterTypeChange *)

(** The four types that hold children, each with the one type that holds
    them under the same key. *)
Lemma shouldDelete_false (oldType newType : string) :
  shouldDeleteChildFieldsAfterTypeChange oldType newType = false <->
  (oldType = "text" /\ newType = "keyword") \/
  (oldType = "keyword" /\ newType = "text") \/
  (oldType = "object" /\ newType = "nested") \/
  (oldType = "nested" /\ newType = "object") \/
  (oldType <> "text" /\ oldType <> "keyword" /\
   oldType <> "object" /\ oldType <> "nested").
Proof.
  unfold shouldDeleteChildFieldsAfterTypeChange.
  repeat case_bool_decide; subst; simpl; split; try done;
    try (intros _; tauto);
    intros ?; exfalso; destruct_or?; destruct_and?; congruence.
Qed.

(** X2: [shouldDeleteChildFieldsAfterTypeChange] answers false exactly
    for the changes text -> keyword, keyword -> text, object -> nested and
    nested -> object, and for every change from a type other than these
    four; so it answers true for every other change from one of the four,
    the change of a type to itself included. *)
Theorem shouldDeleteChildFields_cases (oldType newType : string) :
  (shouldDeleteChildFieldsAfterTypeChange oldType newType = false <->
   (oldType = "text" /\ newType = "keyword") \/
   (oldType = "keyword" /\ newType = "text") \/
   (oldType = "object" /\ newType = "nested") \/
   (oldType = "nested" /\ newType = "object") \/
   (oldType <> "text" /\ oldType <> "keyword" /\
    oldType <> "object" /\ oldType <> "nested")) /\
  (oldType ∈ ["text"; "keyword"; "object"; "nested"] ->
   shouldDeleteChildFieldsAfterTypeChange oldType oldType = true).
Proof.
  split; [apply shouldDelete_false|].
  intros H. destruct (shouldDeleteChildFieldsAfterTypeChange oldType oldType)
    eqn:E; [done|]. exfalso. apply shouldDelete_false in E.
  rewrite !elem_of_cons, elem_of_nil in H.
  destruct_or?; destruct_and?; subst; try done; congruence.
Qed.

(** X3: when a field of type text, keyword, object or nested changes its
    type and [shouldDeleteChildFieldsAfterTypeChange] answers false, the
    new type keeps its children under the same key: [getChildFieldsName]
    is the same for both types, and it is defined. *)
Theorem kept_children_stay_under_the_same_key (oldType newType : string) :
  oldType ∈ ["text"; "keyword"; "object"; "nested"] ->
  shouldDeleteChildFieldsAfterTypeChange oldType newType = false ->
  getChildFieldsName (Some newType) = getChildFieldsName (Some oldType) /\
  is_Some (getChildFieldsName (Some oldType)).
Proof.
  intros H E. apply shouldDelete_false in E.
  rewrite !elem_of_cons, elem_of_nil in H.
  destruct_or?; destruct_and?; subst; try done;
    (split; [vm_compute; reflexivity|vm_compute; eauto]).
Qed.

Lemma kept_children_stay_under_the_same_key_witness :
  getChildFieldsName (Some "nested") = getChildFieldsName (Some "object") /\
  is_Some (getChildFieldsName (Some "object")).
Proof.
  apply (kept_children_stay_under_the_same_key "object" "nested").
  - repeat constructor.
  - vm_compute. reflexivity.
Defined.

(** ** filterTypesForMultiField, filterTypesForNonRootFields *)

Lemma filter_filter_comm {A} (p q : A -> bool) (l : list A) :
  List.filter p (List.filter q l) = List.filter q (List.filter p l).
Proof.
  induction l as [|x l IH]; [done|]. simpl.
  destruct (p x) eqn:Hp, (q x) eqn:Hq; simpl; rewrite ?Hp, ?Hq, IH; done.
Qed.

Lemma filter_filter_same {A} (p : A -> bool) (l : list A) :
  List.filter p (List.filter p l) = List.filter p l.
Proof.
  induction l as [|x l IH]; [done|]. simpl.
  destruct (p x) eqn:Hp; simpl; rewrite ?Hp, IH; done.
Qed.

Lemma filter_sublist {A} (p : A -> bool) (l : list A) :
  List.filter p l `sublist_of` l.
Proof.
  induction l as [|x l IH]; [constructor|]. simpl.
  destruct (p x); by constructor.
Qed.

(** X4: [filterTypesForMultiField] keeps, in their order, exactly the
    options whose value is not one of [TYPE_NOT_ALLOWED_MULTIFIELD] (an
    option without a value is kept), [filterTypesForNonRootFields] the
    same for [TYPE_ONLY_ALLOWED_AT_ROOT_LEVEL]; the two filters can be
    applied in either order, and applying one twice changes nothing. *)
Theorem filterTypes_keep_allowed_options
  (notMulti onlyRoot : list string) (options : list ComboBoxOption) :
  (forall o, o ∈ filterTypesForMultiField notMulti options <->
             o ∈ options /\
             forall v, opt_value o = Some v -> v ∉ notMulti) /\
  (forall o, o ∈ filterTypesForNonRootFields onlyRoot options <->
             o ∈ options /\
             forall v, opt_value o = Some v -> v ∉ onlyRoot) /\
  filterTypesForMultiField notMulti options `sublist_of` options /\
  filterTypesForNonRootFields onlyRoot options `sublist_of` options /\
  filterTypesForMultiField notMulti
    (filterTypesForNonRootFields onlyRoot options)
  = filterTypesForNonRootFields onlyRoot
      (filterTypesForMultiField notMulti options) /\
  filterTypesForMultiField notMulti (filterTypesForMultiField notMulti options)
  = filterTypesForMultiField notMulti options /\
  filterTypesForNonRootFields onlyRoot
    (filterTypesForNonRootFields onlyRoot options)
  = filterTypesForNonRootFields onlyRoot options.
Proof.
  assert (Hin : forall (l : list string) o,
             bool_decide (includes l (opt_value o) = false) = true <->
             forall v, opt_value o = Some v -> v ∉ l).
  { intros l o. rewrite bool_decide_eq_true. unfold includes.
    destruct (opt_value o) as [v|].
    - rewrite bool_decide_eq_false. split; [intros H ? [= <-]; done|auto].
    - split; [intros _ ? [=]|done]. }
  unfold filterTypesForMultiField, filterTypesForNonRootFields.
  split_and!.
  - intros o. rewrite list_elem_of_In, filter_In, <- list_elem_of_In, Hin. tauto.
  - intros o. rewrite list_elem_of_In, filter_In, <- list_elem_of_In, Hin. tauto.
  - apply filter_sublist.
  - apply filter_sublist.
  - apply filter_filter_comm.
  - apply filter_filter_same.
  - apply filter_filter_same.
Qed.

(** ** getMaxNestedDepth *)

Lemma fold_max_spec {A} (g : A -> nat) (l : list A) (a : nat) :
  let r := fold_left (fun m x => Nat.max m (g x)) l a in
  a <= r /\ Forall (fun x => g x <= r) l /\
  (r = a \/ exists x, x ∈ l /\ g x = r).
Proof.
  revert a. induction l as [|x l IH]; intros a; cbn [fold_left].
  { split_and!; [done|constructor|by left]. }
  destruct (IH (Nat.max a (g x))) as (H1 & H2 & H3). cbv zeta in *.
  split_and!.
  - lia.
  - constructor; [lia|done].
  - destruct H3 as [H3|(y & Hy & Hg)].
    + destruct (Nat.max_spec a (g x)) as [[_ Hm]|[_ Hm]].
      * right. exists x. split; [left|]. lia.
      * left. lia.
    + right. exists y. split; [by right|done].
Qed.

(** X5: [getMaxNestedDepth] is the largest [nestedDepth] of the map: no
    field of the map is deeper, some field of a map that is not empty is
    that deep, and the empty map gives 0. *)
Theorem getMaxNestedDepth_is_the_maximum (byId : ById) :
  (forall id f, (id, f) ∈ byId -> nestedDepth f <= getMaxNestedDepth byId) /\
  (byId <> [] ->
   exists id f, (id, f) ∈ byId /\ nestedDepth f = getMaxNestedDepth byId) /\
  getMaxNestedDepth [] = 0.
Proof.
  unfold getMaxNestedDepth, Object_values.
  destruct (fold_max_spec nestedDepth (map snd byId) 0) as (_ & H2 & H3).
  cbv zeta in *. split_and!; [| |done].
  - intros id f Hin. rewrite Forall_forall in H2. apply H2.
    apply list_elem_of_In, in_map_iff. exists (id, f).
    split; [done|by apply list_elem_of_In].
  - intros Hne. destruct H3 as [H3|(f & Hf & Hg)].
    + destruct byId as [|[id f] rest]; [done|].
      destruct (decide (nestedDepth f = 0)) as [H0|H0].
      * exists id, f. split; [left|]. lia.
      * exfalso. rewrite Forall_forall in H2.
        specialize (H2 f). simpl in H2, H3. rewrite H3 in H2.
        assert (nestedDepth f <= 0) by (apply H2; left). lia.
    + apply list_elem_of_In, in_map_iff in Hf as ([id f'] & Heq & Hin).
      simpl in Heq. subst f'. exists id, f.
      split; [by apply list_elem_of_In|done].
Qed.

Lemma getMaxNestedDepth_app (o1 o2 : ById) :
  getMaxNestedDepth (o1 ++ o2)
  = Nat.max (getMaxNestedDepth o1) (getMaxNestedDepth o2).
Proof.
  unfold getMaxNestedDepth, Object_values. rewrite map_app, fold_left_app.
  generalize (fold_left (fun m f => Nat.max m (nestedDepth f)) (map snd o1) 0).
  induction (map snd o2) as [|f l IH] using rev_ind; intros a.
  - simpl. lia.
  - rewrite !fold_left_app. simpl. rewrite IH. lia.
Qed.

Lemma getMaxNestedDepth_singleton (id : string) (f : NormalizedField) :
  getMaxNestedDepth [(id, f)] = nestedDepth f.
Proof. reflexivity. Qed.

Lemma getMaxNestedDepth_resolved (o byId : ById) :
  getMaxNestedDepth (map (resolveEntry o) byId) = getMaxNestedDepth byId.
Proof.
  unfold getMaxNestedDepth, Object_values. rewrite map_map.
  generalize 0. induction byId as [|[id f] l IH]; intros a; [done|].
  simpl. rewrite IH. f_equal. f_equal. unfold resolveField.
  by destruct (aliasTargetId o f).
Qed.

Lemma has_children_sorted_nonempty (field : Field) (im : bool) :
  hasChildFields (getFieldMeta field im)
  || hasMultiFields (getFieldMeta field im) = true ->
  sortEntries (childrenOf field (childFieldsName (getFieldMeta field im)))
  <> [].
Proof.
  intros H Hnil.
  pose proof (sortEntries_Permutation
                (childrenOf field (childFieldsName (getFieldMeta field im))))
    as Hp.
  rewrite Hnil in Hp. apply Permutation_nil_l in Hp.
  destruct (getFieldMeta_flags field im)
    as (_ & _ & _ & Hc & Hm & _). cbv zeta in *.
  apply orb_true_iff in H as [H|H].
  - apply Hc in H as (Hcan & l & Hl & Hne).
    revert Hcan Hp. unfold getFieldMeta.
    cbn [canHaveChildFields childFieldsName]. destruct im; [done|].
    intros ->%bool_decide_eq_true. unfold childrenOf. rewrite Hl. done.
  - apply Hm in H as (Hcan & l & Hl & Hne).
    revert Hcan Hp. unfold getFieldMeta.
    cbn [canHaveMultiFields childFieldsName]. destruct im; [done|].
    intros ->%bool_decide_eq_true. unfold childrenOf. rewrite Hl. done.
Qed.

Section MaxDepth.

Variable uuidv4 : nat -> string.
Hypothesis uuidv4_inj : forall i j, uuidv4 i = uuidv4 j -> i = j.

Lemma entriesRun_maxDepth :
  forall entries paths d im pid n,
    (entries = [] ->
     to (entriesRun uuidv4 entries paths d im pid n).1 = [] /\
     maxDepth (entriesRun uuidv4 entries paths d im pid n).1 = 0) /\
    (entries <> [] ->
     getMaxNestedDepth (to (entriesRun uuidv4 entries paths d im pid n).1)
     = Nat.max d (maxDepth (entriesRun uuidv4 entries paths d im pid n).1)).
Proof.
  apply (entriesRun_ind uuidv4 uuidv4_inj
           (fun k v paths d im pid n r =>
              getMaxNestedDepth (to r.1) = Nat.max d (maxDepth r.1))
           (fun entries paths d im pid n r =>
              (entries = [] -> to r.1 = [] /\ maxDepth r.1 = 0) /\
              (entries <> [] ->
               getMaxNestedDepth (to r.1) = Nat.max d (maxDepth r.1)))).
  - intros k v paths d im pid n _. cbn [fst to maxDepth].
    rewrite getMaxNestedDepth_singleton. cbn. lia.
  - intros k v paths d im pid n rc m kids Hhas _ [_ Hne].
    cbn [fst to maxDepth].
    rewrite getMaxNestedDepth_app, getMaxNestedDepth_singleton.
    rewrite Hne by (apply has_children_sorted_nonempty; exact Hhas).
    cbn [nestedDepth entryOf]. lia.
  - intros paths d im pid n. split; [done|]. intros H. done.
  - intros k v entries paths d im pid n r1 r2 _ _ H1 [Hnil Hne].
    split; [done|]. intros _. cbn [fst to maxDepth].
    rewrite getMaxNestedDepth_app, H1.
    destruct entries as [|e entries].
    + destruct Hnil as [-> ->]; [done|]. cbn. lia.
    + rewrite Hne by done. lia.
Qed.

Lemma getMaxNestedDepth_normalize (m : Fields) :
  getMaxNestedDepth (byId (normalize uuidv4 m))
  = maxNestedDepth (normalize uuidv4 m).
Proof.
  rewrite normalize_byId, getMaxNestedDepth_resolved, walked_eq.
  rewrite normalize_eq. cbv zeta. cbn [maxNestedDepth].
  destruct (entriesRun_maxDepth (sortEntries m) [] 0 false None 0)
    as [Hnil Hne]. cbv zeta in *.
  destruct (sortEntries m) as [|e l] eqn:E.
  - destruct Hnil as [-> ->]; done.
  - rewrite Hne by done. lia.
Qed.

End MaxDepth.

(** X6: when the generated ids are distinct, the [maxNestedDepth] that
    [normalize] returns is the depth of its deepest field: it is what
    [getMaxNestedDepth] computes from the [byId] of the same result. *)
Theorem normalize_maxNestedDepth_is_getMaxNestedDepth
  (uuidv4 : nat -> string)
  (uuidv4_inj : forall i j, uuidv4 i = uuidv4 j -> i = j)
  (m : Fields) :
  getMaxNestedDepth (byId (normalize uuidv4 m))
  = maxNestedDepth (normalize uuidv4 m).
Proof. by apply getMaxNestedDepth_normalize. Qed.

Lemma normalize_maxNestedDepth_is_getMaxNestedDepth_witness :
  getMaxNestedDepth (byId (normalize sampleUuid sampleNestedMulti))
  = maxNestedDepth (normalize sampleUuid sampleNestedMulti).
Proof.
  exact (normalize_maxNestedDepth_is_getMaxNestedDepth sampleUuid
           sampleUuid_inj sampleNestedMulti).
Defined.

(** ** The tree that normalize builds *)

Lemma subtreeWithin_mono (n n' : nat) (byId : ById) (f : NormalizedField) :
  n <= n' -> subtreeWithin n byId f -> subtreeWithin n' byId f.
Proof.
  revert n' f. induction n as [|n IH]; intros n' f Hle H; [done|].
  destruct n' as [|n']; [lia|]. cbn [subtreeWithin] in *.
  destruct (childFields (meta f)) as [ids|]; [|done].
  destruct H as [Hh Hall]. split; [done|].
  eapply Forall_impl; [exact Hall|]. intros id (c & Hc & Hs).
  exists c. split; [done|]. apply IH; [lia|done].
Qed.

Lemma subtreeWithin_resolves (n : nat) (byId : ById) (f : NormalizedField) :
  subtreeWithin n byId f -> resolvesWithin n byId f.
Proof.
  revert f. induction n as [|n IH]; intros f H; [done|].
  cbn [subtreeWithin resolvesWithin] in *.
  destruct (childFields (meta f)) as [ids|].
  - destruct H as [-> Hall]. eapply Forall_impl; [exact Hall|].
    intros id (c & Hc & Hs). exists c. split; [done|]. by apply IH.
  - by rewrite H.
Qed.

Lemma subtreeWithin_meta (n : nat) (byId : ById) (f g : NormalizedField) :
  meta f = meta g -> subtreeWithin n byId f -> subtreeWithin n byId g.
Proof.
  destruct n; [done|]. cbn [subtreeWithin]. unfold hasChildren.
  by intros ->.
Qed.

Lemma fieldHeight_typedField (v : Field) :
  fieldHeight (typedField v) = fieldHeight v.
Proof. by destruct v. Qed.

Lemma children_height (v : Field) (c : option ChildFieldName)
  (e : string * Field) :
  e ∈ childrenOf v c -> S (fieldHeight e.2) <= fieldHeight v.
Proof.
  destruct v as [t p ps fs o]. unfold childrenOf.
  cbn [field_properties field_fields fieldHeight].
  destruct c as [[|]|]; [| |by intros ?%elem_of_nil].
  - destruct ps as [l|]; [|by intros ?%elem_of_nil]. cbn [default].
    intros Hin.
    assert (Forall (fun e => fieldHeight e.2
              <= fold_right Nat.max 0 (map (fun '(_, x) => fieldHeight x) l)) l)
      as Hall by (by apply max_heights_le).
    eapply Forall_forall in Hall; [|exact Hin]. lia.
  - destruct fs as [l|]; [|by intros ?%elem_of_nil]. cbn [default].
    intros Hin.
    assert (Forall (fun e => fieldHeight e.2
              <= fold_right Nat.max 0 (map (fun '(_, x) => fieldHeight x) l)) l)
      as Hall by (by apply max_heights_le).
    eapply Forall_forall in Hall; [|exact Hin]. lia.
Qed.

Lemma holdsMetaOf_app_l (S o1 o2 : ById) :
  holdsMetaOf S (o1 ++ o2) -> holdsMetaOf S o1.
Proof. intros H e He. apply H, elem_of_app. by left. Qed.

Lemma holdsMetaOf_app_r (S o1 o2 : ById) :
  holdsMetaOf S (o1 ++ o2) -> holdsMetaOf S o2.
Proof. intros H e He. apply H, elem_of_app. by right. Qed.

Section Subtrees.

Variable uuidv4 : nat -> string.
Hypothesis uuidv4_inj : forall i j, uuidv4 i = uuidv4 j -> i = j.

Lemma entriesRun_subtrees :
  forall entries paths d im pid n,
    (forall id, id ∈ (entriesRun uuidv4 entries paths d im pid n).2 ->
       exists f, (id, f) ∈ to (entriesRun uuidv4 entries paths d im pid n).1) /\
    forall h, Forall (fun e => fieldHeight e.2 <= h) entries ->
      forall S, holdsMetaOf S (to (entriesRun uuidv4 entries paths d im pid n).1) ->
        forall e f,
          e ∈ to (entriesRun uuidv4 entries paths d im pid n).1 ->
          meta f = meta e.2 -> subtreeWithin (Datatypes.S h) S f.
Proof.
  apply (entriesRun_ind uuidv4 uuidv4_inj
           (fun k v paths d im pid n r =>
              (exists f, (r.2, f) ∈ to r.1) /\
              forall S, holdsMetaOf S (to r.1) ->
                forall e f, e ∈ to r.1 -> meta f = meta e.2 ->
                  subtreeWithin (Datatypes.S (fieldHeight v)) S f)
           (fun entries paths d im pid n r =>
              (forall id, id ∈ r.2 -> exists f, (id, f) ∈ to r.1) /\
              forall h, Forall (fun e => fieldHeight e.2 <= h) entries ->
                forall S, holdsMetaOf S (to r.1) ->
                  forall e f, e ∈ to r.1 -> meta f = meta e.2 ->
                    subtreeWithin (Datatypes.S h) S f)).
  - (* a field without children *)
    intros k v paths d im pid n Hno. cbn [fst snd to]. split.
    { eexists. apply list_elem_of_singleton. reflexivity. }
    intros S _ e f ->%list_elem_of_singleton Hm.
    cbn [snd] in Hm. unfold entryOf in Hm. cbn [meta] in Hm.
    cbn [subtreeWithin]. unfold hasChildren. rewrite Hm.
    unfold getFieldMeta at 1. cbn [childFields]. exact Hno.
  - (* a field with children *)
    intros k v paths d im pid n rc m kids Hhas _ [Hids IH].
    cbn [fst snd to]. split.
    { eexists. apply elem_of_app. right. apply list_elem_of_singleton.
      reflexivity. }
    assert (Hkids : Forall (fun e => S (fieldHeight e.2) <= fieldHeight v) kids).
    { apply sortEntries_Forall, Forall_forall. intros e He.
      rewrite <- (fieldHeight_typedField v). by eapply children_height. }
    assert (Hpos : 1 <= fieldHeight v).
    { destruct kids as [|e kids'] eqn:E.
      - by apply has_children_sorted_nonempty in Hhas.
      - apply Forall_cons in Hkids as [? _]. lia. }
    assert (Hbelow : forall S, holdsMetaOf S (to rc.1) ->
              forall e f, e ∈ to rc.1 -> meta f = meta e.2 ->
                subtreeWithin (fieldHeight v) S f).
    { intros S HS e f He Hm.
      replace (fieldHeight v) with (Datatypes.S (fieldHeight v - 1)) by lia.
      eapply (IH (fieldHeight v - 1)); [|exact HS|exact He|exact Hm].
      eapply Forall_impl; [exact Hkids|]. intros ? ?. simpl in *. lia. }
    intros S HS e f [He| ->%list_elem_of_singleton]%elem_of_app Hm.
    + apply (subtreeWithin_mono (fieldHeight v)); [lia|].
      eapply Hbelow; [by eapply holdsMetaOf_app_l|exact He|exact Hm].
    + cbn [snd] in Hm. unfold entryOf in Hm. cbn [meta] in Hm.
      cbn [subtreeWithin]. unfold hasChildren. rewrite Hm.
      cbn [set_childFields childFields hasChildFields hasMultiFields].
      split; [exact Hhas|].
      apply Forall_forall. intros id Hid.
      destruct (Hids id Hid) as [c0 Hc0].
      destruct (holdsMetaOf_app_l _ _ _ HS _ Hc0) as (c & Hc & Hmc).
      exists c. split; [exact Hc|].
      eapply Hbelow; [by eapply holdsMetaOf_app_l|exact Hc0|exact Hmc].
  - intros paths d im pid n. cbn [fst snd to startAt]. split.
    + by intros id ?%elem_of_nil.
    + by intros h _ S _ e f ?%elem_of_nil.
  - intros k v entries paths d im pid n r1 r2 _ _ [[f1 Hf1] H1] [Hids H2].
    cbn [fst snd to]. split.
    + intros id [->|Hid]%elem_of_cons.
      * exists f1. apply elem_of_app. by left.
      * destruct (Hids id Hid) as [f Hf]. exists f. apply elem_of_app.
        by right.
    + intros h [Hv Hall]%Forall_cons S HS e f [He|He]%elem_of_app Hm.
      * apply (subtreeWithin_mono (Datatypes.S (fieldHeight v)));
          [simpl in Hv; lia|].
        eapply H1; [by eapply holdsMetaOf_app_l|exact He|exact Hm].
      * eapply H2; [exact Hall|by eapply holdsMetaOf_app_r|exact He|exact Hm].
Qed.

End Subtrees.

Lemma linkedBelow_app (pid : option string) (paths ids1 ids2 : list string)
  (o1 o2 : ById) :
  linkedBelow pid paths ids1 o1 -> linkedBelow pid paths ids2 o2 ->
  linkedBelow pid paths (ids1 ++ ids2) (o1 ++ o2).
Proof.
  unfold linkedBelow. intros H1 H2. apply Forall_app. split.
  - eapply Forall_impl; [exact H1|]. intros e [(? & ? & ?)|(p & l & ? & ?)].
    + left. split_and!; [done|done|]. apply elem_of_app. by left.
    + right. exists p, l. split; [|done]. apply elem_of_app. by left.
  - eapply Forall_impl; [exact H2|]. intros e [(? & ? & ?)|(p & l & ? & ?)].
    + left. split_and!; [done|done|]. apply elem_of_app. by right.
    + right. exists p, l. split; [|done]. apply elem_of_app. by right.
Qed.

Lemma listedBelow_app (pid : option string) (ids1 ids2 : list string)
  (o1 o2 : ById) :
  listedBelow pid ids1 o1 -> listedBelow pid ids2 o2 ->
  listedBelow pid (ids1 ++ ids2) (o1 ++ o2).
Proof.
  intros [A1 B1] [A2 B2]. split.
  - intros id [Hid|Hid]%elem_of_app.
    + destruct (A1 id Hid) as (c & ? & ?). exists c. split; [|done].
      apply elem_of_app. by left.
    + destruct (A2 id Hid) as (c & ? & ?). exists c. split; [|done].
      apply elem_of_app. by right.
  - intros p l id [Hp|Hp]%elem_of_app Hl Hid.
    + destruct (B1 p l id Hp Hl Hid) as (c & ? & ?). exists c.
      split; [|done]. apply elem_of_app. by left.
    + destruct (B2 p l id Hp Hl Hid) as (c & ? & ?). exists c.
      split; [|done]. apply elem_of_app. by right.
Qed.

Section Links.

Variable uuidv4 : nat -> string.
Hypothesis uuidv4_inj : forall i j, uuidv4 i = uuidv4 j -> i = j.

Lemma entriesRun_ids_fresh entries paths d im pid n n' :
  n' < n -> uuidv4 n' ∉ (entriesRun uuidv4 entries paths d im pid n).2.
Proof.
  intros Hlt Hin.
  destruct (entriesRun_subtrees uuidv4 uuidv4_inj entries paths d im pid n)
    as [Hids _].
  destruct (Hids _ Hin) as [f Hf].
  destruct (all_entries_append uuidv4 uuidv4_inj entries paths d im pid n)
    as [[_ Hw] _]. cbv zeta in Hw.
  eapply (idsWithin_fresh uuidv4 uuidv4_inj); [exact Hw| |].
  - left. exact Hlt.
  - apply list_elem_of_fmap. by exists (uuidv4 n', f).
Qed.

Lemma entriesRun_links :
  forall entries paths d im pid n,
    linkedBelow pid paths (entriesRun uuidv4 entries paths d im pid n).2
      (to (entriesRun uuidv4 entries paths d im pid n).1) /\
    listedBelow pid (entriesRun uuidv4 entries paths d im pid n).2
      (to (entriesRun uuidv4 entries paths d im pid n).1) /\
    NoDup (entriesRun uuidv4 entries paths d im pid n).2 /\
    listsOnce (to (entriesRun uuidv4 entries paths d im pid n).1).
Proof.
  apply (entriesRun_ind uuidv4 uuidv4_inj
           (fun k v paths d im pid n r =>
              linkedBelow pid paths [r.2] (to r.1) /\
              listedBelow pid [r.2] (to r.1) /\ listsOnce (to r.1))
           (fun entries paths d im pid n r =>
              linkedBelow pid paths r.2 (to r.1) /\
              listedBelow pid r.2 (to r.1) /\ NoDup r.2 /\
              listsOnce (to r.1))).
  - intros k v paths d im pid n Hno. cbn [fst snd to]. split_and!.
    + constructor; [|constructor]. left. cbn. split_and!; [done|done|].
      by apply list_elem_of_singleton.
    + split.
      * intros id ->%list_elem_of_singleton. eexists. split.
        { apply list_elem_of_singleton. reflexivity. }
        done.
      * intros p l id ->%list_elem_of_singleton Hl. cbn in Hl. done.
    + constructor; [|constructor]. intros l Hl. cbn in Hl. done.
  - intros k v paths d im pid n rc m kids Hhas _ (HA & [HB1 HB2] & Hnd & Honce).
    cbn [fst snd to].
    set (entry := entryOf uuidv4 k v paths d im pid n (Some rc.2)).
    assert (Hpath : nf_path entry = paths ++ [k]) by done.
    assert (Hkids : childFields (meta entry) = Some rc.2) by done.
    split_and!.
    + apply Forall_app. split.
      * eapply Forall_impl; [exact HA|].
        intros e [(Hp & Hpa & Hin)|(p & l & Hp & Hrest)].
        -- right. exists (uuidv4 n, entry), rc.2. split_and!; try done.
           apply elem_of_app. right. by apply list_elem_of_singleton.
        -- right. exists p, l. split; [|done]. apply elem_of_app. by left.
      * constructor; [|constructor]. left. split_and!; [done|done|].
        by apply list_elem_of_singleton.
    + split.
      * intros id ->%list_elem_of_singleton. exists entry. split; [|done].
        apply elem_of_app. right. by apply list_elem_of_singleton.
      * intros p l id [Hp| ->%list_elem_of_singleton]%elem_of_app Hl Hid.
        -- destruct (HB2 p l id Hp Hl Hid) as (c & ? & ?). exists c.
           split; [|done]. apply elem_of_app. by left.
        -- cbn [snd] in Hl. rewrite Hkids in Hl. injection Hl as <-.
           destruct (HB1 id Hid) as (c & ? & ?). exists c.
           split; [|done]. apply elem_of_app. by left.
    + apply Forall_app. split; [exact Honce|]. constructor; [|constructor].
      intros l Hl. cbn [snd] in Hl. rewrite Hkids in Hl. by injection Hl as <-.
  - intros paths d im pid n. cbn [fst snd to startAt]. split_and!.
    + constructor.
    + split; [by intros id ?%elem_of_nil|by intros p l id ?%elem_of_nil].
    + constructor.
    + constructor.
  - intros k v entries paths d im pid n r1 r2 Hr1 Hr2 (HA1 & HB1 & Ho1)
      (HA2 & HB2 & Hnd & Ho2).
    cbn [fst snd to]. split_and!.
    + by apply (linkedBelow_app pid paths [r1.2] r2.2).
    + by apply (listedBelow_app pid [r1.2] r2.2).
    + constructor; [|exact Hnd].
      destruct (field_appends uuidv4 uuidv4_inj v k paths d im pid n)
        as [(Hid & Hlt & _) _]. cbv zeta in Hid, Hlt.
      rewrite Hr1, Hid, Hr2. apply entriesRun_ids_fresh.
      rewrite Hr1. exact Hlt.
    + apply Forall_app. by split.
Qed.

End Links.

Section NormalizedTree.

Variable uuidv4 : nat -> string.
Hypothesis uuidv4_inj : forall i j, uuidv4 i = uuidv4 j -> i = j.

Lemma resolveField_meta (o : ById) (f : NormalizedField) :
  meta (resolveField o f) = meta f.
Proof. by destruct (resolveField_same o f) as [p ->]. Qed.

Lemma resolveField_parentId (o : ById) (f : NormalizedField) :
  parentId (resolveField o f) = parentId f.
Proof. by destruct (resolveField_same o f) as [p ->]. Qed.

Lemma resolveField_name (o : ById) (f : NormalizedField) :
  src_name (source (resolveField o f)) = src_name (source f).
Proof. by destruct (resolveField_same o f) as [p ->]. Qed.

Lemma normalize_get_walked (m : Fields) (id : string) (f0 : NormalizedField) :
  (id, f0) ∈ walked uuidv4 m ->
  obj_get (byId (normalize uuidv4 m)) id
  = Some (resolveField (walked uuidv4 m) f0).
Proof.
  intros Hin. rewrite normalize_byId, obj_get_resolved.
  by rewrite (obj_get_elem _ _ _ (walked_NoDup uuidv4 m) Hin).
Qed.

Lemma normalize_holdsMetaOf (m : Fields) :
  holdsMetaOf (byId (normalize uuidv4 m)) (walked uuidv4 m).
Proof.
  intros [id f0] Hin. exists (resolveField (walked uuidv4 m) f0). split.
  - by apply normalize_get_walked.
  - apply resolveField_meta.
Qed.

Lemma normalize_rootLevelFields_run (m : Fields) :
  rootLevelFields (normalize uuidv4 m)
  = (entriesRun uuidv4 (sortEntries m) [] 0 false None 0).2.
Proof. by rewrite normalize_rootLevelFields, normalizeFields_unfold. Qed.

Lemma fieldsHeight_sorted (m : Fields) :
  Forall (fun e => fieldHeight e.2 <= fieldsHeight m - 1) (sortEntries m).
Proof.
  apply sortEntries_Forall, max_heights_le. unfold fieldsHeight. lia.
Qed.

Lemma normalize_subtrees (m : Fields) (id : string) (f : NormalizedField) :
  (id, f) ∈ byId (normalize uuidv4 m) ->
  obj_get (byId (normalize uuidv4 m)) id = Some f /\ nf_id f = id /\
  subtreeWithin (fieldsHeight m) (byId (normalize uuidv4 m)) f.
Proof.
  intros Hin. split_and!.
  - apply obj_get_elem; [apply normalize_NoDup|done].
  - apply normalize_byId_elem in Hin as (f0 & Hin0 & ->).
    rewrite resolveField_id.
    pose proof (walked_ids_consistent uuidv4 m) as Hall.
    eapply Forall_forall in Hall; [|exact Hin0]. done.
  - apply normalize_byId_elem in Hin as (f0 & Hin0 & ->).
    destruct (entriesRun_subtrees uuidv4 uuidv4_inj (sortEntries m) [] 0
                false None 0) as [_ H].
    replace (fieldsHeight m) with (S (fieldsHeight m - 1))
      by (unfold fieldsHeight; lia).
    eapply (H _ (fieldsHeight_sorted m)).
    + rewrite <- walked_eq. apply normalize_holdsMetaOf.
    + rewrite <- walked_eq. exact Hin0.
    + apply resolveField_meta.
Qed.

Lemma normalize_roots_resolve (m : Fields) (id : string) :
  id ∈ rootLevelFields (normalize uuidv4 m) ->
  is_Some (obj_get (byId (normalize uuidv4 m)) id).
Proof.
  rewrite normalize_rootLevelFields_run. intros Hin.
  destruct (entriesRun_subtrees uuidv4 uuidv4_inj (sortEntries m) [] 0
              false None 0) as [H _].
  destruct (H id Hin) as [f0 Hf0]. rewrite <- walked_eq in Hf0.
  rewrite (normalize_get_walked m id f0 Hf0). eauto.
Qed.

Lemma normalize_links (m : Fields) :
  linkedBelow None [] (rootLevelFields (normalize uuidv4 m))
    (byId (normalize uuidv4 m)) /\
  listedBelow None (rootLevelFields (normalize uuidv4 m))
    (byId (normalize uuidv4 m)) /\
  NoDup (rootLevelFields (normalize uuidv4 m)) /\
  listsOnce (byId (normalize uuidv4 m)).
Proof.
  destruct (entriesRun_links uuidv4 uuidv4_inj (sortEntries m) [] 0 false
              None 0) as (HA & [HB1 HB2] & Hnd & Honce).
  rewrite <- normalize_rootLevelFields_run, <- walked_eq in *.
  rewrite normalize_byId.
  set (w := walked uuidv4 m) in *.
  assert (Hmap : forall e, e ∈ w -> resolveEntry w e ∈ map (resolveEntry w) w).
  { intros e He. apply list_elem_of_fmap. by exists e. }
  split_and!; [| |exact Hnd|].
  - apply Forall_forall. intros e' He'.
    apply list_elem_of_fmap in He' as (e & -> & He).
    unfold linkedBelow in HA. eapply Forall_forall in HA; [|exact He].
    unfold resolveEntry at 1 2 3 4. cbn [fst snd].
    rewrite resolveField_parentId, resolveField_path, resolveField_name.
    destruct HA as [HA|(p & l & Hp & ? & ? & ? & ?)]; [by left|].
    right. exists (resolveEntry w p), l. split; [by apply Hmap|].
    unfold resolveEntry. cbn [fst snd].
    by rewrite ?resolveField_parentId, ?resolveField_path,
      ?resolveField_meta, ?resolveField_name.
  - split.
    + intros id Hid. destruct (HB1 id Hid) as (c & Hc & Hpc).
      exists (resolveField w c). split.
      * apply (Hmap (id, c)). exact Hc.
      * by rewrite resolveField_parentId.
    + intros p' l id Hp' Hl Hid.
      apply list_elem_of_fmap in Hp' as (p & -> & Hp).
      unfold resolveEntry in Hl. cbn [fst snd] in Hl.
      rewrite resolveField_meta in Hl.
      destruct (HB2 p l id Hp Hl Hid) as (c & Hc & Hpc).
      exists (resolveField w c). split.
      * apply (Hmap (id, c)). exact Hc.
      * by rewrite resolveField_parentId.
  - apply Forall_forall. intros e' He'.
    apply list_elem_of_fmap in He' as (e & -> & He).
    unfold listsOnce in Honce. eapply Forall_forall in Honce; [|exact He].
    unfold resolveEntry. cbn [fst snd]. by rewrite resolveField_meta.
Qed.

Lemma normalize_same_key (m : Fields) (id : string) (f g : NormalizedField) :
  (id, f) ∈ byId (normalize uuidv4 m) ->
  (id, g) ∈ byId (normalize uuidv4 m) -> f = g.
Proof.
  intros Hf Hg.
  apply (obj_get_elem _ _ _ (normalize_NoDup uuidv4 m)) in Hf, Hg. congruence.
Qed.

Lemma normalize_parent_links (m : Fields) (id : string) (f : NormalizedField) :
  (id, f) ∈ byId (normalize uuidv4 m) ->
  (parentId f = None <-> id ∈ rootLevelFields (normalize uuidv4 m)) /\
  (forall pid,
      parentId f = Some pid <->
      exists p l, obj_get (byId (normalize uuidv4 m)) pid = Some p /\
                  childFields (meta p) = Some l /\ id ∈ l) /\
  match parentId f with
  | None => nf_path f = [src_name (source f)]
  | Some pid =>
      exists p, obj_get (byId (normalize uuidv4 m)) pid = Some p /\
                nf_path f = nf_path p ++ [src_name (source f)]
  end.
Proof.
  intros Hin. destruct (normalize_links m) as (HA & [HB1 HB2] & _ & _).
  unfold linkedBelow in HA. eapply Forall_forall in HA; [|exact Hin].
  cbn [fst snd] in HA.
  pose proof (normalize_NoDup uuidv4 m) as Hnd.
  split_and!.
  - split.
    + intros Hnone. destruct HA as [(_ & _ & ?)|(p & l & _ & Hp & _)];
        [done|congruence].
    + intros Hid. destruct (HB1 id Hid) as (c & Hc & Hpc).
      by rewrite (normalize_same_key m id f c Hin Hc).
  - intros pid. split.
    + intros Hsome. destruct HA as [(? & _)|(p & l & Hp & Hpid & _ & Hl & Hid)];
        [congruence|].
      destruct p as [pk p]. cbn [fst snd] in *.
      exists p, l. split_and!; [|done|done].
      assert (pk = pid) as -> by congruence.
      by apply obj_get_elem.
    + intros (p & l & Hp & Hl & Hid).
      apply obj_get_Some_elem in Hp.
      destruct (HB2 (pid, p) l id Hp Hl Hid) as (c & Hc & Hpc).
      by rewrite (normalize_same_key m id f c Hin Hc).
  - destruct HA as [(-> & Hpath & _)|(p & l & Hp & -> & Hpath & _)].
    + exact Hpath.
    + destruct p as [pk p]. exists p. split; [|exact Hpath].
      by apply obj_get_elem.
Qed.

Lemma normalize_path_length (m : Fields) :
  forall d id f,
    (id, f) ∈ byId (normalize uuidv4 m) -> nestedDepth f = d ->
    length (nf_path f) = S d.
Proof.
  induction d as [|d IH]; intros id f Hin Hd.
  - destruct (normalize_parent_links m id f Hin) as (_ & _ & Hpath).
    pose proof (normalize_depths uuidv4 uuidv4_inj m id f Hin) as Hdepth.
    destruct (parentId f) as [pid|].
    + destruct Hdepth as (p & _ & ?). lia.
    + by rewrite Hpath.
  - destruct (normalize_parent_links m id f Hin) as (_ & _ & Hpath).
    pose proof (normalize_depths uuidv4 uuidv4_inj m id f Hin) as Hdepth.
    destruct (parentId f) as [pid|]; [|lia].
    destruct Hdepth as (p & Hp & Hdp). destruct Hpath as (p' & Hp' & ->).
    assert (p' = p) as -> by congruence.
    rewrite length_app. cbn [length].
    rewrite (IH pid p); [lia| |lia]. by apply obj_get_Some_elem.
Qed.

End NormalizedTree.

(** X7: when the generated ids are distinct, the result of [normalize]
    is a tree in its id map: every field is stored under its own id, every
    id of [rootLevelFields] and every id that a field lists in
    [childFields] is a key of [byId], a field lists children exactly when
    [hasChildFields] or [hasMultiFields] holds, and from no field do the
    child links go deeper than the input tree is high (so no field is
    below itself). *)
Theorem normalize_builds_a_tree
  (uuidv4 : nat -> string)
  (uuidv4_inj : forall i j, uuidv4 i = uuidv4 j -> i = j)
  (m : Fields) :
  NoDup (Object_keys (byId (normalize uuidv4 m))) /\
  (forall id f, (id, f) ∈ byId (normalize uuidv4 m) ->
     obj_get (byId (normalize uuidv4 m)) id = Some f /\ nf_id f = id /\
     subtreeWithin (fieldsHeight m) (byId (normalize uuidv4 m)) f) /\
  (forall id, id ∈ rootLevelFields (normalize uuidv4 m) ->
     is_Some (obj_get (byId (normalize uuidv4 m)) id)).
Proof.
  split_and!.
  - apply normalize_NoDup.
  - by apply normalize_subtrees.
  - by apply normalize_roots_resolve.
Qed.

Lemma normalize_builds_a_tree_witness :
  NoDup (Object_keys (byId (normalize sampleUuid sampleNestedMulti))) /\
  (forall id f, (id, f) ∈ byId (normalize sampleUuid sampleNestedMulti) ->
     obj_get (byId (normalize sampleUuid sampleNestedMulti)) id = Some f /\
     nf_id f = id /\
     subtreeWithin (fieldsHeight sampleNestedMulti)
       (byId (normalize sampleUuid sampleNestedMulti)) f) /\
  (forall id, id ∈ rootLevelFields (normalize sampleUuid sampleNestedMulti) ->
     is_Some (obj_get (byId (normalize sampleUuid sampleNestedMulti)) id)).
Proof.
  exact (normalize_builds_a_tree sampleUuid sampleUuid_inj sampleNestedMulti).
Defined.

(** X8: when the generated ids are distinct, the parent and child links
    of the result of [normalize] agree: a field has no [parentId] exactly
    when its id is in [rootLevelFields], it has [parentId] [pid] exactly
    when the field stored at [pid] lists its id in [childFields], and no
    id is listed twice, neither in [rootLevelFields] nor in a
    [childFields]. *)
Theorem normalize_parent_and_child_links_agree
  (uuidv4 : nat -> string)
  (uuidv4_inj : forall i j, uuidv4 i = uuidv4 j -> i = j)
  (m : Fields) :
  (forall id f, (id, f) ∈ byId (normalize uuidv4 m) ->
     (parentId f = None <-> id ∈ rootLevelFields (normalize uuidv4 m)) /\
     (forall pid,
         parentId f = Some pid <->
         exists p l, obj_get (byId (normalize uuidv4 m)) pid = Some p /\
                     childFields (meta p) = Some l /\ id ∈ l)) /\
  NoDup (rootLevelFields (normalize uuidv4 m)) /\
  (forall id f l, (id, f) ∈ byId (normalize uuidv4 m) ->
     childFields (meta f) = Some l -> NoDup l).
Proof.
  split_and!.
  - intros id f Hin.
    destruct (normalize_parent_links uuidv4 uuidv4_inj m id f Hin)
      as (H1 & H2 & _). by split.
  - apply (normalize_links uuidv4 uuidv4_inj m).
  - intros id f l Hin Hl.
    destruct (normalize_links uuidv4 uuidv4_inj m) as (_ & _ & _ & Honce).
    unfold listsOnce in Honce. eapply Forall_forall in Honce; [|exact Hin].
    by apply Honce.
Qed.

Lemma normalize_parent_and_child_links_agree_witness :
  (forall id f, (id, f) ∈ byId (normalize sampleUuid sampleNestedMulti) ->
     (parentId f = None
      <-> id ∈ rootLevelFields (normalize sampleUuid sampleNestedMulti)) /\
     (forall pid,
         parentId f = Some pid <->
         exists p l,
           obj_get (byId (normalize sampleUuid sampleNestedMulti)) pid = Some p /\
           childFields (meta p) = Some l /\ id ∈ l)) /\
  NoDup (rootLevelFields (normalize sampleUuid sampleNestedMulti)) /\
  (forall id f l, (id, f) ∈ byId (normalize sampleUuid sampleNestedMulti) ->
     childFields (meta f) = Some l -> NoDup l).
Proof.
  exact (normalize_parent_and_child_links_agree sampleUuid sampleUuid_inj
           sampleNestedMulti).
Defined.

(** X9: when the generated ids are distinct, the [path] of every field of
    the result of [normalize] is the path of its parent followed by its
    own name (the name alone for a root field), and it has one segment
    more than the field's [nestedDepth]. *)
Theorem normalize_path_extends_parent_path
  (uuidv4 : nat -> string)
  (uuidv4_inj : forall i j, uuidv4 i = uuidv4 j -> i = j)
  (m : Fields) :
  Forall (fun e : string * NormalizedField =>
            length (nf_path e.2) = S (nestedDepth e.2) /\
            match parentId e.2 with
            | None => nf_path e.2 = [src_name (source e.2)]
            | Some pid =>
                exists p, obj_get (byId (normalize uuidv4 m)) pid = Some p /\
                          nf_path e.2 = nf_path p ++ [src_name (source e.2)]
            end)
         (byId (normalize uuidv4 m)).
Proof.
  apply Forall_forall. intros [id f] Hin. cbn [snd]. split.
  - by eapply (normalize_path_length uuidv4 uuidv4_inj m).
  - by destruct (normalize_parent_links uuidv4 uuidv4_inj m id f Hin)
      as (_ & _ & H).
Qed.

Lemma normalize_path_extends_parent_path_witness :
  Forall (fun e : string * NormalizedField =>
            length (nf_path e.2) = S (nestedDepth e.2) /\
            match parentId e.2 with
            | None => nf_path e.2 = [src_name (source e.2)]
            | Some pid =>
                exists p,
                  obj_get (byId (normalize sampleUuid sampleNestedMulti)) pid
                  = Some p /\
                  nf_path e.2 = nf_path p ++ [src_name (source e.2)]
            end)
         (byId (normalize sampleUuid sampleNestedMulti)).
Proof.
  exact (normalize_path_extends_parent_path sampleUuid sampleUuid_inj
           sampleNestedMulti).
Defined.

(** ** Renaming a field of a normalized tree *)

Lemma Reachable_meta (byId : ById) (f g x : NormalizedField) :
  meta f = meta g -> Reachable byId f x -> Reachable byId g x.
Proof.
  intros Hm Hr.
  assert (Hh : hasChildren g = hasChildren f)
    by (unfold hasChildren; by rewrite Hm).
  inversion Hr as [f' ids id c H1 H2 H3 H4|f' ids id c d H1 H2 H3 H4 H5]; subst.
  - eapply Reachable_child; [by rewrite Hh|by rewrite <- Hm|done|done].
  - eapply Reachable_below; [by rewrite Hh|by rewrite <- Hm|done|done|done].
Qed.

Section RenameNormalized.

Variable uuidv4 : nat -> string.
Hypothesis uuidv4_inj : forall i j, uuidv4 i = uuidv4 j -> i = j.
Hypothesis uuidv4_nonempty : forall i, uuidv4 i <> EmptyString.

Lemma normalize_keys_generated (m : Fields) (k : string) :
  k ∈ Object_keys (byId (normalize uuidv4 m)) -> exists i, k = uuidv4 i.
Proof.
  rewrite normalize_byId, keys_resolve, walked_eq. intros Hk.
  destruct (all_entries_append uuidv4 uuidv4_inj (sortEntries m) [] 0 false
              None 0) as [[_ Hw] _]. cbv zeta in Hw.
  unfold idsWithin in Hw. eapply Forall_forall in Hw; [|exact Hk].
  destruct Hw as (i & _ & ->). by exists i.
Qed.

Lemma normalize_parentPathOf (m : Fields) (id : string) (f : NormalizedField)
  (name : string) :
  (id, f) ∈ byId (normalize uuidv4 m) ->
  parentPathOf (byId (normalize uuidv4 m)) (renamedTo name f)
  = Some (removelast (nf_path f)).
Proof.
  intros Hin.
  destruct (normalize_parent_links uuidv4 uuidv4_inj m id f Hin)
    as (_ & _ & Hpath).
  unfold parentPathOf, renamedTo. cbn [set_source parentId].
  destruct (parentId f) as [pid|]; cbn [truthyId].
  - destruct Hpath as (p & Hp & ->).
    destruct (normalize_keys_generated m pid) as [i ->].
    { apply obj_get_is_Some. by rewrite Hp. }
    destruct (decide (uuidv4 i = EmptyString)) as [He|_];
      [by destruct (uuidv4_nonempty i)|].
    rewrite Hp. cbn. by rewrite removelast_last.
  - by rewrite Hpath.
Qed.

Lemma rename_normalized (m : Fields) (id : string) (f : NormalizedField)
  (name : string) (fuel : nat) :
  (id, f) ∈ byId (normalize uuidv4 m) -> fieldsHeight m <= fuel ->
  let fields := byId (normalize uuidv4 m) in
  let path := removelast (nf_path f) ++ [name] in
  exists updated,
    updateFieldsPathAfterFieldNameChange fuel (renamedTo name f) fields
    = Some (Ok (path, updated)) /\
    obj_get updated id = Some (set_path (renamedTo name f) path) /\
    (forall d, Reachable fields f d ->
       exists p, obj_get updated (nf_id d) = Some (set_path d p) /\
                 path `prefix_of` p) /\
    (forall k, k <> id -> (forall d, Reachable fields f d -> nf_id d <> k) ->
       obj_get updated k = obj_get fields k).
Proof.
  intros Hin Hfuel fields path.
  destruct (normalize_subtrees uuidv4 uuidv4_inj m id f Hin)
    as (Hget & Hid & Hsub).
  fold fields in Hget, Hsub.
  assert (Hids : Forall (fun e => nf_id e.2 = e.1) fields).
  { apply Forall_forall. intros [k g] Hk.
    by destruct (normalize_subtrees uuidv4 uuidv4_inj m k g Hk) as (_ & ? & _). }
  assert (Hres : resolvesWithin (fieldsHeight m) fields (renamedTo name f)).
  { apply subtreeWithin_resolves.
    by apply (subtreeWithin_meta _ _ f). }
  assert (Hroot : forall x, Reachable fields (renamedTo name f) x ->
                            nf_id x <> nf_id (renamedTo name f)).
  { intros x Hx Heq.
    apply (Reachable_meta _ _ f) in Hx; [|done].
    pose proof (Reachable_stored fields Hids f x Hx) as Hsx.
    change (nf_id (renamedTo name f)) with (nf_id f) in Heq.
    rewrite Heq, Hid, Hget in Hsx. injection Hsx as <-.
    eapply no_self_reach; [|exact Hx].
    apply subtreeWithin_resolves. exact Hsub. }
  destruct (updateFieldPath_spec fields Hids (fieldsHeight m) fuel
              (renamedTo name f) (removelast (nf_path f)) fields
              Hres Hfuel Hroot) as (updated & Hrun & [W1 W2] & Hown).
  change (src_name (source (renamedTo name f))) with name in *.
  change (nf_id (renamedTo name f)) with (nf_id f) in *.
  rewrite Hid in *.
  assert (Hmaps :
            updateFieldsPathAfterFieldNameChange_maps fuel (renamedTo name f)
              fields
            = Some (Ok (MkRenameMaps fields updated))).
  { unfold updateFieldsPathAfterFieldNameChange_maps.
    pose proof (normalize_parentPathOf m id f name Hin) as Hparent.
    fold fields in Hparent. unfold parentPathOf in Hparent.
    destruct (truthyId (parentId (renamedTo name f))) as [p|].
    - destruct (obj_get fields p) as [parent|]; [|done].
      injection Hparent as ->. exact Hrun.
    - injection Hparent as Hp. rewrite <- Hp in Hrun. exact Hrun. }
  exists updated. split_and!.
  - unfold updateFieldsPathAfterFieldNameChange. rewrite Hmaps.
    cbn [bindF updatedById]. change (nf_id (renamedTo name f)) with (nf_id f).
    by rewrite Hid, Hown.
  - exact Hown.
  - intros d Hd. apply W2. right. by apply (Reachable_meta _ f).
  - intros k Hk Hno. destruct (W1 k) as [Hsame|(x & p & Hx & Hxk & _)];
      [done|].
    destruct Hx as [->|Hx].
    + change (nf_id (renamedTo name f)) with (nf_id f) in Hxk. congruence.
    + apply (Reachable_meta _ _ f) in Hx; [|done]. by destruct (Hno x Hx).
Qed.

End RenameNormalized.

(** X10: a rename always goes through on the result of [normalize]: when
    the generated ids are distinct and not empty, for every field of
    [byId] taken with a new [source.name], and with fuel for the height of
    the tree, [updateFieldsPathAfterFieldNameChange] returns; the path it
    returns is the old path with its last segment replaced by the new
    name, the field is stored with that path, every descendant with a
    path that starts with it, and every other entry is as before. *)
Theorem rename_on_normalized_fields_returns
  (uuidv4 : nat -> string)
  (uuidv4_inj : forall i j, uuidv4 i = uuidv4 j -> i = j)
  (uuidv4_nonempty : forall i, uuidv4 i <> EmptyString)
  (m : Fields) (id : string) (f : NormalizedField) (name : string)
  (fuel : nat) :
  (id, f) ∈ byId (normalize uuidv4 m) -> fieldsHeight m <= fuel ->
  let fields := byId (normalize uuidv4 m) in
  let path := removelast (nf_path f) ++ [name] in
  exists updated,
    updateFieldsPathAfterFieldNameChange fuel (renamedTo name f) fields
    = Some (Ok (path, updated)) /\
    obj_get updated id = Some (set_path (renamedTo name f) path) /\
    (forall d, Reachable fields f d ->
       exists p, obj_get updated (nf_id d) = Some (set_path d p) /\
                 path `prefix_of` p) /\
    (forall k, k <> id -> (forall d, Reachable fields f d -> nf_id d <> k) ->
       obj_get updated k = obj_get fields k).
Proof. by apply rename_normalized. Qed.

Lemma sampleUuid_nonempty (i : nat) : sampleUuid i <> EmptyString.
Proof. done. Qed.

Lemma rename_on_normalized_fields_returns_witness :
  exists updated,
    updateFieldsPathAfterFieldNameChange 2 (renamedTo "z" sampleParent)
      sampleParentChild
    = Some (Ok (["z"], updated)) /\
    obj_get updated "id-0"
    = Some (set_path (renamedTo "z" sampleParent) ["z"]) /\
    (forall d, Reachable sampleParentChild sampleParent d ->
       exists p, obj_get updated (nf_id d) = Some (set_path d p) /\
                 ["z"] `prefix_of` p) /\
    (forall k, k <> "id-0" ->
       (forall d, Reachable sampleParentChild sampleParent d -> nf_id d <> k) ->
       obj_get updated k = obj_get sampleParentChild k).
Proof.
  apply (rename_on_normalized_fields_returns sampleUuid sampleUuid_inj
           sampleUuid_nonempty [("a", object [("b", leaf "text")])]
           "id-0" sampleParent "z" 2).
  - vm_compute. right. left.
  - vm_compute. lia.
Defined.

(** ** getAllChildFields *)

Section ChildFields.

Variable byId : ById.

Lemma getChildFields_children (fuel n : nat) (f : NormalizedField) :
  (forall c acc,
      resolvesWithin n byId c ->
      exists l, getChildFields fuel byId c acc = Some (Ok (acc ++ l)) /\
                forall x, x ∈ l <-> Reachable byId c x) ->
  forall ids acc,
    Forall (fun id => exists c, obj_get byId id = Some c
                                /\ resolvesWithin n byId c) ids ->
    exists l,
      fold_left
        (fun (acc : option (Result (list NormalizedField)))
             (childField : option NormalizedField) =>
           bindF acc (fun to =>
             match childField with
             | None => Some (Throw TypeError)
             | Some childField =>
                 getChildFields fuel byId childField (to ++ [childField])
             end))
        (map (obj_get byId) ids) (Some (Ok acc))
      = Some (Ok (acc ++ l)) /\
      forall x, x ∈ l <->
                exists id c, id ∈ ids /\ obj_get byId id = Some c
                             /\ visited byId c x.
Proof.
  intros IH ids. induction ids as [|id ids IHids]; intros acc Hall.
  - exists []. cbn [map fold_left]. rewrite app_nil_r. split; [done|].
    intros x. split; [by intros ?%elem_of_nil|].
    by intros (id & c & ?%elem_of_nil & _).
  - apply Forall_cons in Hall as [(c & Hc & Hres) Hall].
    cbn [map fold_left bindF]. rewrite Hc.
    destruct (IH c (acc ++ [c]) Hres) as (lc & -> & Hlc).
    destruct (IHids ((acc ++ [c]) ++ lc) Hall) as (l & -> & Hl).
    exists (c :: lc ++ l). split.
    { by rewrite <- !app_assoc. }
    intros x. rewrite elem_of_cons, elem_of_app, Hlc, Hl. split.
    + intros [->|[Hx|(id' & c' & Hin & Hc' & Hv)]].
      * exists id, c. split_and!; [left|done|by left].
      * exists id, c. split_and!; [left|done|by right].
      * exists id', c'. split_and!; [by right|done|done].
    + intros (id' & c' & [->|Hin]%elem_of_cons & Hc' & Hv).
      * assert (c' = c) as -> by congruence.
        destruct Hv as [->|Hv]; [by left|right; by left].
      * right. right. by exists id', c'.
Qed.

Lemma getChildFields_spec (n : nat) :
  forall fuel f acc,
    resolvesWithin n byId f -> n <= fuel ->
    exists l, getChildFields fuel byId f acc = Some (Ok (acc ++ l)) /\
              forall x, x ∈ l <-> Reachable byId f x.
Proof.
  induction n as [|n IH]; intros fuel f acc Hres Hfuel; [done|].
  destruct fuel as [|fuel]; [lia|].
  cbn [resolvesWithin] in Hres. cbn [getChildFields].
  destruct (hasChildren f) eqn:Hhas.
  - destruct (childFields (meta f)) as [ids|] eqn:Hids; [|done].
    destruct (getChildFields_children fuel n f
                (fun c acc Hc => IH fuel c acc Hc ltac:(lia)) ids acc Hres)
      as (l & Hl & Hin).
    exists l. split; [exact Hl|].
    intros x. rewrite Hin. split.
    + intros (id & c & Hid & Hc & Hv). by eapply visited_child.
    + intros Hr. apply Reachable_first in Hr
        as (ids' & id & c & Hids' & Hid & Hc & Hv).
      assert (ids' = ids) as -> by congruence. by exists id, c.
  - exists []. rewrite app_nil_r. split; [done|].
    intros x. split; [by intros ?%elem_of_nil|].
    intros Hr%Reachable_has_children. congruence.
Qed.

End ChildFields.

(** X11: on a map in which every child id below the field resolves (in
    at most [n] levels), [getAllChildFields] with fuel for these levels
    returns, and the list it returns holds exactly the descendants of the
    field: the fields reached through [childFields] and lookups in
    [byId]; the field itself is not among them. *)
Theorem getAllChildFields_lists_the_descendants
  (byId : ById) (field : NormalizedField) (n fuel : nat) :
  resolvesWithin n byId field -> n <= fuel ->
  exists l, getAllChildFields fuel field byId = Some (Ok l) /\
            (forall x, x ∈ l <-> Reachable byId field x) /\
            field ∉ l.
Proof.
  intros Hres Hfuel. unfold getAllChildFields.
  destruct (getChildFields_spec byId n fuel field [] Hres Hfuel)
    as (l & Hl & Hin).
  exists l. split_and!; [done|done|].
  rewrite Hin. by eapply no_self_reach.
Qed.

Lemma getAllChildFields_lists_the_descendants_witness :
  exists l, getAllChildFields 2 sampleParent sampleParentChild = Some (Ok l) /\
            (forall x, x ∈ l <-> Reachable sampleParentChild sampleParent x) /\
            sampleParent ∉ l.
Proof.
  apply (getAllChildFields_lists_the_descendants sampleParentChild
           sampleParent 2 2).
  - cbn. constructor; [|constructor]. eexists. split; [by vm_compute|done].
  - lia.
Defined.

(** ** buildFieldTreeFromIds *)

Lemma subtreeWithin_listed (n : nat) (byId : ById) (f : NormalizedField) :
  subtreeWithin n byId f -> listedWithin n byId f.
Proof.
  revert f. induction n as [|n IH]; intros f H; [done|].
  cbn [subtreeWithin listedWithin] in *.
  destruct (childFields (meta f)) as [ids|]; [|done].
  destruct H as [_ Hall]. eapply Forall_impl; [exact Hall|].
  intros id (c & Hc & Hs). exists c. split; [done|]. by apply IH.
Qed.

Section FieldTree.

Context {L : Type}.
Variable byId : ById.
Variable render : NormalizedField -> L.

Lemma buildFieldTree_fold (fuel : nat) (P : NormalizedField -> Prop) :
  (forall c kids,
      P c -> childFields (meta c) = Some kids ->
      exists l, buildFieldTreeFromIds fuel kids byId render = Some (Ok l)) ->
  forall ids acc,
    Forall (fun id => exists c, obj_get byId id = Some c /\ P c) ids ->
    exists items,
      fold_left
        (fun (acc : option (Result (list (TreeItem L)))) (id : string) =>
           bindF acc (fun items =>
             match obj_get byId id with
             | None => Some (Throw TypeError)
             | Some field =>
                 match childFields (meta field) with
                 | Some ids =>
                     bindF (buildFieldTreeFromIds fuel ids byId render)
                       (fun children =>
                          Some (Ok (items ++ [MkTreeItem (render field)
                                                (Some children)])))
                 | None =>
                     Some (Ok (items ++ [MkTreeItem (render field) None]))
                 end
             end))
        ids (Some (Ok acc))
      = Some (Ok (acc ++ items)) /\
      Forall2 (fun id item => exists c, obj_get byId id = Some c
                                        /\ itemBuilt byId render fuel c item) ids items.
Proof.
  intros IH ids. induction ids as [|id ids IHids]; intros acc Hall.
  - exists []. cbn [fold_left]. rewrite app_nil_r. split; [done|constructor].
  - apply Forall_cons in Hall as [(c & Hc & Hl) Hall].
    cbn [fold_left bindF]. rewrite Hc.
    destruct (childFields (meta c)) as [kids|] eqn:Hkids.
    + destruct (IH c kids Hl Hkids) as (l & Hbuilt). rewrite Hbuilt.
      cbn [bindF].
      destruct (IHids (acc ++ [MkTreeItem (render c) (Some l)]) Hall)
        as (items & -> & Hitems).
      exists (MkTreeItem (render c) (Some l) :: items). split.
      { by rewrite <- app_assoc. }
      constructor; [|exact Hitems]. exists c. split; [done|].
      split; [done|]. rewrite Hkids. by exists l.
    + destruct (IHids (acc ++ [MkTreeItem (render c) None]) Hall)
        as (items & -> & Hitems).
      exists (MkTreeItem (render c) None :: items). split.
      { by rewrite <- app_assoc. }
      constructor; [|exact Hitems]. exists c. split; [done|].
      split; [done|]. by rewrite Hkids.
Qed.

Lemma buildFieldTree_children (n : nat) :
  forall fuel, n < fuel ->
    forall c kids,
      listedWithin n byId c -> childFields (meta c) = Some kids ->
      exists l, buildFieldTreeFromIds (fuel - 1) kids byId render = Some (Ok l).
Proof.
  induction n as [|n IH]; intros fuel Hfuel c kids Hl Hkids; [done|].
  cbn [listedWithin] in Hl. rewrite Hkids in Hl.
  destruct fuel as [|[|fuel]]; [lia|lia|].
  replace (S (S fuel) - 1) with (S fuel) by lia.
  cbn [buildFieldTreeFromIds].
  destruct (buildFieldTree_fold fuel (listedWithin n byId))
    with (ids := kids) (acc := @nil (TreeItem L)) as (items & Hrun & _);
    [|exact Hl|].
  - intros c' kids' Hc' Hkids'.
    replace fuel with (S fuel - 1) by lia. eapply IH; [lia|done|done].
  - by exists items.
Qed.

Lemma buildFieldTree_run (n fuel : nat) (ids : list string)
  (acc : list (TreeItem L)) :
  Forall (fun id => exists c, obj_get byId id = Some c
                              /\ listedWithin n byId c) ids ->
  n < S fuel ->
  exists items,
    fold_left
      (fun (acc : option (Result (list (TreeItem L)))) (id : string) =>
         bindF acc (fun items =>
           match obj_get byId id with
           | None => Some (Throw TypeError)
           | Some field =>
               match childFields (meta field) with
               | Some ids =>
                   bindF (buildFieldTreeFromIds fuel ids byId render)
                     (fun children =>
                        Some (Ok (items ++ [MkTreeItem (render field)
                                              (Some children)])))
               | None =>
                   Some (Ok (items ++ [MkTreeItem (render field) None]))
               end
           end))
      ids (Some (Ok acc))
    = Some (Ok (acc ++ items)) /\
    Forall2 (fun id item => exists c, obj_get byId id = Some c
                                      /\ itemBuilt byId render fuel c item) ids items.
Proof.
  intros Hall Hfuel.
  apply (buildFieldTree_fold fuel (listedWithin n byId)); [|exact Hall].
  intros c kids Hc Hkids.
  replace fuel with (S fuel - 1) by lia.
  by eapply (buildFieldTree_children n).
Qed.

End FieldTree.

(** X12: on a map in which the listed ids and every id listed in a
    [childFields] below them resolve (in at most [n] levels),
    [buildFieldTreeFromIds] with fuel for these levels returns one item
    per id, in the order of the ids: its label is the rendering of the
    field stored at the id, and its children are the tree built from the
    [childFields] of that field, or left out when the field has none. *)
Theorem buildFieldTreeFromIds_builds_one_item_per_id
  (L : Type) (byId : ById) (render : NormalizedField -> L)
  (n fuel : nat) (ids : list string) :
  Forall (fun id => exists c, obj_get byId id = Some c
                              /\ listedWithin n byId c) ids ->
  n < fuel ->
  exists items,
    buildFieldTreeFromIds fuel ids byId render = Some (Ok items) /\
    Forall2
      (fun id item =>
         exists c, obj_get byId id = Some c /\
           item_label item = render c /\
           match childFields (meta c) with
           | Some kids =>
               exists l, item_children item = Some l /\
                         buildFieldTreeFromIds (fuel - 1) kids byId render
                         = Some (Ok l)
           | None => item_children item = None
           end)
      ids items.
Proof.
  intros Hall Hfuel. destruct fuel as [|fuel]; [lia|].
  replace (S fuel - 1) with fuel by lia. cbn [buildFieldTreeFromIds].
  destruct (buildFieldTree_run byId render n fuel ids [] Hall Hfuel)
    as (items & Hrun & Hitems).
  exists items. split; [exact Hrun|exact Hitems].
Qed.

Lemma buildFieldTreeFromIds_builds_one_item_per_id_witness :
  exists items,
    buildFieldTreeFromIds 3 ["id-0"] sampleParentChild
      (fun f => src_name (source f)) = Some (Ok items) /\
    Forall2
      (fun id item =>
         exists c, obj_get sampleParentChild id = Some c /\
           item_label item = src_name (source c) /\
           match childFields (meta c) with
           | Some kids =>
               exists l, item_children item = Some l /\
                         buildFieldTreeFromIds 2 kids sampleParentChild
                           (fun f => src_name (source f))
                         = Some (Ok l)
           | None => item_children item = None
           end)
      ["id-0"] items.
Proof.
  apply (buildFieldTreeFromIds_builds_one_item_per_id string sampleParentChild
           (fun f => src_name (source f)) 2 3 ["id-0"]).
  - constructor; [|constructor]. exists sampleParent. split; [by vm_compute|].
    cbn. constructor; [|constructor]. eexists. split; [by vm_compute|done].
  - lia.
Defined.

(** X13: [buildFieldTreeFromIds] throws a [TypeError] on the first id of
    the list that is not a key of the map (it reads [childFields] of the
    missing field), the ids before it resolving as above. *)
Theorem buildFieldTreeFromIds_dangling_id_throws
  (L : Type) (byId : ById) (render : NormalizedField -> L)
  (n fuel : nat) (before after : list string) (id : string) :
  Forall (fun id => exists c, obj_get byId id = Some c
                              /\ listedWithin n byId c) before ->
  n < fuel -> obj_get byId id = None ->
  buildFieldTreeFromIds fuel (before ++ id :: after) byId render
  = Some (Throw TypeError).
Proof.
  intros Hall Hfuel Hnone. destruct fuel as [|fuel]; [lia|].
  cbn [buildFieldTreeFromIds]. rewrite fold_left_app.
  destruct (buildFieldTree_run byId render n fuel before [] Hall Hfuel)
    as (items & -> & _).
  cbn [fold_left bindF]. rewrite Hnone.
  rewrite bindF_fold_stuck; done.
Qed.

Lemma buildFieldTreeFromIds_dangling_id_throws_witness :
  buildFieldTreeFromIds 3 (["id-0"] ++ "gone" :: ["id-1"]) sampleParentChild
    (fun f => src_name (source f))
  = Some (Throw TypeError).
Proof.
  apply (buildFieldTreeFromIds_dangling_id_throws string sampleParentChild
           (fun f => src_name (source f)) 2 3 ["id-0"] ["id-1"] "gone").
  - constructor; [|constructor]. exists sampleParent. split; [by vm_compute|].
    cbn. constructor; [|constructor]. eexists. split; [by vm_compute|done].
  - lia.
  - by vm_compute.
Defined.

(** ** The order of the ids that normalize lists *)

Lemma namedIn_weaken (o o' : ById) (ids names : list string) :
  (forall e, e ∈ o -> e ∈ o') -> namedIn o ids names -> namedIn o' ids names.
Proof.
  intros Hsub H. eapply Forall2_impl; [exact H|].
  intros id name (c & Hc & Hn). exists c. split; [by apply Hsub|done].
Qed.

Lemma childrenInOrder_app (o1 o2 : ById) :
  childrenInOrder o1 -> childrenInOrder o2 -> childrenInOrder (o1 ++ o2).
Proof.
  intros H1 H2. apply Forall_app. split.
  - eapply Forall_impl; [exact H1|]. intros e He l Hl.
    destruct (He l Hl) as (names & Hn & Hs). exists names. split; [|done].
    eapply namedIn_weaken; [|exact Hn]. intros x Hx. apply elem_of_app.
    by left.
  - eapply Forall_impl; [exact H2|]. intros e He l Hl.
    destruct (He l Hl) as (names & Hn & Hs). exists names. split; [|done].
    eapply namedIn_weaken; [|exact Hn]. intros x Hx. apply elem_of_app.
    by right.
Qed.

Section NameOrder.

Variable uuidv4 : nat -> string.
Hypothesis uuidv4_inj : forall i j, uuidv4 i = uuidv4 j -> i = j.

Lemma entriesRun_names :
  forall entries paths d im pid n,
    namedIn (to (entriesRun uuidv4 entries paths d im pid n).1)
      (entriesRun uuidv4 entries paths d im pid n).2 (Object_keys entries) /\
    childrenInOrder (to (entriesRun uuidv4 entries paths d im pid n).1).
Proof.
  apply (entriesRun_ind uuidv4 uuidv4_inj
           (fun k v paths d im pid n r =>
              namedIn (to r.1) [r.2] [k] /\ childrenInOrder (to r.1))
           (fun entries paths d im pid n r =>
              namedIn (to r.1) r.2 (Object_keys entries) /\
              childrenInOrder (to r.1))).
  - intros k v paths d im pid n Hno. cbn [fst snd to]. split.
    + constructor; [|constructor].
      exists (entryOf uuidv4 k v paths d im pid n None).
      split; [by apply list_elem_of_singleton|done].
    + constructor; [|constructor]. intros l Hl. cbn in Hl. done.
  - intros k v paths d im pid n rc m kids Hhas _ [Hnames Horder].
    cbn [fst snd to]. split.
    + constructor; [|constructor].
      exists (entryOf uuidv4 k v paths d im pid n (Some rc.2)).
      split; [|done].
      apply elem_of_app. right. by apply list_elem_of_singleton.
    + apply Forall_app. split.
      * eapply Forall_impl; [exact Horder|]. intros e He l Hl.
        destruct (He l Hl) as (names & Hn & Hs). exists names.
        split; [|done]. eapply namedIn_weaken; [|exact Hn].
        intros x Hx. apply elem_of_app. by left.
      * constructor; [|constructor]. intros l Hl. cbn in Hl.
        injection Hl as <-. exists (Object_keys kids). split.
        -- eapply namedIn_weaken; [|exact Hnames].
           intros x Hx. apply elem_of_app. by left.
        -- apply sortEntries_keys_Sorted.
  - intros paths d im pid n. cbn [fst snd to startAt]. split; constructor.
  - intros k v entries paths d im pid n r1 r2 _ _ [Hn1 Ho1] [Hn2 Ho2].
    cbn [fst snd to]. split.
    + apply Forall2_cons_1 in Hn1 as [H1 _]. constructor.
      * destruct H1 as (c & Hc & Hk). exists c. split; [|done].
        apply elem_of_app. by left.
      * eapply namedIn_weaken; [|exact Hn2]. intros x Hx.
        apply elem_of_app. by right.
    + by apply childrenInOrder_app.
Qed.

End NameOrder.

Section NormalizedOrder.

Variable uuidv4 : nat -> string.
Hypothesis uuidv4_inj : forall i j, uuidv4 i = uuidv4 j -> i = j.

Lemma namedIn_normalize (m : Fields) (ids names : list string) :
  namedIn (walked uuidv4 m) ids names ->
  Forall2 (fun id name =>
             exists c, obj_get (byId (normalize uuidv4 m)) id = Some c
                       /\ src_name (source c) = name) ids names.
Proof.
  intros H. eapply Forall2_impl; [exact H|].
  intros id name (c & Hc & Hn).
  exists (resolveField (walked uuidv4 m) c). split.
  - by apply normalize_get_walked.
  - by rewrite resolveField_name.
Qed.

Lemma normalize_root_names (m : Fields) :
  Forall2 (fun id name =>
             exists c, obj_get (byId (normalize uuidv4 m)) id = Some c
                       /\ src_name (source c) = name)
    (rootLevelFields (normalize uuidv4 m)) (Object_keys (sortEntries m)).
Proof.
  apply namedIn_normalize.
  rewrite (normalize_rootLevelFields_run uuidv4), walked_eq.
  apply (entriesRun_names uuidv4 uuidv4_inj).
Qed.

Lemma normalize_child_names (m : Fields) (id : string) (f : NormalizedField)
  (l : list string) :
  (id, f) ∈ byId (normalize uuidv4 m) -> childFields (meta f) = Some l ->
  exists names,
    Forall2 (fun id name =>
               exists c, obj_get (byId (normalize uuidv4 m)) id = Some c
                         /\ src_name (source c) = name) l names /\
    Sorted String.le names.
Proof.
  intros Hin Hl. apply normalize_byId_elem in Hin as (f0 & Hin0 & ->).
  rewrite resolveField_meta in Hl.
  destruct (entriesRun_names uuidv4 uuidv4_inj (sortEntries m) [] 0 false
              None 0) as [_ Horder].
  rewrite <- walked_eq in Horder. unfold childrenInOrder in Horder.
  eapply Forall_forall in Horder; [|exact Hin0].
  destruct (Horder l Hl) as (names & Hn & Hs).
  exists names. split; [by apply namedIn_normalize|done].
Qed.

Lemma normalize_roots_listed (m : Fields) :
  Forall (fun id => exists c,
            obj_get (byId (normalize uuidv4 m)) id = Some c /\
            listedWithin (fieldsHeight m) (byId (normalize uuidv4 m)) c)
    (rootLevelFields (normalize uuidv4 m)).
Proof.
  apply Forall_forall. intros id Hid.
  destruct (normalize_roots_resolve uuidv4 uuidv4_inj m id Hid) as [c Hc].
  exists c. split; [done|]. apply subtreeWithin_listed.
  apply obj_get_Some_elem in Hc.
  by destruct (normalize_subtrees uuidv4 uuidv4_inj m id c Hc) as (_ & _ & ?).
Qed.

End NormalizedOrder.

(** X14: when the generated ids are distinct, [normalize] lists the fields
    of every level in the ascending order of their names, whatever the
    order of the keys of the input: the names of the fields of
    [rootLevelFields], in this order, are the keys of the input sorted, and
    the names of the fields of every [childFields] are sorted. *)
Theorem normalize_lists_fields_in_name_order
  (uuidv4 : nat -> string)
  (uuidv4_inj : forall i j, uuidv4 i = uuidv4 j -> i = j)
  (m : Fields) :
  Forall2 (fun id name =>
             exists c, obj_get (byId (normalize uuidv4 m)) id = Some c
                       /\ src_name (source c) = name)
    (rootLevelFields (normalize uuidv4 m)) (Object_keys (sortEntries m)) /\
  Sorted String.le (Object_keys (sortEntries m)) /\
  Object_keys (sortEntries m) ≡ₚ Object_keys m /\
  (forall id f l,
      (id, f) ∈ byId (normalize uuidv4 m) -> childFields (meta f) = Some l ->
      exists names,
        Forall2 (fun id name =>
                   exists c, obj_get (byId (normalize uuidv4 m)) id = Some c
                             /\ src_name (source c) = name) l names /\
        Sorted String.le names).
Proof.
  split_and!.
  - by apply normalize_root_names.
  - apply sortEntries_keys_Sorted.
  - unfold Object_keys. apply Permutation_map, sortEntries_Permutation.
  - intros id f l. by apply normalize_child_names.
Qed.

Lemma normalize_lists_fields_in_name_order_witness :
  Forall2 (fun id name =>
             exists c,
               obj_get (byId (normalize sampleUuid sampleAlias)) id = Some c
               /\ src_name (source c) = name)
    (rootLevelFields (normalize sampleUuid sampleAlias))
    (Object_keys (sortEntries sampleAlias)) /\
  Sorted String.le (Object_keys (sortEntries sampleAlias)) /\
  Object_keys (sortEntries sampleAlias) ≡ₚ Object_keys sampleAlias /\
  (forall id f l,
      (id, f) ∈ byId (normalize sampleUuid sampleAlias) ->
      childFields (meta f) = Some l ->
      exists names,
        Forall2 (fun id name =>
                   exists c,
                     obj_get (byId (normalize sampleUuid sampleAlias)) id
                     = Some c
                     /\ src_name (source c) = name) l names /\
        Sorted String.le names).
Proof.
  exact (normalize_lists_fields_in_name_order sampleUuid sampleUuid_inj
           sampleAlias).
Defined.

(** X15: the tree view of a normalized tree: when the generated ids are
    distinct, [buildFieldTreeFromIds] on the [rootLevelFields] and the
    [byId] of the result of [normalize], with fuel for the height of the
    input, returns; rendering a field as its name, the labels of the root
    items are the keys of the input in ascending order. *)
Theorem field_tree_of_normalized_fields
  (uuidv4 : nat -> string)
  (uuidv4_inj : forall i j, uuidv4 i = uuidv4 j -> i = j)
  (m : Fields) (fuel : nat) :
  fieldsHeight m < fuel ->
  exists items,
    buildFieldTreeFromIds fuel (rootLevelFields (normalize uuidv4 m))
      (byId (normalize uuidv4 m)) (fun f => src_name (source f))
    = Some (Ok items) /\
    map item_label items = Object_keys (sortEntries m).
Proof.
  intros Hfuel. destruct fuel as [|fuel]; [lia|].
  cbn [buildFieldTreeFromIds].
  destruct (buildFieldTree_run (byId (normalize uuidv4 m))
              (fun f => src_name (source f)) (fieldsHeight m) fuel
              (rootLevelFields (normalize uuidv4 m)) []
              (normalize_roots_listed uuidv4 uuidv4_inj m) Hfuel)
    as (items & Hrun & Hitems).
  exists items. split; [exact Hrun|].
  pose proof (normalize_root_names uuidv4 uuidv4_inj m) as Hnames.
  revert Hitems Hnames. generalize (Object_keys (sortEntries m)).
  generalize (rootLevelFields (normalize uuidv4 m)). clear.
  intros ids names Hitems. revert names.
  induction Hitems as [|id item ids items (c & Hc & Hl & _) _ IH];
    intros names Hnames.
  - by apply Forall2_nil_inv_l in Hnames as ->.
  - apply Forall2_cons_inv_l in Hnames
      as (name & names' & (c' & Hc' & Hn) & Hrest & ->).
    cbn [map]. rewrite (IH names' Hrest). f_equal. congruence.
Qed.

Lemma field_tree_of_normalized_fields_witness :
  exists items,
    buildFieldTreeFromIds 3 (rootLevelFields (normalize sampleUuid sampleAlias))
      (byId (normalize sampleUuid sampleAlias)) (fun f => src_name (source f))
    = Some (Ok items) /\
    map item_label items = Object_keys (sortEntries sampleAlias).
Proof.
  apply (field_tree_of_normalized_fields sampleUuid sampleUuid_inj sampleAlias
           3).
  vm_compute. lia.
Defined.

(** ** getFieldAncestors *)

Lemma Reachable_trans (byId : ById) (f g h : NormalizedField) :
  Reachable byId f g -> Reachable byId g h -> Reachable byId f h.
Proof.
  induction 1 as [f ids id c H1 H2 H3 H4|f ids id c d H1 H2 H3 H4 H5 IH];
    intros Hgh.
  - by eapply Reachable_below.
  - eapply Reachable_below; [done|done|done|done|]. by apply IH.
Qed.

Lemma Reachable_last (byId : ById) (f d : NormalizedField) :
  Reachable byId f d ->
  exists q ids id,
    (q = f \/ Reachable byId f q) /\ hasChildren q = true /\
    childFields (meta q) = Some ids /\ id ∈ ids /\ obj_get byId id = Some d.
Proof.
  induction 1 as [f ids id c H1 H2 H3 H4|f ids id c d H1 H2 H3 H4 H5 IH].
  - exists f, ids, id. split_and!; [by left|done|done|done|done].
  - destruct IH as (q & ids' & id' & Hq & Hrest).
    exists q, ids', id'. split; [|exact Hrest]. right.
    destruct Hq as [->|Hq].
    + by eapply Reachable_child.
    + by eapply Reachable_below.
Qed.

Lemma ancestorsLoop_done (fuel : nat) (byId : ById) (acc : Obj bool) :
  ancestorsLoop fuel byId None acc = Some acc.
Proof. by destruct fuel. Qed.

Section Ancestors.

Variable uuidv4 : nat -> string.
Hypothesis uuidv4_inj : forall i j, uuidv4 i = uuidv4 j -> i = j.
Variable m : Fields.

Local Abbreviation fields := (byId (normalize uuidv4 m)).

Lemma normalize_ids : Forall (fun e => nf_id e.2 = e.1) fields.
Proof.
  apply Forall_forall. intros [k g] Hk.
  by destruct (normalize_subtrees uuidv4 uuidv4_inj m k g Hk) as (_ & ? & _).
Qed.

Lemma normalize_child_reachable (id pid : string) (f q : NormalizedField) :
  (id, f) ∈ fields -> parentId f = Some pid -> obj_get fields pid = Some q ->
  Reachable fields q f.
Proof.
  intros Hin Hpid Hq.
  destruct (normalize_parent_links uuidv4 uuidv4_inj m id f Hin)
    as (_ & Hlink & _).
  apply Hlink in Hpid as (q' & l & Hq' & Hl & Hid).
  assert (q' = q) as -> by congruence.
  apply obj_get_Some_elem in Hq.
  destruct (normalize_subtrees uuidv4 uuidv4_inj m pid q Hq)
    as (_ & _ & Hsub).
  unfold fieldsHeight in Hsub. cbn [subtreeWithin] in Hsub.
  rewrite Hl in Hsub. destruct Hsub as [Hhas _].
  eapply Reachable_child; [exact Hhas|exact Hl|exact Hid|].
  by destruct (normalize_subtrees uuidv4 uuidv4_inj m id f Hin) as (? & _).
Qed.

Lemma ancestors_step (id pid : string) (f q : NormalizedField) (k : string) :
  (id, f) ∈ fields -> parentId f = Some pid -> obj_get fields pid = Some q ->
  isAncestor fields k f <-> k = pid \/ isAncestor fields k q.
Proof.
  intros Hin Hpid Hq. split.
  - intros (p & Hp & Hr).
    apply Reachable_last in Hr as (q' & ids & id' & Hq' & Hhas & Hids & Hid & Hf).
    destruct (normalize_subtrees uuidv4 uuidv4_inj m id f Hin)
      as (Hget & Hnf & _).
    assert (id' = id) as ->.
    { apply obj_get_Some_elem in Hf.
      destruct (normalize_subtrees uuidv4 uuidv4_inj m id' f Hf)
        as (_ & ? & _). congruence. }
    destruct (normalize_parent_links uuidv4 uuidv4_inj m id f Hin)
      as (_ & Hlink & _).
    destruct Hq' as [->|Hq'].
    + left. assert (parentId f = Some k) as Hk.
      { apply Hlink. by exists p, ids. }
      congruence.
    + pose proof (Reachable_stored fields normalize_ids p q' Hq') as Hst.
      assert (parentId f = Some (nf_id q')) as Hk.
      { apply Hlink. by exists q', ids. }
      assert (nf_id q' = pid) as Heq by congruence.
      rewrite Heq, Hq in Hst. injection Hst as ->.
      right. by exists p.
  - intros [->|(p & Hp & Hr)].
    + exists q. split; [done|]. by eapply normalize_child_reachable.
    + exists p. split; [done|]. eapply Reachable_trans; [exact Hr|].
      by eapply normalize_child_reachable.
Qed.

Lemma root_has_no_ancestor (id : string) (f : NormalizedField) (k : string) :
  (id, f) ∈ fields -> parentId f = None -> ~ isAncestor fields k f.
Proof.
  intros Hin Hnone (p & Hp & Hr).
  apply Reachable_last in Hr as (q' & ids & id' & Hq' & Hhas & Hids & Hid & Hf).
  assert (id' = id) as ->.
  { apply obj_get_Some_elem in Hf.
    destruct (normalize_subtrees uuidv4 uuidv4_inj m id' f Hf) as (_ & ? & _).
    destruct (normalize_subtrees uuidv4 uuidv4_inj m id f Hin) as (_ & ? & _).
    congruence. }
  destruct (normalize_parent_links uuidv4 uuidv4_inj m id f Hin)
    as (_ & Hlink & _).
  assert (exists pid, obj_get fields pid = Some q') as [pid Hpid].
  { destruct Hq' as [->|Hq']; [by exists k|].
    exists (nf_id q'). by apply (Reachable_stored fields normalize_ids p). }
  assert (parentId f = Some pid) as Hk.
  { apply Hlink. by exists q', ids. }
  congruence.
Qed.

Lemma ancestorsLoop_spec :
  forall d pk p acc fuel,
    (pk, p) ∈ fields -> nestedDepth p = d -> d < fuel ->
    (forall k, k ∈ Object_keys acc ->
               exists g, obj_get fields k = Some g /\ d < nestedDepth g) ->
    exists l,
      ancestorsLoop fuel fields (Some p) acc = Some (acc ++ l) /\
      length l = S d /\
      (forall k, k ∈ Object_keys l <-> k = pk \/ isAncestor fields k p) /\
      Forall (fun e => e.2 = true) l.
Proof.
  induction d as [|d IH]; intros pk p acc fuel Hin Hd Hfuel Hacc;
    (destruct fuel as [|fuel]; [lia|]); cbn [ancestorsLoop];
    destruct (normalize_subtrees uuidv4 uuidv4_inj m pk p Hin)
      as (Hget & Hnf & _);
    pose proof (normalize_depths uuidv4 uuidv4_inj m pk p Hin) as Hdepth;
    (assert (Hfresh : pk ∉ Object_keys acc);
     [intros Hk; destruct (Hacc pk Hk) as (g & Hg & Hlt);
      rewrite Hget in Hg; injection Hg as <-; lia|]);
    rewrite Hnf, (obj_set_fresh _ _ _ Hfresh).
  - destruct (parentId p) as [pid|] eqn:Hpid.
    { destruct Hdepth as (q & _ & ?). lia. }
    rewrite ancestorsLoop_done. exists [(pk, true)].
    split_and!; [done|done| |].
    + intros k. cbn. rewrite list_elem_of_singleton. split; [by left|].
      intros [->|Hanc]; [done|]. by destruct (root_has_no_ancestor pk p k).
    + by constructor.
  - destruct (parentId p) as [pid|] eqn:Hpid; [|lia].
    destruct Hdepth as (q & Hq & Hdq). rewrite Hq.
    assert (Hqin : (pid, q) ∈ fields) by (by apply obj_get_Some_elem).
    destruct (IH pid q (acc ++ [(pk, true)]) fuel Hqin) as (l & Hl & Hlen & Hkeys & Htrue);
      [lia|lia| |].
    { intros k. unfold Object_keys. rewrite map_app, elem_of_app.
      intros [Hk|Hk].
      - destruct (Hacc k Hk) as (g & Hg & Hlt). exists g. split; [done|lia].
      - cbn in Hk. apply list_elem_of_singleton in Hk as ->.
        exists p. split; [done|lia]. }
    exists ((pk, true) :: l). split_and!.
    + rewrite Hl. by rewrite <- app_assoc.
    + cbn. lia.
    + intros k. cbn [Object_keys map fst]. rewrite elem_of_cons.
      fold (Object_keys l). rewrite Hkeys.
      rewrite (ancestors_step pk pid p q k Hin Hpid Hq). tauto.
    + by constructor.
Qed.

Lemma getFieldAncestors_normalized (id : string) (f : NormalizedField)
  (fuel : nat) :
  (id, f) ∈ fields -> nestedDepth f <= fuel ->
  exists a,
    getFieldAncestors fuel id fields = Some (Ok a) /\
    length a = nestedDepth f /\
    (forall k, k ∈ Object_keys a <-> isAncestor fields k f) /\
    Forall (fun e => e.2 = true) a.
Proof.
  intros Hin Hfuel.
  destruct (normalize_subtrees uuidv4 uuidv4_inj m id f Hin) as (Hget & _ & _).
  pose proof (normalize_depths uuidv4 uuidv4_inj m id f Hin) as Hdepth.
  unfold getFieldAncestors. rewrite Hget.
  destruct (parentId f) as [pid|] eqn:Hpid.
  - destruct Hdepth as (q & Hq & Hdq). rewrite Hq.
    assert (Hqin : (pid, q) ∈ fields) by (by apply obj_get_Some_elem).
    destruct (ancestorsLoop_spec (nestedDepth q) pid q [] fuel Hqin)
      as (l & Hl & Hlen & Hkeys & Htrue); [done|lia| |].
    { by intros k ?%elem_of_nil. }
    rewrite Hl. exists l. split_and!; [done|lia| |done].
    intros k. rewrite Hkeys.
    by rewrite (ancestors_step id pid f q k Hin Hpid Hq).
  - rewrite ancestorsLoop_done. exists [].
    split_and!; [done|done| |constructor].
    intros k. split; [by intros ?%elem_of_nil|].
    intros Hanc. by destruct (root_has_no_ancestor id f k).
Qed.

End Ancestors.

(** X16: on the result of [normalize] (the generated ids distinct),
    [getFieldAncestors] of a field of [byId], with as much fuel as the
    field is deep, returns a map whose keys are exactly the ids of the
    fields that have the field among their descendants (every value is
    [true]); there are [nestedDepth] of them. *)
Theorem getFieldAncestors_of_normalized_fields
  (uuidv4 : nat -> string)
  (uuidv4_inj : forall i j, uuidv4 i = uuidv4 j -> i = j)
  (m : Fields) (id : string) (f : NormalizedField) (fuel : nat) :
  (id, f) ∈ byId (normalize uuidv4 m) -> nestedDepth f <= fuel ->
  exists a,
    getFieldAncestors fuel id (byId (normalize uuidv4 m)) = Some (Ok a) /\
    length a = nestedDepth f /\
    (forall k, k ∈ Object_keys a
               <-> isAncestor (byId (normalize uuidv4 m)) k f) /\
    Forall (fun e => e.2 = true) a.
Proof. by apply getFieldAncestors_normalized. Qed.

Lemma getFieldAncestors_of_normalized_fields_witness :
  exists a,
    getFieldAncestors 1 "id-1" sampleParentChild = Some (Ok a) /\
    length a = 1 /\
    (forall k, k ∈ Object_keys a <-> isAncestor sampleParentChild k sampleChild) /\
    Forall (fun e => e.2 = true) a.
Proof.
  apply (getFieldAncestors_of_normalized_fields sampleUuid sampleUuid_inj
           [("a", object [("b", leaf "text")])] "id-1" sampleChild 1).
  - vm_compute. left.
  - vm_compute. lia.
Defined.

Lemma ancestorsLoop_never_ends (byId : ById) (P : NormalizedField -> Prop) :
  (forall p, P p -> exists pid q, parentId p = Some pid /\
                                  obj_get byId pid = Some q /\ P q) ->
  forall fuel p acc, P p -> ancestorsLoop fuel byId (Some p) acc = None.
Proof.
  intros Hstep. induction fuel as [|fuel IH]; intros p acc Hp; [done|].
  cbn [ancestorsLoop]. destruct (Hstep p Hp) as (pid & q & -> & -> & Hq).
  by apply IH.
Qed.

(** X17: [getFieldAncestors] does not terminate when the parent links
    above the field never end: if the field has the property [P], and
    every field with [P] has a [parentId] that resolves in [byId] to a
    field with [P] (as on a cycle of parents), then no amount of fuel
    lets the loop finish. *)
Theorem getFieldAncestors_loops_on_endless_parents
  (byId : ById) (P : NormalizedField -> Prop) (fieldId : string)
  (f : NormalizedField) :
  obj_get byId fieldId = Some f -> P f ->
  (forall p, P p -> exists pid q, parentId p = Some pid /\
                                  obj_get byId pid = Some q /\ P q) ->
  forall fuel, getFieldAncestors fuel fieldId byId = None.
Proof.
  intros Hf HP Hstep fuel. unfold getFieldAncestors. rewrite Hf.
  destruct (Hstep f HP) as (pid & q & -> & -> & Hq).
  by rewrite (ancestorsLoop_never_ends byId P Hstep fuel q [] Hq).
Qed.

Lemma getFieldAncestors_loops_on_endless_parents_witness :
  getFieldAncestors 1000 "a" sampleCycle = None.
Proof.
  refine (getFieldAncestors_loops_on_endless_parents sampleCycle
            (fun p => p = sampleSelfParent) "a" sampleSelfParent
            eq_refl eq_refl _ 1000).
  intros p ->. exists "a", sampleSelfParent. by split_and!.
Defined.

(** ** The round trip on any tree *)

Section Prune.

Variable uuidv4 : nat -> string.

Lemma visitEntries_ext (im : bool) (s1 s2 : list (string * Field)) :
  Forall2 (fun a b =>
             a.1 = b.1 /\
             forall k paths d pid st,
               normalizeField uuidv4 k a.2 paths d im pid st
               = normalizeField uuidv4 k b.2 paths d im pid st) s1 s2 ->
  forall paths d pid st,
    visitEntries uuidv4 s1 paths d im pid st
    = visitEntries uuidv4 s2 paths d im pid st.
Proof.
  induction 1 as [|[k1 v1] [k2 v2] s1 s2 [Hk Hv] _ IH]; intros paths d pid st;
    [done|].
  cbn [fst snd] in Hk, Hv. subst k2. cbn [visitEntries]. rewrite Hv.
  destruct (normalizeField uuidv4 k1 v2 paths d im pid st) as [st' id].
  by rewrite IH.
Qed.

Lemma prune_eq (im : bool) (t p : option string)
  (ps fs : option (list (string * Field))) (o : list (string * Value)) :
  let m := getFieldMeta (typedField (MkField t p ps fs o)) im in
  prune im (MkField t p ps fs o)
  = MkField (inferType t ps) p
      (match ps with
       | Some l =>
           if hasChildFields m
           then Some (map (fun '(k, x) => (k, prune (canHaveMultiFields m) x)) l)
           else None
       | None => None
       end)
      (match fs with
       | Some l =>
           if hasMultiFields m
           then Some (map (fun '(k, x) => (k, prune (canHaveMultiFields m) x)) l)
           else None
       | None => None
       end) o.
Proof. reflexivity. Qed.

Lemma inferType_idem (t : option string)
  (ps ps' : option (list (string * Field))) :
  (ps' = None \/ is_Some ps) -> inferType (inferType t ps) ps' = inferType t ps.
Proof.
  unfold inferType. intros [->|[l ->]]; destruct t; try done.
  by destruct ps.
Qed.

Lemma nonEmptyContainer_map {A} (g : string * Field -> string * A)
  (l : list (string * Field)) :
  bool_decide (0 < length (Object_keys (map g l)))
  = bool_decide (0 < length (Object_keys l)).
Proof. unfold Object_keys. by rewrite !length_map. Qed.

Lemma prune_facts (im : bool) (v : Field) :
  let m := getFieldMeta (typedField v) im in
  typedField (prune im v) = prune im v /\
  getFieldMeta (prune im v) im = m /\
  (forall k, sourceOf k (prune im v) = sourceOf k (typedField v)) /\
  (hasChildFields m || hasMultiFields m = true ->
   childrenOf (prune im v) (childFieldsName m)
   = map (fun '(k, x) => (k, prune (canHaveMultiFields m) x))
       (childrenOf (typedField v) (childFieldsName m))).
Proof.
  destruct v as [t p ps fs o]. intros m. rewrite prune_eq. fold m.
  split_and!.
  - unfold typedField. cbn [field_type field_properties field_fields
      field_path field_others]. f_equal. apply inferType_idem.
    destruct ps as [l|]; [|by left].
    destruct (hasChildFields m); [right; eauto|by left].
  - subst m. unfold getFieldMeta, typedField.
    cbn [field_type field_properties field_fields field_path field_others
         hasChildFields hasMultiFields canHaveMultiFields canHaveChildFields].
    destruct im; [done|].
    destruct (getChildFieldsName (inferType t ps)) as [[|]|];
      cbn [field_container field_properties field_fields field_others];
      rewrite ?bool_decide_eq_true_2, ?bool_decide_eq_false_2 by done;
      rewrite ?andb_true_l, ?andb_false_l.
    + destruct ps as [l|]; [|done]. cbn [nonEmptyContainer].
      destruct (bool_decide (0 < length (Object_keys l))) eqn:E;
        cbn [nonEmptyContainer]; [|done].
      by rewrite nonEmptyContainer_map, E.
    + destruct fs as [l|]; [|done]. cbn [nonEmptyContainer].
      destruct (bool_decide (0 < length (Object_keys l))) eqn:E;
        cbn [nonEmptyContainer]; [|done].
      by rewrite nonEmptyContainer_map, E.
    + done.
  - intros k. reflexivity.
  - intros Hhas. subst m. revert Hhas. unfold getFieldMeta, typedField.
    cbn [field_type field_properties field_fields field_path field_others
         hasChildFields hasMultiFields canHaveMultiFields canHaveChildFields
         childFieldsName].
    destruct im; [done|].
    destruct (getChildFieldsName (inferType t ps)) as [[|]|];
      cbn [field_container field_properties field_fields field_others];
      rewrite ?bool_decide_eq_true_2, ?bool_decide_eq_false_2 by done;
      rewrite ?andb_true_l, ?andb_false_l, ?orb_false_r, ?orb_false_l;
      unfold childrenOf; cbn [field_properties field_fields].
    + destruct ps as [l|]; [|done]. cbn [nonEmptyContainer]. by intros ->.
    + destruct fs as [l|]; [|done]. cbn [nonEmptyContainer]. by intros ->.
    + done.
Qed.

Lemma normalizeField_prune (v : Field) :
  forall k paths d im pid st,
    normalizeField uuidv4 k (prune im v) paths d im pid st
    = normalizeField uuidv4 k v paths d im pid st.
Proof.
  induction v as [value IH] using Field_children_ind.
  intros k paths d im pid st. rewrite !normalizeField_unfold.
  unfold visitField.
  destruct (prune_facts im value) as (Htyped & Hmeta & Hsrc & Hkids).
  cbv zeta in Hmeta, Hkids. rewrite Htyped, Hmeta, Hsrc.
  set (m := getFieldMeta (typedField value) im) in *.
  destruct (hasChildFields m || hasMultiFields m) eqn:Hhas; [|done].
  rewrite (Hkids eq_refl), !normalizeFields_unfold.
  rewrite (sortEntries_map (fun _ x => prune (canHaveMultiFields m) x)).
  rewrite (visitEntries_ext (canHaveMultiFields m) _
             (sortEntries (childrenOf (typedField value) (childFieldsName m))));
    [done|].
  specialize (IH (childFieldsName m)).
  induction IH as [|[k' x] l Hx _ IHl]; [constructor|].
  cbn [map]. constructor; [|exact IHl]. split; [done|].
  intros. apply Hx.
Qed.

Lemma normalize_pruneFields (m : Fields) :
  normalize uuidv4 (pruneFields m) = normalize uuidv4 m.
Proof.
  unfold normalize, pruneFields. rewrite !normalizeFields_unfold.
  rewrite (sortEntries_map (fun _ x => prune false x)).
  rewrite (visitEntries_ext false _ (sortEntries m)); [done|].
  induction (sortEntries m) as [|[k x] l IHl]; [constructor|].
  cbn [map]. constructor; [|exact IHl]. split; [done|].
  intros. apply normalizeField_prune.
Qed.

Lemma sortEntries_of_sorted {A} (l : list (string * A)) :
  Sorted (fun a b => String.le a.1 b.1) l -> sortEntries l = l.
Proof.
  induction 1 as [|x l Hs IH Hhd]; [done|].
  unfold sortEntries in *. cbn [foldr]. rewrite IH.
  destruct Hhd as [|y l' Hle]; [done|]. cbn [insertEntry].
  apply compareKeys_le in Hle. by rewrite decide_True.
Qed.

Lemma sortEntries_idem {A} (l : list (string * A)) :
  sortEntries (sortEntries l) = sortEntries l.
Proof. apply sortEntries_of_sorted, sortEntries_Sorted. Qed.

Lemma sortField_eq (t p : option string)
  (ps fs : option (list (string * Field))) (o : list (string * Value)) :
  sortField (MkField t p ps fs o)
  = MkField t p
      (match ps with
       | Some l => Some (sortEntries (map (fun '(k, x) => (k, sortField x)) l))
       | None => None
       end)
      (match fs with
       | Some l => Some (sortEntries (map (fun '(k, x) => (k, sortField x)) l))
       | None => None
       end) o.
Proof. reflexivity. Qed.

Lemma sortField_facts (im : bool) (v : Field) :
  getFieldMeta (typedField (sortField v)) im = getFieldMeta (typedField v) im /\
  (forall k, sourceOf k (typedField (sortField v)) = sourceOf k (typedField v)) /\
  (forall c, childrenOf (typedField (sortField v)) c
             = sortEntries (map (fun '(k, x) => (k, sortField x))
                              (childrenOf (typedField v) c))).
Proof.
  destruct v as [t p ps fs o]. rewrite sortField_eq.
  assert (Hlen : forall l : list (string * Field),
             length (Object_keys
                       (sortEntries (map (fun '(k, x) => (k, sortField x)) l)))
             = length (Object_keys l)).
  { intros l. unfold Object_keys. rewrite !length_map.
    rewrite (Permutation_length (sortEntries_Permutation _)).
    by rewrite length_map. }
  split_and!.
  - unfold getFieldMeta, typedField.
    cbn [field_type field_properties field_fields field_path field_others].
    destruct ps as [lp|], fs as [lf|], t as [t|]; cbn [inferType];
      (destruct (getChildFieldsName _) as [[|]|];
       cbn [field_container field_properties field_fields field_others
            nonEmptyContainer]; rewrite ?Hlen; done).
  - intros k. unfold sourceOf, typedField.
    cbn [field_type field_properties field_fields field_path field_others].
    f_equal. by destruct t, ps.
  - intros [[|]|]; unfold childrenOf, typedField;
      cbn [field_type field_properties field_fields field_path field_others];
      [by destruct ps|by destruct fs|done].
Qed.

Lemma normalizeField_sortField (v : Field) :
  forall k paths d im pid st,
    normalizeField uuidv4 k (sortField v) paths d im pid st
    = normalizeField uuidv4 k v paths d im pid st.
Proof.
  induction v as [value IH] using Field_children_ind.
  intros k paths d im pid st. rewrite !normalizeField_unfold.
  unfold visitField.
  destruct (sortField_facts im value) as (Hmeta & Hsrc & Hkids).
  rewrite Hmeta, Hsrc.
  set (m := getFieldMeta (typedField value) im) in *.
  destruct (hasChildFields m || hasMultiFields m) eqn:Hhas; [|done].
  rewrite Hkids, !normalizeFields_unfold, sortEntries_idem.
  rewrite (sortEntries_map (fun _ x => sortField x)).
  rewrite (visitEntries_ext (canHaveMultiFields m) _
             (sortEntries (childrenOf (typedField value) (childFieldsName m))));
    [done|].
  specialize (IH (childFieldsName m)).
  induction IH as [|[k' x] l Hx _ IHl]; [constructor|].
  cbn [map]. constructor; [|exact IHl]. split; [done|].
  intros. apply Hx.
Qed.

Lemma normalize_sortFields (m : Fields) :
  normalize uuidv4 (sortFields m) = normalize uuidv4 m.
Proof.
  unfold normalize, sortFields. rewrite !normalizeFields_unfold.
  rewrite sortEntries_idem.
  rewrite (sortEntries_map (fun _ x => sortField x)).
  rewrite (visitEntries_ext false _ (sortEntries m)); [done|].
  induction (sortEntries m) as [|[k x] l IHl]; [constructor|].
  cbn [map]. constructor; [|exact IHl]. split; [done|].
  intros. apply normalizeField_sortField.
Qed.

Lemma canonical_prune (v : Field) : forall im, canonical im (prune im v).
Proof.
  induction v as [t p ps fs o IHps IHfs] using Field_tree_ind. intros im.
  destruct (prune_facts im (MkField t p ps fs o)) as (_ & Hmeta & _).
  cbv zeta in Hmeta. revert Hmeta. rewrite prune_eq.
  set (m := getFieldMeta (typedField (MkField t p ps fs o)) im).
  intros Hmeta. cbn [canonical]. rewrite Hmeta.
  destruct (getFieldMeta_flags (typedField (MkField t p ps fs o)) im)
    as (_ & _ & Hex & Hhc & Hhm & _). fold m in Hex, Hhc, Hhm.
  split.
  - destruct ps as [l|]; [|done].
    destruct (hasChildFields m) eqn:Hc; [|done]. split; [done|].
    apply all_canonical_Forall.
    assert (canHaveMultiFields m = false) as ->.
    { apply Hex. by apply Hhc. }
    specialize (IHps l eq_refl). apply Forall_forall.
    intros e [[k x] [-> Hin]]%list_elem_of_fmap. cbn [snd].
    eapply Forall_forall in IHps; [|exact Hin]. apply IHps.
  - destruct fs as [l|]; [|done].
    destruct (hasMultiFields m) eqn:Hc; [|done]. split; [done|].
    apply all_canonical_Forall.
    assert (canHaveMultiFields m = true) as ->.
    { by apply Hhm. }
    specialize (IHfs l eq_refl). apply Forall_forall.
    intros e [[k x] [-> Hin]]%list_elem_of_fmap. cbn [snd].
    eapply Forall_forall in IHfs; [|exact Hin]. apply IHfs.
Qed.

Lemma uniqueNames_prune (v : Field) :
  forall im, uniqueNames v -> uniqueNames (prune im v).
Proof.
  induction v as [t p ps fs o IHps IHfs] using Field_tree_ind.
  intros im [Ups Ufs]. rewrite prune_eq. cbn [uniqueNames].
  assert (Hkept : forall (b im' : bool) (c : option (list (string * Field))),
    (forall l, c = Some l ->
       Forall (fun e => forall im, uniqueNames e.2 -> uniqueNames (prune im e.2))
         l) ->
    match c with
    | Some l =>
        NoDup (map fst l) /\
        (fix go (l : list (string * Field)) : Prop :=
           match l with
           | [] => True
           | (_, x) :: l' => uniqueNames x /\ go l'
           end) l
    | None => True
    end ->
    match
      match c with
      | Some l =>
          if b then Some (map (fun '(k, x) => (k, prune im' x)) l) else None
      | None => None
      end
    with
    | Some l =>
        NoDup (map fst l) /\
        (fix go (l : list (string * Field)) : Prop :=
           match l with
           | [] => True
           | (_, x) :: l' => uniqueNames x /\ go l'
           end) l
    | None => True
    end).
  { intros b im' [l|] IH U; [|done]. destruct b; [|done].
    destruct U as [Hnd U]. apply all_uniqueNames_Forall in U. split.
    - rewrite map_map. erewrite map_ext; [exact Hnd|]. by intros [k x].
    - apply all_uniqueNames_Forall. specialize (IH l eq_refl).
      apply Forall_forall.
      intros e [[k x] [-> Hin]]%list_elem_of_fmap. cbn [snd].
      eapply Forall_forall in IH; [|exact Hin].
      eapply Forall_forall in U; [|exact Hin]. by apply IH. }
  split; by apply Hkept.
Qed.

Lemma fieldHeight_prune (v : Field) :
  forall im, fieldHeight (prune im v) <= fieldHeight v.
Proof.
  induction v as [t p ps fs o IHps IHfs] using Field_tree_ind.
  intros im. rewrite prune_eq. cbn [fieldHeight].
  assert (Hkept : forall (b im' : bool) (c : option (list (string * Field))),
    (forall l, c = Some l ->
       Forall (fun e => forall im, fieldHeight (prune im e.2) <= fieldHeight e.2)
         l) ->
    match
      match c with
      | Some l =>
          if b then Some (map (fun '(k, x) => (k, prune im' x)) l) else None
      | None => None
      end
    with
    | Some l => S (fold_right Nat.max 0 (map (fun '(_, x) => fieldHeight x) l))
    | None => 0
    end
    <= match c with
       | Some l =>
           S (fold_right Nat.max 0 (map (fun '(_, x) => fieldHeight x) l))
       | None => 0
       end).
  { intros b im' [l|] IH; [|done]. destruct b; [|lia].
    apply le_n_S. apply max_heights_le. specialize (IH l eq_refl).
    apply Forall_forall.
    intros e [[k x] [-> Hin]]%list_elem_of_fmap. cbn [snd].
    eapply Forall_forall in IH; [|exact Hin]. cbn [snd] in IH.
    etrans; [apply IH|].
    assert (Hall : Forall (fun e => fieldHeight e.2
              <= fold_right Nat.max 0 (map (fun '(_, x) => fieldHeight x) l)) l)
      by (by apply max_heights_le).
    eapply Forall_forall in Hall; [|exact Hin]. exact Hall. }
  pose proof (Hkept (hasChildFields
                (getFieldMeta (typedField (MkField t p ps fs o)) im))
              (canHaveMultiFields
                (getFieldMeta (typedField (MkField t p ps fs o)) im))
              ps IHps).
  pose proof (Hkept (hasMultiFields
                (getFieldMeta (typedField (MkField t p ps fs o)) im))
              (canHaveMultiFields
                (getFieldMeta (typedField (MkField t p ps fs o)) im))
              fs IHfs).
  lia.
Qed.

Lemma map_prune_id (im : bool) (l : list (string * Field)) :
  Forall (fun e => forall im, canonical im e.2 -> prune im e.2 = e.2) l ->
  Forall (fun e => canonical im e.2) l ->
  map (fun '(k, x) => (k, prune im x)) l = l.
Proof.
  induction 1 as [|[k x] l Hx _ IH]; intros Hcan; [done|].
  apply Forall_cons in Hcan as [Hc Hcan]. cbn [map snd] in *.
  rewrite (Hx im Hc), IH; done.
Qed.

Lemma prune_canonical (v : Field) :
  forall im, canonical im v -> prune im v = v.
Proof.
  induction v as [t p ps fs o IHps IHfs] using Field_tree_ind.
  intros im Hcan.
  pose proof (canonical_typedField im _ Hcan) as Htyped.
  rewrite prune_eq. rewrite Htyped.
  assert (Ht : inferType t ps = t).
  { unfold typedField in Htyped. cbn in Htyped. congruence. }
  rewrite Ht. cbn [canonical] in Hcan. destruct Hcan as [Hps Hfs].
  set (m := getFieldMeta (MkField t p ps fs o) im) in *.
  destruct (getFieldMeta_flags (MkField t p ps fs o) im)
    as (_ & _ & Hex & Hhc & Hhm & _). fold m in Hex, Hhc, Hhm.
  f_equal.
  - destruct ps as [l|]; [|done]. destruct Hps as [Hhas Hall].
    apply all_canonical_Forall in Hall. rewrite Hhas.
    assert (canHaveMultiFields m = false) as ->.
    { apply Hex. by apply Hhc. }
    f_equal. by apply map_prune_id; [apply IHps|].
  - destruct fs as [l|]; [|done]. destruct Hfs as [Hhas Hall].
    apply all_canonical_Forall in Hall. rewrite Hhas.
    assert (canHaveMultiFields m = true) as -> by (by apply Hhm).
    f_equal. by apply map_prune_id; [apply IHfs|].
Qed.

Lemma pruneFields_facts (m : Fields) :
  (uniqueNamesFields m -> uniqueNamesFields (pruneFields m)) /\
  canonicalFields (pruneFields m) /\
  fieldsHeight (pruneFields m) <= fieldsHeight m /\
  (canonicalFields m -> pruneFields m = m).
Proof.
  unfold pruneFields. split_and!.
  - intros [Hnd U]. split.
    + unfold Object_keys. rewrite map_map. erewrite map_ext; [exact Hnd|].
      by intros [k x].
    + apply Forall_forall.
      intros e [[k x] [-> Hin]]%list_elem_of_fmap. cbn [snd].
      eapply Forall_forall in U; [|exact Hin]. by apply uniqueNames_prune.
  - apply Forall_forall.
    intros e [[k x] [-> Hin]]%list_elem_of_fmap. cbn [snd].
    apply canonical_prune.
  - unfold fieldsHeight. apply le_n_S, max_heights_le, Forall_forall.
    intros e [[k x] [-> Hin]]%list_elem_of_fmap. cbn [snd].
    etrans; [apply fieldHeight_prune|].
    assert (Hall : Forall (fun e => fieldHeight e.2
              <= fold_right Nat.max 0 (map (fun '(_, x) => fieldHeight x) m)) m)
      by (by apply max_heights_le).
    eapply Forall_forall in Hall; [|exact Hin]. exact Hall.
  - intros Hcan. apply map_prune_id; [|exact Hcan].
    apply Forall_forall. intros e _ im. apply prune_canonical.
Qed.

End Prune.

(** X18: the round trip on any tree with unique sibling names: when the
    generated ids are distinct, and with fuel for the height of the tree,
    [deNormalize (normalize m)] is the tree [m] as [normalize] reads it
    ([pruneFields]: the type ['object'] set where only [properties] are
    given, a child container kept only where [getFieldMeta] reports
    children) with the keys of every level sorted; a tree whose containers
    are all reported is read as it is. *)
Theorem roundtrip_of_any_tree
  (uuidv4 : nat -> string)
  (uuidv4_inj : forall i j, uuidv4 i = uuidv4 j -> i = j)
  (m : Fields) (fuel : nat) :
  uniqueNamesFields m -> fieldsHeight m <= fuel ->
  deNormalize fuel (normalize uuidv4 m)
  = Some (Ok (sortFields (pruneFields m))) /\
  (canonicalFields m -> pruneFields m = m).
Proof.
  intros Hu Hfuel.
  destruct (pruneFields_facts m) as (Hu' & Hcan & Hh & Hid).
  split; [|exact Hid].
  rewrite <- (normalize_pruneFields uuidv4 m).
  apply (roundtrip_canonical uuidv4 uuidv4_inj);
    [by apply Hu'|exact Hcan|lia].
Qed.

Lemma sampleMultiInMulti_unique : uniqueNamesFields sampleMultiInMulti.
Proof.
  split; [by apply (bool_decide_unpack _)|].
  repeat constructor; cbn; by apply (bool_decide_unpack _).
Qed.

Lemma sampleUnsorted_unique : uniqueNamesFields sampleUnsorted.
Proof.
  split; [by apply (bool_decide_unpack _)|].
  repeat constructor; cbn; by apply (bool_decide_unpack _).
Qed.

Lemma roundtrip_of_any_tree_witness :
  deNormalize 3 (normalize sampleUuid sampleMultiInMulti)
  = Some (Ok (sortFields (pruneFields sampleMultiInMulti))) /\
  (canonicalFields sampleMultiInMulti ->
   pruneFields sampleMultiInMulti = sampleMultiInMulti).
Proof.
  apply (roundtrip_of_any_tree sampleUuid sampleUuid_inj sampleMultiInMulti 3).
  - exact sampleMultiInMulti_unique.
  - vm_compute. lia.
Defined.

(** X19: the denormalized tree is a fixed point: under the same
    conditions, normalizing the result of [deNormalize (normalize m)] with
    the same id source gives [normalize m] again, so a second round trip
    returns the same tree. *)
Theorem normalize_of_denormalized_is_the_same
  (uuidv4 : nat -> string)
  (uuidv4_inj : forall i j, uuidv4 i = uuidv4 j -> i = j)
  (m : Fields) (fuel : nat) :
  uniqueNamesFields m -> fieldsHeight m <= fuel ->
  exists out,
    deNormalize fuel (normalize uuidv4 m) = Some (Ok out) /\
    normalize uuidv4 out = normalize uuidv4 m /\
    deNormalize fuel (normalize uuidv4 out) = Some (Ok out).
Proof.
  intros Hu Hfuel.
  destruct (pruneFields_facts m) as (Hu' & Hcan & Hh & _).
  assert (Hrt : deNormalize fuel (normalize uuidv4 m)
                = Some (Ok (sortFields (pruneFields m)))).
  { rewrite <- (normalize_pruneFields uuidv4 m).
    apply (roundtrip_canonical uuidv4 uuidv4_inj);
      [by apply Hu'|exact Hcan|lia]. }
  assert (Hn : normalize uuidv4 (sortFields (pruneFields m))
               = normalize uuidv4 m).
  { by rewrite normalize_sortFields, normalize_pruneFields. }
  exists (sortFields (pruneFields m)). split_and!; [done|done|].
  by rewrite Hn.
Qed.

Lemma normalize_of_denormalized_is_the_same_witness :
  exists out,
    deNormalize 2 (normalize sampleUuid sampleUnsorted) = Some (Ok out) /\
    normalize sampleUuid out = normalize sampleUuid sampleUnsorted /\
    deNormalize 2 (normalize sampleUuid out) = Some (Ok out).
Proof.
  apply (normalize_of_denormalized_is_the_same sampleUuid sampleUuid_inj
           sampleUnsorted 2).
  - exact sampleUnsorted_unique.
  - vm_compute. lia.
Defined.

(** ** stripUndefinedValues *)

Lemma JsValue_object_ind (P : JsValue -> Prop) :
  (forall o, Forall (fun e => P e.2) o -> P (JObject o)) ->
  (forall v, (forall o, v <> JObject o) -> P v) ->
  forall v, P v.
Proof.
  intros Hobj Hother. fix IH 1. intros v.
  destruct v as [| | b | n | s | items | time | o];
    try (apply Hother; intros o' Heq; discriminate Heq).
  apply Hobj.
  induction o as [|[k x] o IHo]; constructor; [apply IH|apply IHo].
Qed.

Lemma strippedDeep_Forall (o : list (string * JsValue)) :
  (fix go (l : list (string * JsValue)) : Prop :=
     match l with
     | [] => True
     | (_, x) :: l' => (x <> JUndefined /\ strippedDeep x) /\ go l'
     end) o
  <-> Forall (fun e => e.2 <> JUndefined /\ strippedDeep e.2) o.
Proof.
  induction o as [|[k x] o IH]; [by split; [constructor|]|].
  rewrite Forall_cons, <- IH. done.
Qed.

Lemma isUndefined_false (v : JsValue) :
  isUndefined v = false <-> v <> JUndefined.
Proof. destruct v; split; try done; intros H; by destruct H. Qed.

Lemma stripUndefinedValuesOf_other (recursive : bool) (v : JsValue) :
  (forall o, v <> JObject o) -> stripUndefinedValuesOf recursive v = v.
Proof. intros H. destruct v; try done. by destruct (H entries). Qed.

Lemma stripUndefinedValuesOf_object (recursive : bool) (o : GenericObject) :
  stripUndefinedValuesOf recursive (JObject o)
  = JObject (stripUndefinedValues o recursive).
Proof. reflexivity. Qed.

Lemma stripEntry_eq (recursive : bool) (acc : GenericObject) (k : string)
  (v : JsValue) :
  stripEntry recursive (stripUndefinedValuesOf recursive) acc k v
  = if isUndefined v then acc
    else obj_set acc k
           (if recursive then stripUndefinedValuesOf recursive v else v).
Proof. destruct v, recursive; reflexivity. Qed.

Lemma strip_fold (recursive : bool) (l acc : GenericObject) :
  NoDup (Object_keys acc ++ Object_keys l) ->
  fold_left
    (fun (acc : GenericObject) (e : string * JsValue) =>
       stripEntry recursive (stripUndefinedValuesOf recursive) acc e.1 e.2)
    l acc
  = acc ++ map (fun e => (e.1, if recursive
                               then stripUndefinedValuesOf recursive e.2
                               else e.2))
             (List.filter (fun e => negb (isUndefined e.2)) l).
Proof.
  revert acc. induction l as [|[k v] l IH]; intros acc Hnd.
  - by rewrite app_nil_r.
  - cbn [fold_left List.filter fst snd]. rewrite stripEntry_eq.
    cbn [Object_keys map fst] in Hnd.
    destruct (isUndefined v) eqn:Hu; cbn [negb].
    + apply IH. apply NoDup_app in Hnd as (H1 & H2 & H3).
      apply NoDup_cons in H3 as [_ H3]. apply NoDup_app. split_and!; [done| |done].
      intros x Hx Hin. apply (H2 x Hx). by right.
    + rewrite obj_set_fresh.
      * rewrite IH; [by rewrite <- app_assoc|].
        unfold Object_keys at 1. rewrite map_app, <- app_assoc. exact Hnd.
      * apply NoDup_app in Hnd as (_ & Hdis & _). intros Hin.
        apply (Hdis k Hin). left.
Qed.

Lemma strip_fold_clean (recursive : bool) (P : string * JsValue -> Prop)
  (l acc : GenericObject) :
  NoDup (Object_keys acc) -> Forall P acc ->
  Forall (fun e => e.2 <> JUndefined ->
                   P (e.1, if recursive
                           then stripUndefinedValuesOf recursive e.2
                           else e.2)) l ->
  let out :=
    fold_left
      (fun (acc : GenericObject) (e : string * JsValue) =>
         stripEntry recursive (stripUndefinedValuesOf recursive) acc e.1 e.2)
      l acc in
  NoDup (Object_keys out) /\ Forall P out.
Proof.
  revert acc. induction l as [|[k v] l IH]; intros acc Hnd Hacc Hl; [done|].
  apply Forall_cons in Hl as [Hv Hl]. cbn [fold_left fst snd] in *.
  rewrite stripEntry_eq. destruct (isUndefined v) eqn:Hu.
  - by apply IH.
  - apply IH; [by apply NoDup_keys_obj_set| |done].
    apply Forall_obj_set; [done|]. apply Hv. by apply isUndefined_false.
Qed.

Lemma stripUndefinedValuesOf_stripped (v : JsValue) :
  strippedDeep (stripUndefinedValuesOf true v).
Proof.
  induction v as [o IH|v Hv] using JsValue_object_ind.
  - cbn [stripUndefinedValuesOf strippedDeep]. rewrite strippedDeep_Forall.
    apply (strip_fold_clean true
             (fun e => e.2 <> JUndefined /\ strippedDeep e.2) o []).
    + constructor.
    + constructor.
    + eapply Forall_impl; [exact IH|]. intros [k x] Hx Hdef. cbn [fst snd] in *.
      split; [|exact Hx].
      destruct x; try done; by destruct Hdef.
  - rewrite stripUndefinedValuesOf_other by done.
    destruct v; try done. by destruct (Hv entries).
Qed.

Lemma filter_all {A} (p : A -> bool) (l : list A) :
  Forall (fun x => p x = true) l -> List.filter p l = l.
Proof.
  induction 1 as [|x l Hx _ IH]; [done|]. cbn. by rewrite Hx, IH.
Qed.

Lemma stripUndefinedValuesOf_fixed (v : JsValue) :
  strippedDeep v -> stripUndefinedValuesOf true v = v.
Proof.
  induction v as [o IH|v Hv] using JsValue_object_ind;
    [|intros _; by apply stripUndefinedValuesOf_other].
  cbn [strippedDeep]. rewrite strippedDeep_Forall. intros [Hnd Hall].
  cbn [stripUndefinedValuesOf]. f_equal.
  rewrite strip_fold by done. cbn [app].
  rewrite filter_all.
  - induction o as [|[k x] o IHo]; [done|].
    apply Forall_cons in IH as [Hx IH]. apply Forall_cons in Hall as [Hk Hall].
    apply NoDup_cons in Hnd as [_ Hnd]. cbn [map fst snd] in *.
    rewrite Hx by apply Hk. f_equal. by apply IHo.
  - eapply Forall_impl; [exact Hall|]. intros e [Hdef _].
    apply isUndefined_false in Hdef. by rewrite Hdef.
Qed.

(** X20: on an object whose keys are distinct, [stripUndefinedValues]
    keeps, in their order, exactly the entries whose value is not
    [undefined]; a kept value that is not an object (an array or a date
    too, whatever it holds) stays as it is, and a kept object is stripped
    in turn when [recursive] is set and stays as it is otherwise. *)
Theorem stripUndefinedValues_keeps_the_defined_entries
  (obj : GenericObject) (recursive : bool) :
  NoDup (Object_keys obj) ->
  stripUndefinedValues obj recursive
  = map (fun e => (e.1, if recursive
                        then stripUndefinedValuesOf true e.2 else e.2))
      (List.filter (fun e => negb (isUndefined e.2)) obj) /\
  (forall o, stripUndefinedValuesOf true (JObject o)
             = JObject (stripUndefinedValues o true)) /\
  (forall v, (forall o, v <> JObject o) -> stripUndefinedValuesOf true v = v).
Proof.
  intros Hnd. split_and!.
  - unfold stripUndefinedValues, Object_entries.
    rewrite strip_fold by done. by destruct recursive.
  - intros o. reflexivity.
  - intros v Hv. by apply stripUndefinedValuesOf_other.
Qed.

Lemma stripUndefinedValues_keeps_the_defined_entries_witness :
  stripUndefinedValues sampleSparse true
  = map (fun e => (e.1, if true
                        then stripUndefinedValuesOf true e.2 else e.2))
      (List.filter (fun e => negb (isUndefined e.2)) sampleSparse) /\
  (forall o, stripUndefinedValuesOf true (JObject o)
             = JObject (stripUndefinedValues o true)) /\
  (forall v, (forall o, v <> JObject o) -> stripUndefinedValuesOf true v = v).
Proof.
  apply (stripUndefinedValues_keeps_the_defined_entries sampleSparse true).
  by apply (bool_decide_unpack _).
Defined.

(** X21: whatever the object, the result of [stripUndefinedValues] has no
    [undefined] value: at the top level in either mode, and with
    [recursive] set in no object nested through objects either (arrays are
    not looked into); stripping the result again changes nothing. *)
Theorem stripUndefinedValues_leaves_no_undefined (obj : GenericObject) :
  (forall recursive,
      Forall (fun e => e.2 <> JUndefined)
        (stripUndefinedValues obj recursive)) /\
  strippedDeep (JObject (stripUndefinedValues obj true)) /\
  (forall recursive,
      stripUndefinedValues (stripUndefinedValues obj recursive) recursive
      = stripUndefinedValues obj recursive).
Proof.
  assert (Htop : forall recursive,
             NoDup (Object_keys (stripUndefinedValues obj recursive)) /\
             Forall (fun e => e.2 <> JUndefined)
               (stripUndefinedValues obj recursive)).
  { intros recursive.
    apply (strip_fold_clean recursive (fun e => e.2 <> JUndefined) obj []);
      [constructor|constructor|].
    apply Forall_forall. intros [k x] _ Hdef. cbn [fst snd] in *.
    destruct recursive; [|done]. destruct x; try done; by destruct Hdef. }
  pose proof (stripUndefinedValuesOf_stripped (JObject obj)) as Hdeep.
  rewrite stripUndefinedValuesOf_object in Hdeep.
  split_and!.
  - intros recursive. apply Htop.
  - exact Hdeep.
  - intros [|].
    + pose proof (stripUndefinedValuesOf_fixed _ Hdeep) as Hfix.
      rewrite stripUndefinedValuesOf_object in Hfix. by injection Hfix.
    + destruct (Htop false) as [Hnd Hall].
      unfold stripUndefinedValues at 1. unfold Object_entries.
      rewrite strip_fold by done. cbn [app]. rewrite filter_all.
      * induction (stripUndefinedValues obj false) as [|[k x] l IHl]; [done|].
        cbn [map fst snd]. f_equal. apply IHl.
        -- by apply NoDup_cons in Hnd as [_ ?].
        -- by apply Forall_cons in Hall as [_ ?].
      * eapply Forall_impl; [exact Hall|]. intros e Hdef.
        apply isUndefined_false in Hdef. by rewrite Hdef.
Qed.

(** ** Runtime fields *)

Section RuntimeFieldsFacts.

Lemma omit_obj_set_same {A} (k : string) (o : Obj A) (v : A) :
  omit k (obj_set o k v) = omit k o.
Proof.
  unfold omit. induction o as [|[k' v'] o IH]; cbn [obj_set List.filter fst].
  - case_bool_decide; [done|done].
  - destruct (decide (k' = k)) as [->|Hne]; cbn [List.filter fst].
    + case_bool_decide; [done|done].
    + case_bool_decide; [|done]. by rewrite IH.
Qed.

Lemma omit_app {A} (k : string) (o1 o2 : Obj A) :
  omit k (o1 ++ o2) = omit k o1 ++ omit k o2.
Proof. unfold omit. apply List.filter_app. Qed.

Lemma omit_absent {A} (k : string) (o : Obj A) :
  k ∉ Object_keys o -> omit k o = o.
Proof.
  intros Hk. unfold omit. apply filter_all, Forall_forall.
  intros [k' v] Hin. apply bool_decide_eq_true. cbn [fst]. intros ->.
  apply Hk. apply list_elem_of_fmap. by exists (k, v).
Qed.

Lemma keys_omit {A} (k k' : string) (o : Obj A) :
  k' ∈ Object_keys (omit k o) <-> k' <> k /\ k' ∈ Object_keys o.
Proof.
  unfold Object_keys, omit. rewrite !list_elem_of_fmap. split.
  - intros ([k0 v] & -> & Hin). apply list_elem_of_In, filter_In in Hin
      as [Hin Hne]. apply bool_decide_eq_true in Hne. cbn [fst] in *.
    split; [done|]. exists (k0, v). split; [done|by apply list_elem_of_In].
  - intros (Hne & [k0 v] & -> & Hin). exists (k0, v). split; [done|].
    apply list_elem_of_In, filter_In. split; [by apply list_elem_of_In|].
    by apply bool_decide_eq_true.
Qed.

Lemma omit_spread {A} (k : string) (o acc : Obj A) :
  NoDup (Object_keys o) ->
  (forall k', k' ∈ Object_keys acc -> k' ∈ Object_keys o -> k' = k) ->
  omit k (spread acc o) = omit k acc ++ omit k o.
Proof.
  unfold spread. revert acc.
  induction o as [|[k' v] o IH]; intros acc Hnd Hdis.
  - cbn [fold_left]. unfold omit at 3. cbn. by rewrite app_nil_r.
  - cbn [fold_left fst snd]. cbn [Object_keys map fst] in Hnd.
    apply NoDup_cons in Hnd as [Hk' Hnd].
    rewrite IH; [|done|].
    + destruct (decide (k' = k)) as [->|Hne].
      * rewrite omit_obj_set_same. unfold omit at 4.
        cbn [List.filter fst]. case_bool_decide; [done|done].
      * rewrite obj_set_fresh.
        -- rewrite omit_app, <- app_assoc. f_equal.
           unfold omit at 1 3. cbn [List.filter fst app].
           case_bool_decide; [done|done].
        -- intros Hin. apply Hne, Hdis; [done|]. cbn. left.
    + intros k0 Hacc Ho.
      destruct (decide (k0 ∈ Object_keys acc)) as [Hin|Hnin].
      * apply Hdis; [done|]. cbn. by right.
      * assert (k0 = k') as ->.
        { destruct (decide (k' ∈ Object_keys acc)) as [Hold|Hnew].
          - by rewrite keys_obj_set_old in Hacc.
          - rewrite keys_obj_set_new in Hacc by done.
            apply elem_of_app in Hacc as [?|Heq]; [done|].
            by apply list_elem_of_singleton in Heq. }
        done.
Qed.

Lemma obj_get_spread {A} (k : string) (o acc : Obj A) :
  NoDup (Object_keys o) ->
  obj_get (spread acc o) k
  = match obj_get o k with Some v => Some v | None => obj_get acc k end.
Proof.
  unfold spread. revert acc.
  induction o as [|[k' v] o IH]; intros acc Hnd; [done|].
  cbn [fold_left fst snd obj_get]. cbn [Object_keys map fst] in Hnd.
  apply NoDup_cons in Hnd as [Hk' Hnd]. rewrite IH by done.
  destruct (decide (k' = k)) as [->|Hne].
  - assert (obj_get o k = None) as -> by (by apply obj_get_None).
    by rewrite obj_get_set_eq.
  - by rewrite obj_get_set_ne.
Qed.

Variable uuidv4 : nat -> string.
Hypothesis uuidv4_inj : forall i j, uuidv4 i = uuidv4 j -> i = j.

Lemma normalizeRuntimeFields_fold (l : RuntimeFields) :
  forall n acc,
    Forall (fun k => exists j, j < n /\ k = uuidv4 j) (Object_keys acc) ->
    fold_left
      (fun (st : nat * NormalizedRuntimeFields) (e : string * GenericObject) =>
         let '(name, field) := e in
         let id := uuidv4 st.1 in
         (S st.1,
          obj_set st.2 id
            (MkNormalizedRuntimeField id
               (spread [("name", JString name)] field))))
      l (n, acc)
    = (n + length l, acc ++ imap (fun i => runtimeEntry uuidv4 (n + i)) l).
Proof.
  induction l as [|[name field] l IH]; intros n acc Hacc.
  - cbn. by rewrite Nat.add_0_r, app_nil_r.
  - cbn [fold_left fst snd imap length]. rewrite obj_set_fresh.
    + rewrite IH.
      * rewrite <- app_assoc. cbn [app]. unfold runtimeEntry at 2.
        cbn [fst snd]. rewrite Nat.add_0_r. f_equal; [lia|]. f_equal. f_equal.
        apply imap_ext. intros i x _. cbn. f_equal. lia.
      * unfold Object_keys. rewrite map_app. apply Forall_app. split.
        -- eapply Forall_impl; [exact Hacc|]. intros k (j & Hj & ->).
           exists j. split; [lia|done].
        -- constructor; [|constructor]. exists n. split; [lia|done].
    + intros Hin. eapply Forall_forall in Hacc; [|exact Hin].
      destruct Hacc as (j & Hj & Heq). apply uuidv4_inj in Heq. lia.
Qed.

Lemma normalizeRuntimeFields_eq (fields : RuntimeFields) :
  normalizeRuntimeFields uuidv4 fields = imap (runtimeEntry uuidv4) fields.
Proof.
  unfold normalizeRuntimeFields, Object_entries.
  rewrite normalizeRuntimeFields_fold by constructor. done.
Qed.

Variable ToPropertyKey : JsValue -> string.

Lemma deNormalizeRuntimeFields_fold (l : RuntimeFields) :
  forall n acc,
    fold_left
      (fun (acc : RuntimeFields) (f : NormalizedRuntimeField) =>
         let name := obj_get (nrf_source f) "name" in
         let rest := omit "name" (nrf_source f) in
         obj_set acc (propertyKey ToPropertyKey name) rest)
      (Object_values (imap (fun i => runtimeEntry uuidv4 (n + i)) l)) acc
    = fold_left
        (fun (acc : RuntimeFields) (e : string * GenericObject) =>
           let source := spread [("name", JString e.1)] e.2 in
           obj_set acc (propertyKey ToPropertyKey (obj_get source "name"))
             (omit "name" source))
        l acc.
Proof.
  induction l as [|e l IH]; intros n acc; [done|].
  cbn [imap Object_values map fold_left snd runtimeEntry nrf_source].
  rewrite <- (IH (S n)). f_equal. unfold Object_values. f_equal.
  apply imap_ext. intros i x _. cbn. do 3 f_equal. lia.
Qed.

Lemma runtime_roundtrip_fold (fields : RuntimeFields) :
  deNormalizeRuntimeFields ToPropertyKey (normalizeRuntimeFields uuidv4 fields)
  = fold_left
      (fun (acc : RuntimeFields) (e : string * GenericObject) =>
         let source := spread [("name", JString e.1)] e.2 in
         obj_set acc (propertyKey ToPropertyKey (obj_get source "name"))
           (omit "name" source))
      fields [].
Proof.
  rewrite normalizeRuntimeFields_eq. unfold deNormalizeRuntimeFields.
  apply (deNormalizeRuntimeFields_fold fields 0 []).
Qed.

End RuntimeFieldsFacts.

Lemma fold_left_ext_in {A B} (f g : A -> B -> A) (l : list B) (a : A) :
  Forall (fun x => forall a, f a x = g a x) l ->
  fold_left f l a = fold_left g l a.
Proof.
  intros H. revert a. induction H as [|x l Hx _ IH]; intros a; [done|].
  cbn. by rewrite Hx, IH.
Qed.

(** X22: the round trip of the runtime fields: when the generated ids
    are distinct, the keys of the object and of every field are distinct,
    and no field has a [name] property of its own,
    [deNormalizeRuntimeFields (normalizeRuntimeFields fields)] is [fields],
    in the same order. *)
Theorem runtimeFields_roundtrip
  (uuidv4 : nat -> string) (ToPropertyKey : JsValue -> string)
  (fields : RuntimeFields) :
  (forall i j, uuidv4 i = uuidv4 j -> i = j) ->
  NoDup (Object_keys fields) ->
  Forall (fun e => NoDup (Object_keys e.2) /\ "name" ∉ Object_keys e.2)
    fields ->
  deNormalizeRuntimeFields ToPropertyKey (normalizeRuntimeFields uuidv4 fields)
  = fields.
Proof.
  intros Hinj Hnd Hall. rewrite runtime_roundtrip_fold by done.
  etrans.
  { apply fold_left_ext_in
      with (g := fun (acc : RuntimeFields) (e : string * GenericObject) =>
                   obj_set acc e.1 (id e.2)).
    eapply Forall_impl; [exact Hall|]. intros [k f] [Hf Hname] acc.
    cbn [fst snd id] in *. cbv zeta.
    rewrite obj_get_spread by done.
    assert (obj_get f "name" = None) as -> by (by apply obj_get_None).
    cbn [obj_get]. rewrite decide_True by done. cbn [propertyKey].
    rewrite omit_spread; [|done|].
    - rewrite (omit_absent "name" f) by done. by vm_compute.
    - intros k' Hk' _. cbn in Hk'. by apply list_elem_of_singleton in Hk'. }
  etrans; [apply (fold_obj_set_new id fields []); done|]. cbn [app].
  clear. induction fields as [|[k f] l IH]; [done|]. cbn. by f_equal.
Qed.

Lemma runtimeFields_roundtrip_witness :
  deNormalizeRuntimeFields (fun _ => "key")
    (normalizeRuntimeFields sampleUuid sampleRuntimeFields)
  = sampleRuntimeFields.
Proof.
  apply (runtimeFields_roundtrip sampleUuid (fun _ => "key")
           sampleRuntimeFields sampleUuid_inj).
  - by apply (bool_decide_unpack _).
  - repeat constructor; cbn; by apply (bool_decide_unpack _).
Defined.

(** X23: a runtime field with a [name] property of its own does not come
    back under its key: for a single field stored under [k] whose [name]
    property is the string [n], the round trip gives the field under the
    key [n], without its [name] property. *)
Theorem runtime_field_own_name_replaces_the_key
  (uuidv4 : nat -> string) (ToPropertyKey : JsValue -> string)
  (k n : string) (field : GenericObject) :
  NoDup (Object_keys field) -> obj_get field "name" = Some (JString n) ->
  deNormalizeRuntimeFields ToPropertyKey
    (normalizeRuntimeFields uuidv4 [(k, field)])
  = [(n, omit "name" field)].
Proof.
  intros Hnd Hname. unfold normalizeRuntimeFields, deNormalizeRuntimeFields.
  cbn [Object_entries fold_left fst snd obj_set Object_values map nrf_source].
  rewrite obj_get_spread by done. rewrite Hname. cbn [propertyKey obj_set].
  rewrite omit_spread; [|done|].
  - by vm_compute.
  - intros k' Hk' _. cbn in Hk'. by apply list_elem_of_singleton in Hk'.
Qed.

Lemma runtime_field_own_name_replaces_the_key_witness :
  deNormalizeRuntimeFields (fun _ => "key")
    (normalizeRuntimeFields sampleUuid
       [("a", [("type", JString "long"); ("name", JString "b")])])
  = [("b", omit "name" [("type", JString "long"); ("name", JString "b")])].
Proof.
  apply (runtime_field_own_name_replaces_the_key sampleUuid (fun _ => "key")
           "a" "b" [("type", JString "long"); ("name", JString "b")]).
  - by apply (bool_decide_unpack _).
  - reflexivity.
Defined.

Lemma obj_get_runtimeEntries (uuidv4 : nat -> string) (l : RuntimeFields) :
  (forall i j, uuidv4 i = uuidv4 j -> i = j) ->
  forall n i e,
    l !! i = Some e ->
    obj_get (imap (fun i => runtimeEntry uuidv4 (n + i)) l) (uuidv4 (n + i))
    = Some (runtimeEntry uuidv4 (n + i) e).2.
Proof.
  intros Hinj. induction l as [|x l IH]; intros n i e Hi; [done|].
  cbn [imap].
  rewrite (imap_ext _ (fun j => runtimeEntry uuidv4 (S n + j)) l)
    by (intros j y _; cbn; f_equal; lia).
  cbn [obj_get runtimeEntry fst snd]. destruct i as [|i].
  - injection Hi as ->. by rewrite decide_True by (f_equal; lia).
  - rewrite decide_False by (intros Heq%Hinj; lia).
    cbn [lookup list_lookup] in Hi.
    replace (n + S i) with (S n + i) by lia.
    apply (IH (S n) i e Hi).
Qed.

(** X24: when the generated ids are distinct, [normalizeRuntimeFields]
    loses no field: the [i]-th field of the object becomes the [i]-th
    entry of the result, stored under the [i]-th id, which the entry also
    holds as its [id], with the source [{ name, ...field }]. *)
Theorem normalizeRuntimeFields_one_entry_per_field
  (uuidv4 : nat -> string) (fields : RuntimeFields) :
  (forall i j, uuidv4 i = uuidv4 j -> i = j) ->
  normalizeRuntimeFields uuidv4 fields = imap (runtimeEntry uuidv4) fields /\
  length (normalizeRuntimeFields uuidv4 fields) = length fields /\
  (forall i name field,
      fields !! i = Some (name, field) ->
      obj_get (normalizeRuntimeFields uuidv4 fields) (uuidv4 i)
      = Some (MkNormalizedRuntimeField (uuidv4 i)
                (spread [("name", JString name)] field))).
Proof.
  intros Hinj. rewrite normalizeRuntimeFields_eq by done.
  split_and!; [done|by rewrite length_imap|].
  intros i name field Hi.
  apply (obj_get_runtimeEntries uuidv4 fields Hinj 0 i (name, field) Hi).
Qed.

Lemma normalizeRuntimeFields_one_entry_per_field_witness :
  normalizeRuntimeFields sampleUuid sampleRuntimeFields
  = imap (runtimeEntry sampleUuid) sampleRuntimeFields /\
  length (normalizeRuntimeFields sampleUuid sampleRuntimeFields)
  = length sampleRuntimeFields /\
  (forall i name field,
      sampleRuntimeFields !! i = Some (name, field) ->
      obj_get (normalizeRuntimeFields sampleUuid sampleRuntimeFields)
        (sampleUuid i)
      = Some (MkNormalizedRuntimeField (sampleUuid i)
                (spread [("name", JString name)] field))).
Proof.
  exact (normalizeRuntimeFields_one_entry_per_field sampleUuid
           sampleRuntimeFields sampleUuid_inj).
Defined.

(** ** The aliases map of normalize *)

Lemma find_Some_elem {A} (p : A -> bool) (l : list A) (x : A) :
  find p l = Some x -> x ∈ l /\ p x = true.
Proof.
  intros H. apply find_some in H as [Hin Hp]. split; [|done].
  by apply list_elem_of_In.
Qed.

Lemma find_is_Some {A} (p : A -> bool) (l : list A) (x : A) :
  x ∈ l -> p x = true -> is_Some (find p l).
Proof.
  intros Hin Hp. destruct (find p l) eqn:E; [eauto|].
  apply list_elem_of_In in Hin.
  by rewrite (find_none _ _ E x Hin) in Hp.
Qed.

Section AliasesOfNormalize.

Variable uuidv4 : nat -> string.
Variable m : Fields.

Lemma aliasTargetId_Some (f : NormalizedField) (t : string) :
  aliasTargetId (walked uuidv4 m) f = Some t ->
  src_type (source f) = Some "alias" /\
  exists g, (t, g) ∈ walked uuidv4 m /\
            src_path (source f) = Some (joinPath (nf_path g)).
Proof.
  unfold aliasTargetId. case_bool_decide as Ht; [|done].
  destruct (find _ _) as [g|] eqn:Hfind; [|done]. cbn. intros [= <-].
  apply find_Some_elem in Hfind as [Hin Hp]. split; [done|].
  unfold Object_values in Hin.
  apply list_elem_of_fmap in Hin as ([k g'] & -> & Hin).
  pose proof (walked_ids_consistent uuidv4 m) as Hids.
  eapply Forall_forall in Hids; [|exact Hin]. cbn [fst snd] in *.
  exists g'. rewrite Hids. split; [done|].
  unfold isAliasTarget in Hp. apply bool_decide_eq_true in Hp. done.
Qed.

Lemma normalize_alias_listed (t k : string) :
  inAliases (aliases (normalize uuidv4 m)) t k ->
  exists a0 g,
    (k, a0) ∈ walked uuidv4 m /\
    src_path (source a0) = Some (joinPath (nf_path g)) /\
    obj_get (byId (normalize uuidv4 m)) k = Some (setAliasPath t a0) /\
    src_type (source a0) = Some "alias" /\
    obj_get (byId (normalize uuidv4 m)) t = Some g /\ nf_id g = t.
Proof.
  rewrite normalize_aliases. intros (a0 & Hin & Ht)%inAliases_aliasesOf.
  destruct (aliasTargetId_Some a0 t Ht) as (Htype & g0 & Hg0 & Hpath).
  exists a0, (resolveField (walked uuidv4 m) g0). split_and!.
  - exact Hin.
  - by rewrite resolveField_path.
  - rewrite (normalize_get_walked uuidv4 m k a0 Hin).
    unfold resolveField. by rewrite Ht.
  - exact Htype.
  - by apply normalize_get_walked.
  - rewrite resolveField_id.
    pose proof (walked_ids_consistent uuidv4 m) as Hids.
    eapply Forall_forall in Hids; [|exact Hg0]. done.
Qed.

Lemma normalize_alias_once (t t' k : string) :
  inAliases (aliases (normalize uuidv4 m)) t k ->
  inAliases (aliases (normalize uuidv4 m)) t' k -> t = t'.
Proof.
  rewrite normalize_aliases.
  intros (a & Ha & Ht)%inAliases_aliasesOf (a' & Ha' & Ht')%inAliases_aliasesOf.
  pose proof (walked_NoDup uuidv4 m) as Hnd.
  apply (obj_get_elem _ _ _ Hnd) in Ha, Ha'. congruence.
Qed.

Lemma normalize_alias_found (k : string) (a0 g : NormalizedField) :
  (k, a0) ∈ walked uuidv4 m -> src_type (source a0) = Some "alias" ->
  g ∈ Object_values (walked uuidv4 m) ->
  src_path (source a0) = Some (joinPath (nf_path g)) ->
  exists t, inAliases (aliases (normalize uuidv4 m)) t k.
Proof.
  intros Hin Htype Hg Hpath.
  assert (is_Some (aliasTargetId (walked uuidv4 m) a0)) as [t Ht].
  { unfold aliasTargetId. rewrite bool_decide_eq_true_2 by done.
    destruct (find_is_Some (isAliasTarget a0) _ g Hg) as [g' ->]; [|by eexists].
    unfold isAliasTarget. by apply bool_decide_eq_true. }
  exists t. rewrite normalize_aliases. apply inAliases_aliasesOf.
  by exists a0.
Qed.

End AliasesOfNormalize.

(** X25: the [aliases] map of the result of [normalize] is consistent
    with [byId]: an id [k] listed under [t] is the id of a field of type
    alias, stored with [source.path] set to [t], whose declared path is
    the dotted path of the field stored at [t]; no id is listed under two
    targets; and every alias whose declared path is the dotted path of
    some field is listed under a target. *)
Theorem normalize_aliases_point_to_fields
  (uuidv4 : nat -> string) (m : Fields) :
  (forall t k,
      inAliases (aliases (normalize uuidv4 m)) t k ->
      exists a0 g,
        (k, a0) ∈ walked uuidv4 m /\
        src_path (source a0) = Some (joinPath (nf_path g)) /\
        obj_get (byId (normalize uuidv4 m)) k = Some (setAliasPath t a0) /\
        src_type (source a0) = Some "alias" /\
        obj_get (byId (normalize uuidv4 m)) t = Some g /\ nf_id g = t) /\
  (forall t t' k,
      inAliases (aliases (normalize uuidv4 m)) t k ->
      inAliases (aliases (normalize uuidv4 m)) t' k -> t = t') /\
  (forall k a0 g,
      (k, a0) ∈ walked uuidv4 m -> src_type (source a0) = Some "alias" ->
      g ∈ Object_values (walked uuidv4 m) ->
      src_path (source a0) = Some (joinPath (nf_path g)) ->
      exists t, inAliases (aliases (normalize uuidv4 m)) t k).
Proof.
  split_and!.
  - apply normalize_alias_listed.
  - apply normalize_alias_once.
  - apply normalize_alias_found.
Qed.

(** ** replaceAliasIdByAliasPath *)

Lemma restoredField_shape (al : Aliases) (o : ById) (k : string)
  (f : NormalizedField) :
  exists p,
    restoredField al o k f = set_source f (set_src_path (source f) p) /\
    ((forall t ids, (t, ids) ∈ al -> k ∉ ids) -> p = src_path (source f)) /\
    ((exists t ids, (t, ids) ∈ al /\ k ∈ ids) ->
     exists t ids, (t, ids) ∈ al /\ k ∈ ids /\ p = Some (targetPath o t)).
Proof.
  revert f. induction al as [|[t ids] al IH]; intros f.
  - exists (src_path (source f)). split_and!.
    + by destruct f as [? ? ? ? ? []].
    + done.
    + by intros (t & ids & ?%elem_of_nil & _).
  - rewrite restoredField_cons. case_bool_decide as Hk.
    + destruct (IH (setAliasPath (targetPath o t) f)) as (p & Hp & Hnone & Hsome).
      exists p. split_and!.
      * rewrite Hp. by destruct f as [? ? ? ? ? []].
      * intros Hno. exfalso. apply (Hno t ids); [left|done].
      * intros _.
        destruct (decide (Exists (fun e : string * list string => k ∈ e.2) al))
          as [Hex|Hnex].
        -- apply Exists_exists in Hex as ([t' ids'] & Hin & Hk').
           destruct Hsome as (t'' & ids'' & Hin'' & Hk'' & ->);
             [by exists t', ids'|].
           exists t'', ids''. split_and!; [by right|done|done].
        -- exists t, ids. split_and!; [left|done|].
           rewrite Hnone; [done|].
           intros t' ids' Hin Hk'. apply Hnex. apply Exists_exists.
           by exists (t', ids').
    + destruct (IH f) as (p & Hp & Hnone & Hsome).
      exists p. split_and!; [done| |].
      * intros Hno. apply Hnone. intros t' ids' Hin.
        apply (Hno t' ids'). by right.
      * intros (t' & ids' & [[= -> ->]|Hin]%elem_of_cons & Hk'); [done|].
        destruct Hsome as (t'' & ids'' & Hin'' & Hk'' & ->);
          [by exists t', ids'|].
        exists t'', ids''. split_and!; [by right|done|done].
Qed.

(** X26: [replaceAliasIdByAliasPath] changes nothing but the
    [source.path] of the fields that [aliases] lists: the keys of the map
    stay as they are, in their order; a field whose id is in no list stays
    as it is; a field whose id is listed gets, as its path, the dotted
    path of the field stored at one of the targets that list it, or the
    empty string when no field is stored at that target. *)
Theorem replaceAliasIdByAliasPath_sets_only_alias_paths
  (aliases : Aliases) (byId : ById) :
  Object_keys (replaceAliasIdByAliasPath aliases byId) = Object_keys byId /\
  (forall k f,
      obj_get byId k = Some f ->
      exists p,
        obj_get (replaceAliasIdByAliasPath aliases byId) k
        = Some (set_source f (set_src_path (source f) p)) /\
        ((forall t ids, (t, ids) ∈ aliases -> k ∉ ids) ->
         p = src_path (source f)) /\
        ((exists t ids, (t, ids) ∈ aliases /\ k ∈ ids) ->
         exists t ids,
           (t, ids) ∈ aliases /\ k ∈ ids /\
           p = Some (match obj_get byId t with
                     | Some target => String.concat "." (nf_path target)
                     | None => EmptyString
                     end))).
Proof.
  split; [apply replaceAliasIdByAliasPath_keys|].
  intros k f Hf. rewrite replaceAliasIdByAliasPath_get, Hf. cbn.
  destruct (restoredField_shape aliases byId k f) as (p & -> & Hnone & Hsome).
  exists p. split_and!; [done|done|exact Hsome].
Qed.

(** ** deNormalize on a map whose ids resolve *)

Lemma keys_obj_set {A} (o : Obj A) (k k' : string) (v : A) :
  k' ∈ Object_keys (obj_set o k v) <-> k' = k \/ k' ∈ Object_keys o.
Proof.
  destruct (decide (k ∈ Object_keys o)) as [Hin|Hnin].
  - rewrite keys_obj_set_old by done. split; [by right|].
    by intros [->|?].
  - rewrite keys_obj_set_new by done.
    rewrite elem_of_app, list_elem_of_singleton. tauto.
Qed.

Lemma listedWithin_mono (n n' : nat) (byId : ById) (f : NormalizedField) :
  n <= n' -> listedWithin n byId f -> listedWithin n' byId f.
Proof.
  revert n' f. induction n as [|n IH]; intros n' f Hle H; [done|].
  destruct n' as [|n']; [lia|]. cbn [listedWithin] in *.
  destruct (childFields (meta f)) as [ids|]; [|done].
  eapply Forall_impl; [exact H|]. intros id (c & Hc & Hs).
  exists c. split; [done|]. apply IH; [lia|done].
Qed.

Lemma listedWithin_transfer (n : nat) (S S' : ById) :
  (forall k c, obj_get S k = Some c ->
               exists c', obj_get S' k = Some c' /\ meta c' = meta c) ->
  forall c c', listedWithin n S c -> meta c' = meta c -> listedWithin n S' c'.
Proof.
  intros Hsame. induction n as [|n IH]; intros c c' Hl Hm; [done|].
  cbn [listedWithin] in *. rewrite Hm.
  destruct (childFields (meta c)) as [ids|]; [|done].
  eapply Forall_impl; [exact Hl|]. intros id (d & Hd & Hld).
  destruct (Hsame id d Hd) as (d' & Hd' & Hmd).
  exists d'. split; [done|]. by eapply IH.
Qed.

Section DeNormalizeReturns.

Variable S : ById.

Lemma deNormalizePaths_returns (n : nat) :
  forall fuel ids acc,
    Forall (fun id => exists c, obj_get S id = Some c
                                /\ listedWithin n S c) ids ->
    n < fuel ->
    exists out,
      deNormalizePaths fuel S ids acc = Some (Ok out) /\
      forall name,
        name ∈ Object_keys out <->
        name ∈ Object_keys acc \/
        exists id c, id ∈ ids /\ obj_get S id = Some c
                     /\ src_name (source c) = name.
Proof.
  induction n as [|n IH]; intros fuel ids.
  - destruct fuel as [|fuel]; [lia|]. intros acc Hall _.
    destruct ids as [|id ids].
    + exists acc. rewrite deNormalizePaths_nil. split; [done|].
      intros name. split; [by left|].
      by intros [?|(id & c & ?%elem_of_nil & _)].
    + apply Forall_cons in Hall as [(c & _ & []) _].
  - destruct fuel as [|fuel]; [lia|]. intros acc Hall Hfuel.
    revert acc. induction ids as [|id ids IHids]; intros acc.
    + exists acc. rewrite deNormalizePaths_nil. split; [done|].
      intros name. split; [by left|].
      by intros [?|(id & c & ?%elem_of_nil & _)].
    + apply Forall_cons in Hall as [(c & Hc & Hl) Hall].
      rewrite deNormalizePaths_cons, (deNormalizePaths_one _ _ _ _ c Hc).
      cbn [listedWithin] in Hl.
      assert (Hrest : forall field,
                 exists out,
                   deNormalizePaths (Datatypes.S fuel) S ids
                     (obj_set acc (src_name (source c)) field)
                   = Some (Ok out) /\
                   forall name,
                     name ∈ Object_keys out <->
                     name ∈ Object_keys acc \/
                     exists id' c', id' ∈ id :: ids /\ obj_get S id' = Some c'
                                    /\ src_name (source c') = name).
      { intros field.
        destruct (IHids Hall (obj_set acc (src_name (source c)) field))
          as (out & -> & Hout).
        exists out. split; [done|]. intros name. rewrite Hout, keys_obj_set.
        split.
        - intros [[->|Hacc]|(id' & c' & Hin & Hc' & Hn)].
          + right. exists id, c. split_and!; [left|done|done].
          + by left.
          + right. exists id', c'. split_and!; [by right|done|done].
        - intros [Hacc|(id' & c' & [->|Hin]%elem_of_cons & Hc' & Hn)].
          + left. by right.
          + left. left. congruence.
          + right. by exists id', c'. }
      destruct (childFields (meta c)) as [children|].
      * destruct (IH fuel children [] Hl ltac:(lia)) as (sub & -> & _).
        cbn [bindF]. apply Hrest.
      * cbn [bindF]. apply Hrest.
Qed.

End DeNormalizeReturns.

Lemma replaceAliasIdByAliasPath_same_meta (al : Aliases) (byId : ById)
  (k : string) (c : NormalizedField) :
  obj_get byId k = Some c ->
  exists c', obj_get (replaceAliasIdByAliasPath al byId) k = Some c' /\
             meta c' = meta c /\ src_name (source c') = src_name (source c).
Proof.
  intros Hc. rewrite replaceAliasIdByAliasPath_get, Hc. cbn.
  destruct (restoredField_shape al byId k c) as (p & -> & _).
  eexists. split; [done|]. by destruct c as [? ? ? ? ? [] ?].
Qed.

Lemma replaceAliasIdByAliasPath_listed (al : Aliases) (byId : ById) (n : nat)
  (ids : list string) :
  Forall (fun id => exists c, obj_get byId id = Some c
                              /\ listedWithin n byId c) ids ->
  Forall (fun id => exists c,
            obj_get (replaceAliasIdByAliasPath al byId) id = Some c
            /\ listedWithin n (replaceAliasIdByAliasPath al byId) c) ids.
Proof.
  intros H. eapply Forall_impl; [exact H|]. intros id (c & Hc & Hl).
  destruct (replaceAliasIdByAliasPath_same_meta al byId id c Hc)
    as (c' & Hc' & Hm & _).
  exists c'. split; [done|].
  eapply (listedWithin_transfer n byId); [|exact Hl|exact Hm].
  intros k d Hd.
  destruct (replaceAliasIdByAliasPath_same_meta al byId k d Hd)
    as (d' & Hd' & Hmd & _).
  by exists d'.
Qed.

(** X27: [deNormalize] returns on every map in which the ids of
    [rootLevelFields] and every id listed in a [childFields] below them
    resolve (in at most [n] levels), given fuel for these levels; the keys
    of the object it returns are the names of the root fields. *)
Theorem deNormalize_returns_when_ids_resolve
  (nf : NormalizedFields) (n fuel : nat) :
  Forall (fun id => exists c, obj_get (byId nf) id = Some c
                              /\ listedWithin n (byId nf) c)
    (rootLevelFields nf) ->
  n < fuel ->
  exists out,
    deNormalize fuel nf = Some (Ok out) /\
    forall name,
      name ∈ Object_keys out <->
      exists id c, id ∈ rootLevelFields nf /\ obj_get (byId nf) id = Some c
                   /\ src_name (source c) = name.
Proof.
  intros Hall Hfuel. unfold deNormalize.
  destruct (deNormalizePaths_returns
              (replaceAliasIdByAliasPath (aliases nf) (byId nf)) n fuel
              (rootLevelFields nf) []
              (replaceAliasIdByAliasPath_listed _ _ _ _ Hall) Hfuel)
    as (out & Hout & Hkeys).
  exists out. split; [done|]. intros name. rewrite Hkeys. split.
  - intros [?%elem_of_nil|(id & c' & Hin & Hc' & Hn)]; [done|].
    eapply Forall_forall in Hall as (c & Hc & _); [|exact Hin].
    destruct (replaceAliasIdByAliasPath_same_meta (aliases nf) (byId nf) id c Hc)
      as (c'' & Hc'' & _ & Hname).
    exists id, c. split_and!; [done|done|]. congruence.
  - intros (id & c & Hin & Hc & Hn). right.
    destruct (replaceAliasIdByAliasPath_same_meta (aliases nf) (byId nf) id c Hc)
      as (c' & Hc' & _ & Hname).
    exists id, c'. split_and!; [done|done|congruence].
Qed.

Lemma deNormalize_returns_when_ids_resolve_witness :
  exists out,
    deNormalize 3 (MkNormalizedFields sampleParentChild [] ["id-0"] 1)
    = Some (Ok out) /\
    forall name,
      name ∈ Object_keys out <->
      exists id c, id ∈ ["id-0"] /\ obj_get sampleParentChild id = Some c
                   /\ src_name (source c) = name.
Proof.
  apply (deNormalize_returns_when_ids_resolve
           (MkNormalizedFields sampleParentChild [] ["id-0"] 1) 2 3).
  - constructor; [|constructor]. exists sampleParent. split; [by vm_compute|].
    cbn. constructor; [|constructor]. eexists. split; [by vm_compute|done].
  - lia.
Defined.

(** X28: [deNormalize] throws a [TypeError] on the first id of
    [rootLevelFields] that is not a key of [byId] (it destructures the
    missing field), the ids before it resolving as above. *)
Theorem deNormalize_dangling_root_throws
  (nf : NormalizedFields) (n fuel : nat) (before after : list string)
  (id : string) :
  rootLevelFields nf = before ++ id :: after ->
  Forall (fun id => exists c, obj_get (byId nf) id = Some c
                              /\ listedWithin n (byId nf) c) before ->
  n < fuel -> obj_get (byId nf) id = None ->
  deNormalize fuel nf = Some (Throw TypeError).
Proof.
  intros Hroots Hall Hfuel Hnone. unfold deNormalize. rewrite Hroots.
  destruct fuel as [|fuel]; [lia|].
  destruct (deNormalizePaths_returns
              (replaceAliasIdByAliasPath (aliases nf) (byId nf)) n (S fuel)
              before []
              (replaceAliasIdByAliasPath_listed _ _ _ _ Hall) Hfuel)
    as (out & Hout & _).
  cbn [deNormalizePaths] in *. rewrite fold_left_app, Hout.
  cbn [fold_left bindF]. rewrite replaceAliasIdByAliasPath_get, Hnone. cbn.
  rewrite bindF_fold_stuck; done.
Qed.

Lemma deNormalize_dangling_root_throws_witness :
  deNormalize 3 (MkNormalizedFields sampleParentChild [] ["id-0"; "gone"] 1)
  = Some (Throw TypeError).
Proof.
  apply (deNormalize_dangling_root_throws
           (MkNormalizedFields sampleParentChild [] ["id-0"; "gone"] 1)
           2 3 ["id-0"] [] "gone").
  - reflexivity.
  - constructor; [|constructor]. exists sampleParent. split; [by vm_compute|].
    cbn. constructor; [|constructor]. eexists. split; [by vm_compute|done].
  - lia.
  - by vm_compute.
Defined.

(** ** getAllDescendantAliases *)

Section DescendantAliases.

Variable fields : NormalizedFields.

Lemma getAllDescendantAliases_unfold (fuel : nat) (f : NormalizedField)
  (acc : list string) :
  getAllDescendantAliases (S fuel) f fields acc
  = if bool_decide (aliasesOfField fields f = [])
       && negb (hasChildFields (meta f)) && negb (hasMultiFields (meta f))
    then Some acc
    else
      match childFields (meta f) with
      | Some ids =>
          fold_left
            (fun (acc : option (list string)) (id : string) =>
               match acc with
               | None => None
               | Some aliasesIds =>
                   match obj_get (byId fields) id with
                   | None => Some aliasesIds
                   | Some child =>
                       getAllDescendantAliases fuel child fields aliasesIds
                   end
               end)
            ids (Some (acc ++ aliasesOfField fields f))
      | None => Some (acc ++ aliasesOfField fields f)
      end.
Proof.
  cbn [getAllDescendantAliases]. unfold aliasesOfField.
  destruct (obj_get (aliases fields) (nf_id f)) as [[|a own]|]; cbn [default];
    rewrite ?app_nil_r; try done.
Qed.

Lemma descendantAliases_children (fuel n : nat) :
  (forall c acc,
      subtreeWithin n (byId fields) c ->
      exists l,
        getAllDescendantAliases fuel c fields acc = Some (acc ++ l) /\
        forall k, k ∈ l <->
                  exists d, visited (byId fields) c d
                            /\ k ∈ aliasesOfField fields d) ->
  forall ids acc,
    Forall (fun id => exists c, obj_get (byId fields) id = Some c
                                /\ subtreeWithin n (byId fields) c) ids ->
    exists l,
      fold_left
        (fun (acc : option (list string)) (id : string) =>
           match acc with
           | None => None
           | Some aliasesIds =>
               match obj_get (byId fields) id with
               | None => Some aliasesIds
               | Some child =>
                   getAllDescendantAliases fuel child fields aliasesIds
               end
           end)
        ids (Some acc)
      = Some (acc ++ l) /\
      forall k, k ∈ l <->
                exists id c d, id ∈ ids /\ obj_get (byId fields) id = Some c /\
                               visited (byId fields) c d /\
                               k ∈ aliasesOfField fields d.
Proof.
  intros IH ids. induction ids as [|id ids IHids]; intros acc Hall.
  - exists []. cbn [fold_left]. rewrite app_nil_r. split; [done|].
    intros k. split; [by intros ?%elem_of_nil|].
    by intros (id & c & d & ?%elem_of_nil & _).
  - apply Forall_cons in Hall as [(c & Hc & Hsub) Hall].
    cbn [fold_left]. rewrite Hc.
    destruct (IH c acc Hsub) as (lc & -> & Hlc).
    destruct (IHids (acc ++ lc) Hall) as (l & -> & Hl).
    exists (lc ++ l). split; [by rewrite app_assoc|].
    intros k. rewrite elem_of_app, Hlc, Hl. split.
    + intros [(d & Hd & Hk)|(id' & c' & d & Hin & Hc' & Hd & Hk)].
      * exists id, c, d. split_and!; [left|done|done|done].
      * exists id', c', d. split_and!; [by right|done|done|done].
    + intros (id' & c' & d & [->|Hin]%elem_of_cons & Hc' & Hd & Hk).
      * left. exists d. split; [congruence|done].
      * right. by exists id', c', d.
Qed.

Lemma getAllDescendantAliases_spec (n : nat) :
  forall fuel f acc,
    subtreeWithin n (byId fields) f -> n <= fuel ->
    exists l,
      getAllDescendantAliases fuel f fields acc = Some (acc ++ l) /\
      forall k, k ∈ l <->
                exists d, visited (byId fields) f d
                          /\ k ∈ aliasesOfField fields d.
Proof.
  induction n as [|n IH]; intros fuel f acc Hsub Hfuel; [done|].
  destruct fuel as [|fuel]; [lia|].
  rewrite getAllDescendantAliases_unfold. cbn [subtreeWithin] in Hsub.
  unfold hasChildren in Hsub.
  destruct (childFields (meta f)) as [ids|] eqn:Hids.
  - destruct Hsub as [Hhas Hall].
    assert (Hneg : negb (hasChildFields (meta f))
                   && negb (hasMultiFields (meta f)) = false).
    { by destruct (hasChildFields (meta f)), (hasMultiFields (meta f)). }
    rewrite <- andb_assoc, Hneg, andb_false_r.
    destruct (descendantAliases_children fuel n
                (fun c acc Hc => IH fuel c acc Hc ltac:(lia)) ids
                (acc ++ aliasesOfField fields f) Hall) as (l & -> & Hl).
    exists (aliasesOfField fields f ++ l). split; [by rewrite app_assoc|].
    intros k. rewrite elem_of_app, Hl. split.
    + intros [Hk|(id & c & d & Hin & Hc & Hd & Hk)].
      * exists f. split; [by left|done].
      * exists d. split; [|done]. right. by eapply visited_child.
    + intros (d & [->|Hd] & Hk); [by left|]. right.
      apply Reachable_first in Hd as (ids' & id & c & Hids' & Hin & Hc & Hv).
      assert (ids' = ids) as -> by congruence. by exists id, c, d.
  - assert (Hnone : forall d, visited (byId fields) f d -> d = f).
    { intros d [->|Hd]; [done|].
      apply Reachable_has_children in Hd. unfold hasChildren in Hd.
      congruence. }
    apply orb_false_iff in Hsub as [-> ->]. cbn [negb]. rewrite !andb_true_r.
    case_bool_decide as Hown.
    + exists []. rewrite app_nil_r. split; [done|].
      intros k. split; [by intros ?%elem_of_nil|].
      intros (d & Hd & Hk). rewrite (Hnone d Hd), Hown in Hk.
      by apply elem_of_nil in Hk.
    + exists (aliasesOfField fields f). split; [done|].
      intros k. split.
      * intros Hk. exists f. split; [by left|done].
      * intros (d & Hd & Hk). by rewrite (Hnone d Hd) in Hk.
Qed.

End DescendantAliases.

(** X29: on a map in which, below the field, children are listed
    exactly where the flags say so and every listed id resolves (in at
    most [n] levels), [getAllDescendantAliases] with fuel for these levels
    returns the accumulator it was given followed by the ids that
    [aliases] lists for the field or for one of its descendants, and by
    nothing else. *)
Theorem getAllDescendantAliases_collects_the_aliases_below
  (fields : NormalizedFields) (field : NormalizedField) (n fuel : nat)
  (aliasesIds : list string) :
  subtreeWithin n (byId fields) field -> n <= fuel ->
  exists l,
    getAllDescendantAliases fuel field fields aliasesIds
    = Some (aliasesIds ++ l) /\
    forall k,
      k ∈ l <->
      k ∈ default [] (obj_get (aliases fields) (nf_id field)) \/
      exists d, Reachable (byId fields) field d /\
                k ∈ default [] (obj_get (aliases fields) (nf_id d)).
Proof.
  intros Hsub Hfuel.
  destruct (getAllDescendantAliases_spec fields n fuel field aliasesIds
              Hsub Hfuel) as (l & Hl & Hk).
  exists l. split; [done|]. intros k. rewrite Hk. unfold aliasesOfField.
  split.
  - intros (d & [->|Hd] & Hin); [by left|right; by exists d].
  - intros [Hin|(d & Hd & Hin)].
    + exists field. split; [by left|done].
    + exists d. split; [by right|done].
Qed.

Lemma getAllDescendantAliases_collects_the_aliases_below_witness :
  exists l,
    getAllDescendantAliases 2 sampleParent
      (MkNormalizedFields sampleParentChild [("id-1", ["id-9"])] ["id-0"] 1)
      ["x"]
    = Some (["x"] ++ l) /\
    forall k,
      k ∈ l <->
      k ∈ default [] (obj_get [("id-1", ["id-9"])] (nf_id sampleParent)) \/
      exists d, Reachable sampleParentChild sampleParent d /\
                k ∈ default [] (obj_get [("id-1", ["id-9"])] (nf_id d)).
Proof.
  apply (getAllDescendantAliases_collects_the_aliases_below
           (MkNormalizedFields sampleParentChild [("id-1", ["id-9"])]
              ["id-0"] 1)
           sampleParent 2 2 ["x"]).
  - cbn. split; [done|]. constructor; [|constructor].
    eexists. split; [by vm_compute|done].
  - lia.
Defined.

(** ** canUseMappingsEditor *)

(** X30: when the generated ids are distinct, [canUseMappingsEditor] on
    the [maxNestedDepth] of the result of [normalize] holds exactly when
    [MAX_DEPTH_DEFAULT_EDITOR] is positive and every field of the result
    has a [nestedDepth] below it. *)
Theorem canUseMappingsEditor_bounds_every_field
  (uuidv4 : nat -> string)
  (uuidv4_inj : forall i j, uuidv4 i = uuidv4 j -> i = j)
  (MAX_DEPTH_DEFAULT_EDITOR : nat) (m : Fields) :
  canUseMappingsEditor MAX_DEPTH_DEFAULT_EDITOR
    (maxNestedDepth (normalize uuidv4 m)) = true
  <-> 0 < MAX_DEPTH_DEFAULT_EDITOR /\
      Forall (fun e => nestedDepth e.2 < MAX_DEPTH_DEFAULT_EDITOR)
        (byId (normalize uuidv4 m)).
Proof.
  unfold canUseMappingsEditor. rewrite bool_decide_eq_true.
  rewrite <- (getMaxNestedDepth_normalize uuidv4 uuidv4_inj m).
  unfold getMaxNestedDepth, Object_values.
  destruct (fold_max_spec nestedDepth (map snd (byId (normalize uuidv4 m))) 0)
    as (_ & Hall & Hmax). cbv zeta in Hall, Hmax.
  split.
  - intros Hlt. split; [lia|]. apply Forall_forall. intros [id f] Hin.
    rewrite Forall_forall in Hall. cbn [snd].
    assert (nestedDepth f
            <= fold_left (fun m0 x => Nat.max m0 (nestedDepth x))
                 (map snd (byId (normalize uuidv4 m))) 0); [|lia].
    apply Hall. apply list_elem_of_fmap. by exists (id, f).
  - intros [Hpos Hforall]. destruct Hmax as [->|(f & Hf & <-)]; [done|].
    apply list_elem_of_fmap in Hf as ([id f'] & -> & Hin).
    rewrite Forall_forall in Hforall. apply (Hforall _ Hin).
Qed.

Lemma canUseMappingsEditor_bounds_every_field_witness :
  canUseMappingsEditor 4 (maxNestedDepth (normalize sampleUuid sampleNestedMulti))
  = true
  <-> 0 < 4 /\
      Forall (fun e => nestedDepth e.2 < 4)
        (byId (normalize sampleUuid sampleNestedMulti)).
Proof.
  exact (canUseMappingsEditor_bounds_every_field sampleUuid sampleUuid_inj 4
           sampleNestedMulti).
Defined.
